(** * Bass Academy: the real-time audio core

    A shallow embedding of the three pieces of source that make up the
    scheduling core of the trainer,

    - [src/services/AudioService.js]             (module [AudioService]),
    - the [useRecordingMetronome] hook, found in
      [src/features/recording/components/MetronomeControls.jsx]
      after the component of that name        (module [Metronome]),
    - the [useLoopMode] hook of [src/hooks/useLoopMode.js]
                                                  (module [LoopMode]),

    followed by the properties proved about them.

    Conventions.  A JavaScript number is a binary64 floating-point
    number.  A finite one is the rational it denotes ([Q]); where the
    code computes, the exact result is rounded to the nearest binary64
    number, ties to even ([double]).  The audio service and the
    metronome only ever hold finite numbers under their preconditions;
    the playhead animator, which publishes whatever [seek] is given,
    works on [number], where [NaN] and the two infinities are values
    too.  Negative zero is not told apart from zero.  A value handed to
    an [AudioParam] is converted to single precision ([toFloat]).
    Counters that only ever hold integers ([beatCountRef],
    [preRollCountRef], ...) are [Z].  [null] and [undefined] are
    [None].  A mutable cell ([useRef], a field of [this]) is a record
    field and every operation passes the record along.  The state of a
    hook ([useState]) is a record field as well, but a callback does not
    read it: it reads the values of the render it was created in, which
    are passed to it as a [Render].  The reading of the audio clock
    ([ctx.currentTime]) is an argument of the call that takes it.  The
    objects of the platform that the code drives (an [AudioParam] and its
    automation timeline, the timer table of [setTimeout]) are modelled
    just far enough to tell what the code asked of them. *)

From Stdlib Require Import QArith Qround Qminmax Qabs Qpower Lqa Lia ZArith
  List Bool.
From stdpp Require Import gmap strings.
Import ListNotations.

Open Scope Q_scope.

(** ** JavaScript values and completions *)

Module JS.

(** [Math.max] and [Math.min] on two finite numbers. *)
Definition Math_max (a b : Q) : Q := Qmax a b.
Definition Math_min (a b : Q) : Q := Qmin a b.

(** [Math.floor], landing in the integers. *)
Definition Math_floor (x : Q) : Z := Qfloor x.

(** Rounding towards zero, the quotient that [%] is built on. *)
Definition trunc (x : Q) : Z :=
  if Qlt_le_dec x 0 then Qceiling x else Qfloor x.

(** [a % b] on numbers: the remainder has the sign of the dividend.
    ([b] is not zero wherever the code uses it under its
    preconditions; JavaScript would answer [NaN] there.) *)
Definition rem (a b : Q) : Q := a - b * inject_Z (trunc (a / b)).

(** [a % b] on integer-valued counters. *)
Definition remZ (a b : Z) : Z := Z.rem a b.

(** The completion of a call: it returns, or an exception escapes. *)
Inductive outcome (A : Type) : Type :=
| Returns (a : A)
| Throws.
Arguments Returns {A} a.
Arguments Throws {A}.

(** Sequencing stops at the first exception. *)
#[export] Instance outcome_bind : MBind outcome := fun A B k c =>
  match c with
  | Returns a => k a
  | Throws => Throws
  end.

#[export] Instance outcome_ret : MRet outcome := fun A a => Returns a.

(** *** Binary floating point *)

Definition pow2 (e : Z) : Q := 2 ^ e.

(** The [e] with [2^e <= |x| < 2^(e+1)], for [x] other than 0. *)
Definition binade (x : Q) : Z :=
  let e := (Z.log2 (Z.abs (Qnum x)) - Z.log2 (Zpos (Qden x)))%Z in
  if Qle_bool (pow2 e) (Qabs x) then e else (e - 1)%Z.

(** The nearest integer, the even one of two that are as near. *)
Definition roundEven (y : Q) : Z :=
  let f := Qfloor y in
  match Qcompare (y - inject_Z f) (1 # 2) with
  | Lt => f
  | Gt => (f + 1)%Z
  | Eq => if Z.even f then f else (f + 1)%Z
  end.

(** The nearest number with [prec] significant bits and an exponent of
    at least [emin]: a multiple of the unit in the last place of [x]. *)
Definition expo (prec emin : Z) (x : Q) : Z :=
  Z.max (binade x - (prec - 1)) emin.

Definition roundPos (prec emin : Z) (x : Q) : Q :=
  let e := expo prec emin x in
  inject_Z (roundEven (x / pow2 e)) * pow2 e.

Definition roundTo (prec emin : Z) (x : Q) : Q :=
  Qred (if Qlt_le_dec x 0 then - roundPos prec emin (- x)
        else roundPos prec emin x).

(** What an arithmetic operation whose exact result is [x] gives, and
    what a decimal literal denotes: the nearest binary64 number. *)
Definition double : Q -> Q := roundTo 53 (-1074).

(** The nearest binary32 number. *)
Definition single : Q -> Q := roundTo 24 (-149).

(** A JavaScript number. *)
Inductive number : Type :=
| NaN
| Infinity (negative : bool)
| Num (q : Q).

(** The number an operation gives whose exact result is [x]: beyond the
    largest binary64 number it is an infinity. *)
Definition ofQ (x : Q) : number :=
  let r := double x in
  if Qle_bool (pow2 1024) (Qabs r) then Infinity (negb (Qle_bool 0 r))
  else Num r.

(** The conversion of an argument of Web IDL type [float], which is how
    an [AudioParam] takes its [value]: a [TypeError] ([None]) for [NaN],
    an infinity and a number beyond the range of single precision. *)
Definition toFloat (x : number) : option Q :=
  match x with
  | Num q =>
      let r := single q in
      if Qle_bool (pow2 128) (Qabs r) then None else Some r
  | _ => None
  end.

(** The operators and [Math] functions on numbers. *)
Module Number.

Definition isNegative (q : Q) : bool := negb (Qle_bool 0 q).

Definition neg (a : number) : number :=
  match a with
  | NaN => NaN
  | Infinity s => Infinity (negb s)
  | Num x => Num (- x)
  end.

Definition add (a b : number) : number :=
  match a, b with
  | NaN, _ | _, NaN => NaN
  | Infinity s, Infinity s' => if Bool.eqb s s' then Infinity s else NaN
  | Infinity s, Num _ | Num _, Infinity s => Infinity s
  | Num x, Num y => ofQ (x + y)
  end.

Definition sub (a b : number) : number := add a (neg b).

Definition mul (a b : number) : number :=
  match a, b with
  | NaN, _ | _, NaN => NaN
  | Infinity s, Infinity s' => Infinity (xorb s s')
  | Infinity s, Num y | Num y, Infinity s =>
      if Qeq_bool y 0 then NaN else Infinity (xorb s (isNegative y))
  | Num x, Num y => ofQ (x * y)
  end.

Definition div (a b : number) : number :=
  match a, b with
  | NaN, _ | _, NaN => NaN
  | Infinity _, Infinity _ => NaN
  | Infinity s, Num y => Infinity (xorb s (isNegative y))
  | Num _, Infinity _ => Num 0
  | Num x, Num y =>
      if Qeq_bool y 0
      then if Qeq_bool x 0 then NaN else Infinity (isNegative x)
      else ofQ (x / y)
  end.

(** [a % b]: the remainder of two finite numbers is exact. *)
Definition rem (a b : number) : number :=
  match a, b with
  | NaN, _ | _, NaN => NaN
  | Infinity _, _ => NaN
  | Num x, Infinity _ => Num x
  | Num x, Num y => if Qeq_bool y 0 then NaN else Num (Qred (rem x y))
  end.

Definition floor (a : number) : number :=
  match a with
  | Num x => Num (inject_Z (Qfloor x))
  | _ => a
  end.

(** [a < b]; a comparison with [NaN] is false. *)
Definition lt (a b : number) : bool :=
  match a, b with
  | NaN, _ | _, NaN => false
  | Infinity s, Infinity s' => s && negb s'
  | Infinity s, Num _ => s
  | Num _, Infinity s => negb s
  | Num x, Num y => negb (Qle_bool y x)
  end.

(** [Math.max(a, b)] and [Math.min(a, b)]. *)
Definition max (a b : number) : number :=
  match a, b with
  | NaN, _ | _, NaN => NaN
  | _, _ => if lt a b then b else a
  end.

Definition min (a b : number) : number :=
  match a, b with
  | NaN, _ | _, NaN => NaN
  | _, _ => if lt b a then b else a
  end.

(** [Number.isNaN]. *)
Definition isNaN (a : number) : bool :=
  match a with
  | NaN => true
  | _ => false
  end.

End Number.

(** Clock readings that never go back ([prev] is the one before the
    first). *)
Fixpoint ascending (prev : Q) (clock : list Q) : bool :=
  match clock with
  | [] => true
  | now :: clock' => Qle_bool prev now && ascending now clock'
  end.

End JS.

Export JS.

(** ** The part of Web Audio the service talks to *)

Module WebAudio.

(** One entry of an [AudioParam]'s automation timeline. *)
Inductive AutomationEvent : Type :=
| SetValue (v t : Q)
| LinearRamp (v t : Q)
| ExponentialRamp (v t : Q).

Definition eventTime (e : AutomationEvent) : Q :=
  match e with
  | SetValue _ t | LinearRamp _ t | ExponentialRamp _ t => t
  end.

Definition eventValue (e : AutomationEvent) : Q :=
  match e with
  | SetValue v _ | LinearRamp v _ | ExponentialRamp v _ => v
  end.

Definition isRamp (e : AutomationEvent) : bool :=
  match e with
  | SetValue _ _ => false
  | LinearRamp _ _ | ExponentialRamp _ _ => true
  end.

(** An [AudioParam]: the value the [value] attribute reads and writes,
    and the scheduled automation, ordered by time. *)
Record AudioParam : Type := mkParam {
  value : Q;
  timeline : list AutomationEvent
}.

Definition newParam (v : Q) : AudioParam := mkParam v [].

(** A new event goes after the events that are not later than it. *)
Fixpoint insertEvent (e : AutomationEvent) (l : list AutomationEvent)
  : list AutomationEvent :=
  match l with
  | [] => [e]
  | x :: l' =>
      if Qle_bool (eventTime x) (eventTime e)
      then x :: insertEvent e l'
      else e :: x :: l'
  end.

(** The scheduling methods raise a [RangeError] on a negative time. *)
Definition schedule (e : AutomationEvent) (p : AudioParam) : outcome AudioParam :=
  if Qlt_le_dec (eventTime e) 0 then Throws
  else Returns (mkParam (value p) (insertEvent e (timeline p))).

Definition setValueAtTime (v t : Q) (p : AudioParam) : outcome AudioParam :=
  schedule (SetValue v t) p.

Definition linearRampToValueAtTime (v t : Q) (p : AudioParam) : outcome AudioParam :=
  schedule (LinearRamp v t) p.

(** [param.value = v] when the clock reads [currentTime]: the value,
    converted to single precision, is what [value] reads from then on,
    and the setter calls [setValueAtTime(v, currentTime)]; an exception
    of the conversion or of that call is the setter's. *)
Definition setValue (currentTime : Q) (v : number) (p : AudioParam)
  : outcome AudioParam :=
  match toFloat v with
  | Some v' => setValueAtTime v' currentTime (mkParam v' (timeline p))
  | None => Throws
  end.

(** An exponential ramp cannot aim at zero. *)
Definition exponentialRampToValueAtTime (v t : Q) (p : AudioParam)
  : outcome AudioParam :=
  if Qeq_bool v 0 then Throws else schedule (ExponentialRamp v t) p.

(** The event is due strictly before [t]. *)
Definition before (t : Q) (e : AutomationEvent) : bool :=
  negb (Qle_bool t (eventTime e)).

(** [cancelScheduledValues(t)] drops every event at or after [t]. *)
Definition cancelScheduledValues (t : Q) (p : AudioParam) : outcome AudioParam :=
  if Qlt_le_dec t 0 then Throws
  else Returns (mkParam (value p) (List.filter (before t) (timeline p))).

(** Where the automation leaves the parameter once it has all played:
    at the target of the last event, or at [value] if there is none. *)
Definition finalValue (p : AudioParam) : Q :=
  match last (timeline p) with
  | Some e => eventValue e
  | None => value p
  end.

(** The ramps that are still to end at or after [t]. *)
Definition pendingRamps (t : Q) (p : AudioParam) : list AutomationEvent :=
  List.filter (fun e => isRamp e && Qle_bool t (eventTime e)) (timeline p).

(** A gain node is its [gain] parameter. *)
Record GainNode : Type := mkGain { gain : AudioParam }.

Definition overGain (f : AudioParam -> outcome AudioParam) (g : GainNode)
  : outcome GainNode :=
  p ← f (gain g); Returns (mkGain p).

(** Decoded sample data; only its identity matters here. *)
Record AudioBuffer : Type := mkBuffer { bufferId : nat }.

(** The two master gains a source can be routed through. *)
Inductive Channel : Type := Bass | MetronomeChannel.

(** A buffer source as the service wires it: source -> shaping gain ->
    master gain of [route] -> destination. *)
Record BufferSource : Type := mkSource {
  buffer : AudioBuffer;
  playbackRate : AudioParam;
  shaping : AudioParam;
  route : Channel;
  startAt : Q;
  stopAt : option Q
}.

(** The audio context: its clock and the sources created on it. *)
Record AudioContext : Type := mkContext {
  currentTime : Q;
  sources : list BufferSource
}.

(** What the program reads off the clock: a binary64 number. *)
Definition reading (t : Q) : Q := double t.

(** [source.start(t)] and [source.stop(t)] reject a negative time. *)
Definition checkTime (t : Q) : outcome unit :=
  if Qlt_le_dec t 0 then Throws else Returns tt.

End WebAudio.

Export WebAudio.

(** ** [AudioService.js] *)

Module AudioService.

(** What the service imports from [config/audioConfig.js]: the open
    string frequencies and the base frequency of the bass sample.  The
    configuration file is not part of the sources at hand, so both are
    parameters of the model. *)
Record AudioConfig : Type := mkConfig {
  STRING_FREQUENCIES : gmap string Q;
  bass_baseFrequency : Q
}.

(** The fields of [this]. [buffers.bass], [buffers.metronome.click],
    [masterGains.bass] and [masterGains.metronome] are flattened. *)
Record AudioService : Type := mkService {
  context : option AudioContext;
  isReady : bool;
  buffers_bass : option AudioBuffer;
  buffers_metronome_click : option AudioBuffer;
  masterGains_bass : option GainNode;
  masterGains_metronome : option GainNode;
  samplesLoaded : bool
}.

Definition constructor : AudioService :=
  mkService None false None None None None false.

(** [createGain()] on a context whose clock reads [currentTime],
    followed by [gain.value = level] for a literal [level], which is in
    the range of single precision. *)
Definition createGain (currentTime level : Q) : GainNode :=
  mkGain
    match setValue (reading currentTime) (ofQ level) (newParam 1) with
    | Returns p => p
    | Throws => newParam 1
    end.

(** [init()]: create the context and the two master gains once. *)
Definition init (s : AudioService) : AudioService :=
  match context s with
  | None =>
      mkService (Some (mkContext 0 [])) (isReady s)
        (buffers_bass s) (buffers_metronome_click s)
        (Some (createGain 0 0.7)) (Some (createGain 0 0.5))
        (samplesLoaded s)
  | Some _ => s
  end.

(** [loadSamples()], given what the two [loadSample] calls came back
    with ([None] for a failed fetch or decode). *)
Definition loadSamples (bass click : option AudioBuffer) (s : AudioService)
  : AudioService :=
  match context s with
  | None => s
  | Some _ =>
      mkService (context s) (isReady s) bass click
        (masterGains_bass s) (masterGains_metronome s) true
  end.

(** [resume()]. *)
Definition resume (bass click : option AudioBuffer) (s : AudioService)
  : AudioService :=
  let s1 := if samplesLoaded s then s else loadSamples bass click s in
  mkService (context s1) true (buffers_bass s1) (buffers_metronome_click s1)
    (masterGains_bass s1) (masterGains_metronome s1) (samplesLoaded s1).

(** [close()]. *)
Definition close (s : AudioService) : AudioService :=
  match context s with
  | Some _ => mkService None false None None None None false
  | None => s
  end.

(** The [currentTime] getter. *)
Definition get_currentTime (s : AudioService) : Q :=
  match context s with
  | Some ctx => currentTime ctx
  | None => 0
  end.

(** [setBassVolume(volume)] (lines 92-96). *)
Definition setBassVolume (volume : number) (s : AudioService)
  : outcome AudioService :=
  match masterGains_bass s with
  | Some g =>
      g' ← overGain (setValue (reading (get_currentTime s)) volume) g;
      Returns
        (mkService (context s) (isReady s) (buffers_bass s)
           (buffers_metronome_click s) (Some g')
           (masterGains_metronome s) (samplesLoaded s))
  | None => Returns s
  end.

(** [setMetronomeVolume(volume)] (lines 101-105). *)
Definition setMetronomeVolume (volume : number) (s : AudioService)
  : outcome AudioService :=
  match masterGains_metronome s with
  | Some g =>
      g' ← overGain (setValue (reading (get_currentTime s)) volume) g;
      Returns
        (mkService (context s) (isReady s) (buffers_bass s)
           (buffers_metronome_click s) (masterGains_bass s)
           (Some g') (samplesLoaded s))
  | None => Returns s
  end.

(** The end of the ramp of a mute at clock reading [t]:
    [currentTime + 0.01]. *)
Definition rampEnd (t : Q) : Q := double (t + double 0.01).

(** The three calls [stopAllSounds] makes on one master gain: cancel,
    pin the value that is read back, ramp to zero in 10 ms. *)
Definition rampToSilence (currentTime : Q) (g : GainNode) : outcome GainNode :=
  overGain (fun p =>
    p1 ← cancelScheduledValues currentTime p;
    p2 ← setValueAtTime (value p1) currentTime p1;
    linearRampToValueAtTime 0 (rampEnd currentTime) p2) g.

Definition whenPresent (f : GainNode -> outcome GainNode) (g : option GainNode)
  : outcome (option GainNode) :=
  match g with
  | Some g => g' ← f g; Returns (Some g')
  | None => Returns None
  end.

(** [stopAllSounds()] (lines 111-128). *)
Definition stopAllSounds (s : AudioService) : outcome AudioService :=
  match context s with
  | None => Returns s
  | Some ctx =>
      let currentTime := reading (currentTime ctx) in
      b ← whenPresent (rampToSilence currentTime) (masterGains_bass s);
      m ← whenPresent (rampToSilence currentTime) (masterGains_metronome s);
      Returns (mkService (context s) (isReady s) (buffers_bass s)
                 (buffers_metronome_click s) b m (samplesLoaded s))
  end.


(** [restoreVolumes(bassVolume, metronomeVolume)]. *)
Definition restoreVolumes (bassVolume metronomeVolume : number)
  (s : AudioService) : outcome AudioService :=
  s1 ← setBassVolume bassVolume s; setMetronomeVolume metronomeVolume s1.

(** The audio clock moves on to [t]. *)
Definition clockReads (t : Q) (s : AudioService) : AudioService :=
  mkService
    (ctx ← context s; Some (mkContext t (sources ctx)))
    (isReady s) (buffers_bass s) (buffers_metronome_click s)
    (masterGains_bass s) (masterGains_metronome s) (samplesLoaded s).

Definition addSource (src : BufferSource) (s : AudioService) : AudioService :=
  mkService
    (ctx ← context s; Some (mkContext (currentTime ctx) (sources ctx ++ [src])))
    (isReady s) (buffers_bass s) (buffers_metronome_click s)
    (masterGains_bass s) (masterGains_metronome s) (samplesLoaded s).

Section Playback.

Variable config : AudioConfig.

(** [Math.pow], which has no exact rational counterpart. *)
Variable Math_pow : Q -> Q -> Q.

(** [playSampleNote(string, fret, time)] (lines 208-238).  A string
    missing from the table makes the rate [NaN], a zero base frequency
    makes it infinite; [setValueAtTime] rejects both. *)
Definition playSampleNote (string : string) (fret : Z) (time : Q)
  (s : AudioService) : outcome AudioService :=
  match buffers_bass s, masterGains_bass s with
  | Some sample, Some _ =>
      match STRING_FREQUENCIES config !! string with
      | None => Throws
      | Some baseFreq =>
          let targetFreq := baseFreq * Math_pow 2 (inject_Z fret / 12) in
          let playbackRate := targetFreq / bass_baseFrequency config in
          match context s with
          | None => Throws
          | Some _ =>
              if Qeq_bool (bass_baseFrequency config) 0 then Throws else
              rate ← setValueAtTime playbackRate time (newParam 1);
              e0 ← setValueAtTime 0 time (newParam 1);
              e1 ← linearRampToValueAtTime 1 (time + 0.05) e0;
              envelopeGain ← exponentialRampToValueAtTime 0.001 (time + 0.5) e1;
              _ ← checkTime time;
              _ ← checkTime (time + 0.6);
              Returns
                (addSource
                   (mkSource sample rate envelopeGain Bass time
                      (Some (time + 0.6))) s)
          end
      end
  | _, _ => Returns s
  end.

(** [playSound(string, fret, time, muted)] (lines 195-202). *)
Definition playSound (string : string) (fret : Z) (time : Q) (muted : bool)
  (s : AudioService) : outcome AudioService :=
  match context s with
  | None => Returns s
  | Some _ =>
      if muted then Returns s
      else
        match buffers_bass s with
        | Some _ => playSampleNote string fret time s
        | None => Returns s
        end
  end.

End Playback.

(** The dynamics of a click. *)
Definition beatMultiplier (isDownbeat isFirstOfBeat : bool) : Q :=
  if isDownbeat && isFirstOfBeat then 1.4
  else if isFirstOfBeat then 1.0
  else 0.5.

(** [playSampleMetronome(time, isDownbeat, isFirstOfBeat)]. *)
Definition playSampleMetronome (time : Q) (isDownbeat isFirstOfBeat : bool)
  (s : AudioService) : outcome AudioService :=
  match buffers_metronome_click s, masterGains_metronome s with
  | Some sample, Some _ =>
      match context s with
      | None => Throws
      | Some _ =>
          dynamicsGain ←
            setValueAtTime (beatMultiplier isDownbeat isFirstOfBeat) time
              (newParam 1);
          _ ← checkTime time;
          Returns
            (addSource
               (mkSource sample (newParam 1) dynamicsGain MetronomeChannel
                  time None) s)
      end
  | _, _ => Returns s
  end.

(** [playMetronomeClick(time, isDownbeat, isFirstOfBeat, enabled)]
    (lines 247-254). *)
Definition playMetronomeClick (time : Q) (isDownbeat isFirstOfBeat enabled : bool)
  (s : AudioService) : outcome AudioService :=
  match context s with
  | None => Returns s
  | Some _ =>
      if enabled then
        match buffers_metronome_click s with
        | Some _ => playSampleMetronome time isDownbeat isFirstOfBeat s
        | None => Returns s
        end
      else Returns s
  end.

(** Reading a master gain back: [masterGains.bass.gain] and
    [masterGains.metronome.gain]. *)
Definition bassGain (s : AudioService) : option AudioParam :=
  g ← masterGains_bass s; Some (gain g).

Definition metronomeGain (s : AudioService) : option AudioParam :=
  g ← masterGains_metronome s; Some (gain g).

End AudioService.

(** ** The [useRecordingMetronome] hook *)

Module Metronome.

(** [DEFAULT_CONFIG]. *)
Definition DEFAULT_tempo : Q := 100.
Definition DEFAULT_timeSignature : Z := 4.
Definition DEFAULT_preRollBars : Z := 1.

(** What leaves the hook: a hi-hat sent to the audio context by
    [playHiHat(isAccent, isPreRoll)], or a call of [onPreRollComplete],
    noted with the values of [beatCountRef] and [preRollCountRef] that
    the callback finds. *)
Inductive Effect : Type :=
| PlayHiHat (isAccent isPreRoll : bool)
| PreRollComplete (beatCount preRollCount : Z).

(** The values a render binds and the callbacks made in that render
    close over.  [scheduleNextBeat], [start] and [startForPlayback] are
    [useCallback]s whose bodies name the constants [tempo],
    [timeSignature] and [isPreRoll] of the render that made them; they
    read those, never the state a later [set...] call produced.  Their
    dependency lists see to it that the callbacks a render hands out go
    with that render's values. *)
Record Render : Type := mkRender {
  r_tempo : Q;
  r_timeSignature : Z;
  r_isPreRoll : bool
}.

(** The hook instance: its [useState] cells, its [useRef] cells, the
    pending [setTimeout] callbacks (each is the [scheduleNextBeat] of
    some render), and what has been heard so far, oldest first. *)
Record Hook : Type := mkHook {
  tempo : Q;
  timeSignature : Z;
  isPlaying : bool;
  isPreRoll : bool;
  currentBeat : Z;
  preRollBeat : Z;
  nextBeatTimeRef : Q;
  timerIdRef : option positive;
  beatCountRef : Z;
  preRollCountRef : Z;
  timers : gmap positive Render;
  nextTimerId : positive;
  heard : list Effect
}.

(** The hook as first mounted. *)
Definition mount (initialTempo : Q) : Hook :=
  mkHook initialTempo DEFAULT_timeSignature false false 0 0
    0 None 0 0 ∅ 1%positive [].

(** The render that follows the current state. *)
Definition render (h : Hook) : Render :=
  mkRender (tempo h) (timeSignature h) (isPreRoll h).

(** [60.0 / tempo]. *)
Definition secondsPerBeat (r : Render) : Q := double (60 / double (r_tempo r)).

(** [ctx.currentTime + 0.1] when the clock reads [now]: the end of the
    look-ahead window. *)
Definition lookAhead (now : Q) : Q := double (double now + double 0.1).

(** One turn of the [while] loop of [scheduleNextBeat] (the body of the
    loop at lines 360-383).  [timeSignature] lies between 2 and 8 in the
    interface; on 0 the source would compute [NaN] where [remZ] gives
    the dividend. *)
Definition emitBeat (r : Render) (h : Hook) : Hook :=
  let beatInBar := remZ (beatCountRef h) (r_timeSignature r) in
  let isAccent := (beatInBar =? 0)%Z in
  if r_isPreRoll r then
    let preRollCount := (preRollCountRef h + 1)%Z in
    if (preRollCount >=? r_timeSignature r * DEFAULT_preRollBars)%Z then
      mkHook (tempo h) (timeSignature h) (isPlaying h) false
        (currentBeat h) preRollCount
        (double (nextBeatTimeRef h + secondsPerBeat r)) (timerIdRef h)
        (0 + 1)%Z 0%Z
        (timers h) (nextTimerId h)
        (heard h ++ [PlayHiHat isAccent true; PreRollComplete 0 0])
    else
      mkHook (tempo h) (timeSignature h) (isPlaying h) (isPreRoll h)
        (currentBeat h) preRollCount
        (double (nextBeatTimeRef h + secondsPerBeat r)) (timerIdRef h)
        (beatCountRef h + 1)%Z preRollCount
        (timers h) (nextTimerId h)
        (heard h ++ [PlayHiHat isAccent true])
  else
    mkHook (tempo h) (timeSignature h) (isPlaying h) (isPreRoll h)
      (beatInBar + 1)%Z (preRollBeat h)
      (double (nextBeatTimeRef h + secondsPerBeat r)) (timerIdRef h)
      (beatCountRef h + 1)%Z (preRollCountRef h)
      (timers h) (nextTimerId h)
      (heard h ++ [PlayHiHat isAccent false]).

(** The loop [while (nextBeatTimeRef.current < ctx.currentTime + 0.1)],
    unrolled at most [fuel] times. *)
Fixpoint scheduleLoop (fuel : nat) (r : Render) (now : Q) (h : Hook) : Hook :=
  match fuel with
  | O => h
  | S fuel' =>
      if Qlt_le_dec (nextBeatTimeRef h) (lookAhead now)
      then scheduleLoop fuel' r now (emitBeat r h)
      else h
  end.

(** A bound on the turns of the loop: twice the beats that fit between
    the next beat time and the end of the window.  With a tempo between
    2^-20 and 2^20 BPM and a clock below 2^35 s a turn moves the next beat
    time on by more than half a beat, whatever the rounding, so that
    the loop fails its test before the bound is reached
    ([scheduleLoop_exit] below).  With a tempo that is not positive the
    source does not come back from the loop, or leaves an infinite beat
    time behind; the model makes no turn there. *)
Definition beatsDue (r : Render) (now : Q) (h : Hook) : nat :=
  Z.to_nat
    (Qceiling (2 * (lookAhead now - nextBeatTimeRef h) / secondsPerBeat r)).

(** [timerIdRef.current = setTimeout(scheduleNextBeat, 25)]: inside
    [scheduleNextBeat] the name refers to the callback itself, so what
    is queued is the callback of the same render. *)
Definition setTimeout (r : Render) (h : Hook) : Hook :=
  mkHook (tempo h) (timeSignature h) (isPlaying h) (isPreRoll h)
    (currentBeat h) (preRollBeat h)
    (nextBeatTimeRef h) (Some (nextTimerId h))
    (beatCountRef h) (preRollCountRef h)
    (<[nextTimerId h := r]> (timers h)) (Pos.succ (nextTimerId h))
    (heard h).

(** [scheduleNextBeat()] of render [r] (lines 354-388), called when the
    audio clock reads [now]. *)
Definition scheduleNextBeat (r : Render) (now : Q) (h : Hook) : Hook :=
  setTimeout r (scheduleLoop (beatsDue r now h) r now h).

(** [start(withPreRoll)] of render [r] (lines 398-421).  The last
    statement calls the [scheduleNextBeat] of the same render: the
    [setIsPreRoll] two lines above it changes the state, not [r]. *)
Definition start (r : Render) (withPreRoll : bool) (now : Q) (h : Hook) : Hook :=
  scheduleNextBeat r now
    (mkHook (tempo h) (timeSignature h) true withPreRoll
       0 (if withPreRoll then 0%Z else preRollBeat h)
       (double (double now + double 0.05)) (timerIdRef h)
       0 0
       (timers h) (nextTimerId h)
       (heard h)).

(** [stop()] (lines 426-438). *)
Definition stop (h : Hook) : Hook :=
  mkHook (tempo h) (timeSignature h) false false
    0 0
    (nextBeatTimeRef h) None
    0 0
    (match timerIdRef h with
     | Some id => delete id (timers h)
     | None => timers h
     end)
    (nextTimerId h)
    (heard h).

(** What [startForPlayback] has written when it hands over to the
    scheduler.  The remainder of two numbers is exact. *)
Definition armForPlayback (r : Render) (startTime now : Q) (h : Hook) : Hook :=
  let secondsPerBeat := secondsPerBeat r in
  let startTime := double startTime in
  let beatCount := Math_floor (double (startTime / secondsPerBeat)) in
  mkHook (tempo h) (timeSignature h) true false
    (remZ beatCount (r_timeSignature r) + 1)%Z (preRollBeat h)
    (double (double now + double (secondsPerBeat - rem startTime secondsPerBeat)))
    (timerIdRef h)
    beatCount (preRollCountRef h)
    (timers h) (nextTimerId h)
    (heard h).

(** [startForPlayback(startTime)] of render [r] (lines 444-461). *)
Definition startForPlayback (r : Render) (startTime now : Q) (h : Hook) : Hook :=
  scheduleNextBeat r now (armForPlayback r startTime now h).

(** The timer [id] comes due when the audio clock reads [now]: the
    browser takes it off its table and calls the callback it holds. *)
Definition fire (id : positive) (now : Q) (h : Hook) : Hook :=
  match timers h !! id with
  | Some r =>
      scheduleNextBeat r now
        (mkHook (tempo h) (timeSignature h) (isPlaying h) (isPreRoll h)
           (currentBeat h) (preRollBeat h)
           (nextBeatTimeRef h) (timerIdRef h)
           (beatCountRef h) (preRollCountRef h)
           (delete id (timers h)) (nextTimerId h)
           (heard h))
  | None => h
  end.

(** The driving timer comes due. *)
Definition tick (now : Q) (h : Hook) : Hook :=
  match timerIdRef h with
  | Some id => fire id now h
  | None => h
  end.

(** A session: the timer comes due at each of the given clock readings. *)
Definition run (clock : list Q) (h : Hook) : Hook :=
  fold_left (fun h now => tick now h) clock h.

Definition isPreRollHat (e : Effect) : bool :=
  match e with
  | PlayHiHat _ true => true
  | _ => false
  end.

Definition isCompletion (e : Effect) : bool :=
  match e with
  | PreRollComplete _ _ => true
  | _ => false
  end.

(** Neither a count-in hi-hat nor the completion call. *)
Definition ordinary (e : Effect) : Prop :=
  isPreRollHat e = false /\ isCompletion e = false.

Definition preRollBeatsHeard (h : Hook) : nat :=
  length (List.filter isPreRollHat (heard h)).

Definition completionsFired (h : Hook) : nat :=
  length (List.filter isCompletion (heard h)).

End Metronome.
(** ** [useLoopMode.js] *)

Module LoopMode.

(** [RHYTHM_CONFIG] of [config/uiConfig.js], which is not part of the
    sources at hand: a parameter of the model. *)
Record RhythmConfig : Type := mkRhythm {
  beatsPerMeasure : Q;
  tripletsPerBeat : Z
}.

(** The hook instance.  [tempoRef] and [loopLengthRef] follow the props;
    [loopRestarts] counts the calls of [onLoopRestart]; [rafRef] holds
    the animation frame that is requested, if any. *)
Record Animator : Type := mkAnimator {
  playhead : number;
  highlightNoteIndex : number;
  rafRef : option positive;
  startTimeRef : option number;
  lastLoopCountRef : number;
  playheadRef : number;
  tempoRef : number;
  loopLengthRef : number;
  nextFrameId : positive;
  loopRestarts : nat
}.

Definition mount (tempo loopLength : number) : Animator :=
  mkAnimator (Num 0) (Num (-1)) None None (Num 0) (Num 0) tempo loopLength
    1%positive O.

(** The props change: the effects copy them into the refs. *)
Definition setProps (tempo loopLength : number) (a : Animator) : Animator :=
  mkAnimator (playhead a) (highlightNoteIndex a) (rafRef a) (startTimeRef a)
    (lastLoopCountRef a) (playheadRef a) tempo loopLength
    (nextFrameId a) (loopRestarts a).

(** [rafRef.current = requestAnimationFrame(tick)]. *)
Definition requestAnimationFrame (a : Animator) : Animator :=
  mkAnimator (playhead a) (highlightNoteIndex a) (Some (nextFrameId a))
    (startTimeRef a) (lastLoopCountRef a) (playheadRef a)
    (tempoRef a) (loopLengthRef a)
    (Pos.succ (nextFrameId a)) (loopRestarts a).

(** [now - startTimeRef.current], where [null] counts as zero. *)
Definition elapsedAt (now : Q) (a : Animator) : number :=
  Number.sub (ofQ now)
    match startTimeRef a with Some t => t | None => Num 0 end.

Section Animation.

Variable RHYTHM_CONFIG : RhythmConfig.

Definition loopDurationOf (tempo loopLength : number) : number :=
  Number.mul
    (Number.mul (Number.div (Num 60) tempo)
       (ofQ (beatsPerMeasure RHYTHM_CONFIG)))
    loopLength.

(** [getLoopDuration()]. *)
Definition getLoopDuration (a : Animator) : number :=
  loopDurationOf (tempoRef a) (loopLengthRef a).

(** [Math.floor(elapsed / loopDuration)] as a frame computes it when
    the clock reads [now]. *)
Definition loopCountAt (now : Q) (a : Animator) : number :=
  Number.floor (Number.div (elapsedAt now a) (getLoopDuration a)).

(** [tick()], one animation frame (lines 71-116).  [audioContext] is
    the reading of the scheduler's audio clock, or [None] while the
    scheduler has no audio context yet. *)
Definition tick (audioContext : option Q) (a : Animator) : Animator :=
  match audioContext with
  | None => requestAnimationFrame a
  | Some now =>
      let currentLoopLength := loopLengthRef a in
      let loopDuration := loopDurationOf (tempoRef a) currentLoopLength in
      let elapsed := elapsedAt now a in
      if Number.lt elapsed (Num 0) then requestAnimationFrame a
      else
        let progress :=
          Number.div (Number.rem elapsed loopDuration) loopDuration in
        let currentLoopCount :=
          Number.floor (Number.div elapsed loopDuration) in
        let restart := Number.lt (lastLoopCountRef a) currentLoopCount in
        let beatProgress :=
          Number.mul
            (Number.mul progress (ofQ (beatsPerMeasure RHYTHM_CONFIG)))
            currentLoopLength in
        let currentBeat := Number.floor beatProgress in
        let noteIndex :=
          Number.mul currentBeat
            (ofQ (inject_Z (tripletsPerBeat RHYTHM_CONFIG))) in
        requestAnimationFrame
          (mkAnimator progress noteIndex (rafRef a) (startTimeRef a)
             (if restart then currentLoopCount else lastLoopCountRef a)
             progress (tempoRef a) (loopLengthRef a) (nextFrameId a)
             (if restart then S (loopRestarts a) else loopRestarts a))
  end.

(** [start()].  Without an audio context it only arms a retry. *)
Definition start (audioContext : option Q) (a : Animator) : Animator :=
  match audioContext with
  | None => a
  | Some now =>
      requestAnimationFrame
        (mkAnimator (Num 0) (Num 0) None (Some (ofQ now)) (Num 0) (Num 0)
           (tempoRef a) (loopLengthRef a)
           (nextFrameId a) (loopRestarts a))
  end.

(** [stop()]. *)
Definition stop (a : Animator) : Animator :=
  mkAnimator (Num 0) (Num (-1)) None (startTimeRef a) (lastLoopCountRef a)
    (Num 0) (tempoRef a) (loopLengthRef a) (nextFrameId a) (loopRestarts a).

(** [seek(position)] (lines 164-175). *)
Definition seek (audioContext : option Q) (position : number) (a : Animator)
  : Animator :=
  let clamped := Number.max (Num 0) (Number.min (Num 1) position) in
  mkAnimator clamped (highlightNoteIndex a) (rafRef a)
    (match audioContext with
     | Some now =>
         Some (Number.sub (ofQ now) (Number.mul clamped (getLoopDuration a)))
     | None => startTimeRef a
     end)
    (lastLoopCountRef a) clamped (tempoRef a) (loopLengthRef a)
    (nextFrameId a) (loopRestarts a).

(** The frames of a run: the audio clock reads the given values. *)
Definition frames (clock : list Q) (a : Animator) : Animator :=
  fold_left (fun a now => tick (Some now) a) clock a.

(** The number of [onLoopRestart] calls after each frame of a run. *)
Fixpoint restartsAfterEach (clock : list Q) (a : Animator) : list nat :=
  match clock with
  | [] => []
  | now :: clock' =>
      let a' := tick (Some now) a in
      loopRestarts a' :: restartsAfterEach clock' a'
  end.

End Animation.

(** Loop counts that go up by one at most from one frame to the next
    ([prev] is the one before the first). *)
Fixpoint stepwise (prev : Z) (counts : list Z) : bool :=
  match counts with
  | [] => true
  | count :: counts' => (count <=? prev + 1)%Z && stepwise count counts'
  end.

End LoopMode.

(** ** A practice session: one audio service, one metronome *)

Module Session.

Record Session : Type := mkSession {
  audio : AudioService.AudioService;
  metronome : Metronome.Hook
}.

(** A call into the audio service made in the course of a session. *)
Definition callAudio
  (f : AudioService.AudioService -> outcome AudioService.AudioService)
  (w : Session) : outcome Session :=
  s ← f (audio w); Returns (mkSession s (metronome w)).

End Session.

(** ** Concrete settings used to exercise the model *)

Module Scenario.

Import AudioService.

(** The one entry of the frequency table that is documented, and a
    sample recorded at the same pitch. *)
Definition config : AudioConfig := mkConfig {[ "E"%string := 41.2 ]} 41.2.

(** A power function that is exact on whole exponents. *)
Definition wholePow (b e : Q) : Q := Qpower b (Qfloor e).

(** A service that has been initialised but has no samples yet. *)
Definition unloaded : AudioService := init constructor.

(** The same service once both samples have arrived. *)
Definition loaded : AudioService :=
  resume (Some (mkBuffer 1)) (Some (mkBuffer 2)) unloaded.

(** Four beats to the measure, three triplets to the beat. *)
Definition rhythm : LoopMode.RhythmConfig := LoopMode.mkRhythm 4 3.

End Scenario.

(** ** [useBassAudio]: the service as its users reach it *)

Module BassAudio.

Import AudioService.

(** What a user of the hook can make happen: mounting, which runs
    [service.init()], unmounting, which runs [service.close()], and the
    methods the hook hands out, each of which forwards to the method of
    the same name on the one shared service.  [Resume] comes with what
    the two sample fetches will answer.  ([playCountdownBeep], whose
    oscillator bypasses everything the service keeps, and the two
    getters are left out.) *)
Inductive Call : Type :=
| Mount
| Unmount
| Resume (bass click : option AudioBuffer)
| PlaySound (string : string) (fret : Z) (time : Q) (muted : bool)
| PlayMetronomeClick (time : Q) (isDownbeat isFirstOfBeat enabled : bool)
| SetBassVolume (volume : number)
| SetMetronomeVolume (volume : number)
| StopAllSounds
| RestoreVolumes (bassVolume metronomeVolume : number).

Section Calls.

Variable config : AudioConfig.
Variable Math_pow : Q -> Q -> Q.

Definition call (c : Call) (s : AudioService) : outcome AudioService :=
  match c with
  | Mount => Returns (init s)
  | Unmount => Returns (close s)
  | Resume bass click => Returns (resume bass click s)
  | PlaySound string fret time muted =>
      playSound config Math_pow string fret time muted s
  | PlayMetronomeClick time isDownbeat isFirstOfBeat enabled =>
      playMetronomeClick time isDownbeat isFirstOfBeat enabled s
  | SetBassVolume volume => setBassVolume volume s
  | SetMetronomeVolume volume => setMetronomeVolume volume s
  | StopAllSounds => stopAllSounds s
  | RestoreVolumes bassVolume metronomeVolume =>
      restoreVolumes bassVolume metronomeVolume s
  end.

(** One call after the other; an exception ends the sequence. *)
Fixpoint calls (cs : list Call) (s : AudioService) : outcome AudioService :=
  match cs with
  | [] => Returns s
  | c :: cs' => s' ← call c s; calls cs' s'
  end.

(** The playback rate [playSampleNote] computes for a note. *)
Definition rateOf (string : string) (fret : Z) : option Q :=
  baseFreq ← STRING_FREQUENCIES config !! string;
  Some ((baseFreq * Math_pow 2 (inject_Z fret / 12))
        / bass_baseFrequency config).

(** A call with arguments the platform accepts: scheduled times are not
    negative, a note that will sound names a string of the table and
    has a playback rate within the range of single precision, and a
    volume is a number within that range. *)
Definition admissible (c : Call) : Prop :=
  match c with
  | PlaySound string fret time muted =>
      muted = true \/
      (0 <= time /\
       exists rate, rateOf string fret = Some rate /\
                    is_Some (toFloat (Num rate)))
  | PlayMetronomeClick time _ _ enabled => enabled = false \/ 0 <= time
  | SetBassVolume volume | SetMetronomeVolume volume =>
      is_Some (toFloat volume)
  | RestoreVolumes bassVolume metronomeVolume =>
      is_Some (toFloat bassVolume) /\ is_Some (toFloat metronomeVolume)
  | _ => True
  end.

End Calls.

(** The shape every state of the service has: with a context come a
    clock that is not negative and both master gains; without one there
    are no gains and no samples. *)
Definition consistent (s : AudioService) : Prop :=
  match context s with
  | Some ctx =>
      0 <= currentTime ctx /\
      is_Some (masterGains_bass s) /\ is_Some (masterGains_metronome s)
  | None =>
      masterGains_bass s = None /\ masterGains_metronome s = None /\
      buffers_bass s = None /\ buffers_metronome_click s = None /\
      samplesLoaded s = false
  end.

End BassAudio.

(** ** Counting what a metronome session has played *)

Module Beats.

Import Metronome.

Definition isHat (e : Effect) : bool :=
  match e with
  | PlayHiHat _ _ => true
  | _ => false
  end.

(** The hi-hats played so far, count-in or not. *)
Definition hatsHeard (h : Hook) : nat :=
  length (List.filter isHat (heard h)).

(** The time of beat [k] of a session whose first beat is due at
    [first], as the additions [nextBeatTimeRef.current += secondsPerBeat]
    of the scheduler compute it. *)
Definition beatTime (r : Render) (first : Q) (k : nat) : Q :=
  Nat.iter k (fun t => double (t + secondsPerBeat r)) first.

End Beats.

(** ** The [MetronomeControls] component *)

Module MetronomeControls.

Import Metronome.

(** A dot of the beat indicator of the full variant: the gold one that
    marks the first beat, a green one, or an unlit one. *)
Inductive Dot : Type := DotAccent | DotBeat | DotOff.

(** [[...Array(timeSignature)].map((_, i) => ...)] (lines 200-211). *)
Definition beatDots (timeSignature currentBeat : Z) : list Dot :=
  (fun i : Z =>
     if (currentBeat =? i + 1)%Z
     then if (i =? 0)%Z then DotAccent else DotBeat
     else DotOff) <$> seqZ 0 timeSignature.

(** What the beat indicator shows (lines 188-219): the count-in number,
    the dots, or the idle line with the tempo. *)
Inductive BeatIndicator : Type :=
| GetReady (count : Z)
| Dots (dots : list Dot)
| ReadyAt (tempo : Q).

Definition beatIndicator (isPreRoll isPlaying : bool)
  (tempo : Q) (timeSignature currentBeat preRollBeat preRollTotal : Z)
  : BeatIndicator :=
  if isPreRoll then GetReady (preRollTotal - preRollBeat + 1)
  else if isPlaying then Dots (beatDots timeSignature currentBeat)
  else ReadyAt tempo.

(** The indicator of a component that is handed, prop by prop, what the
    hook returns; [preRollTotal] is [timeSignature * preRollBars]
    (line 495). *)
Definition indicatorOf (h : Hook) : BeatIndicator :=
  beatIndicator (isPreRoll h) (isPlaying h) (tempo h) (timeSignature h)
    (currentBeat h) (preRollBeat h)
    (timeSignature h * DEFAULT_preRollBars).

End MetronomeControls.

(** * The practice statistics ([usePracticeStats]) *)

Module PracticeStats.

Local Open Scope Z_scope.

(** Durations are whole seconds and clock readings ([Date.now()]) whole
    milliseconds.  A day is the ISO date string the clock gives, and
    [dailyHistory] the object keyed on those strings. *)
Record Stats : Type := mkStats {
  totalSeconds : Z;
  sessions : Z;
  streak : Z;
  lastPracticeDate : option string;
  dailyHistory : gmap string Z
}.

Definition INITIAL_STATS : Stats := mkStats 0 0 0 None ∅.

(** The update [commitSession] hands to [setStats].  [today] is
    [getTodayDate()], read when [commitSession] is called;
    [yesterdayString] is the day string the update itself computes from
    a clock reading of its own.  [newStreak || 1] replaces a zero. *)
Definition commitSession (today yesterdayString : string) (seconds : Z)
    (prev : Stats) : Stats :=
  let lastDate := lastPracticeDate prev in
  let newStreak :=
    if bool_decide (lastDate = Some today) then streak prev
    else if bool_decide (lastDate = Some yesterdayString) then streak prev + 1
    else 1 in
  mkStats (totalSeconds prev + seconds)
          (sessions prev + 1)
          (if newStreak =? 0 then 1 else newStreak)
          (Some today)
          (<[ today := default 0 (dailyHistory prev !! today) + seconds ]>
             (dailyHistory prev)).

(** What the template literals of [formatTime] interpolate. *)
Inductive Shown : Type :=
| HoursMinutes (h m : Z)
| MinutesSeconds (m s : Z).

Definition formatTime (seconds : Z) : Shown :=
  let h := seconds / 3600 in
  let m := remZ seconds 3600 / 60 in
  let s := remZ seconds 60 in
  if 0 <? h then HoursMinutes h m else MinutesSeconds m s.

(** The hook's state and refs, and the intervals the platform keeps
    running for it. *)
Record Timer : Type := mkTimer {
  stats : Stats;
  sessionSeconds : Z;
  startTimeRef : option Z;
  intervalRef : option positive;
  intervals : gset positive;
  nextIntervalId : positive
}.

Definition mount : Timer := mkTimer INITIAL_STATS 0 None None ∅ 1.

Definition clearInterval (id : positive) (t : Timer) : Timer :=
  mkTimer (stats t) (sessionSeconds t) (startTimeRef t) (intervalRef t)
          (intervals t ∖ {[ id ]}) (nextIntervalId t).

(** The clean-up the timer effect returns. *)
Definition cleanup (t : Timer) : Timer :=
  match intervalRef t with
  | Some id => clearInterval id t
  | None => t
  end.

(** The body of the timer effect, run with the clock at [now]. *)
Definition timerEffect (isPlaying : bool) (now : Z)
    (today yesterdayString : string) (t : Timer) : Timer :=
  if isPlaying then
    let id := nextIntervalId t in
    mkTimer (stats t) (sessionSeconds t) (Some now) (Some id)
            ({[ id ]} ∪ intervals t) (id + 1)%positive
  else
    let t1 :=
      match startTimeRef t with
      | Some start =>
          if start =? 0 then t
          else
            let delta := (now - start) / 1000 in
            mkTimer (if 0 <? delta
                     then commitSession today yesterdayString delta (stats t)
                     else stats t)
                    0 None (intervalRef t) (intervals t) (nextIntervalId t)
      | None => t
      end in
    match intervalRef t1 with
    | Some id =>
        mkTimer (stats t1) (sessionSeconds t1) (startTimeRef t1) None
                (intervals t1 ∖ {[ id ]}) (nextIntervalId t1)
    | None => t1
    end.

(** The interval's callback; a null start counts as zero. *)
Definition onInterval (now : Z) (t : Timer) : Timer :=
  mkTimer (stats t) ((now - default 0 (startTimeRef t)) / 1000)
          (startTimeRef t) (intervalRef t) (intervals t) (nextIntervalId t).

(** What happens to the hook: the effect runs again (after the clean-up
    of its last run) because [isPlaying] changed, an interval that is
    still running fires, or the component unmounts. *)
Inductive Event : Type :=
| Effect (isPlaying : bool) (now : Z) (today yesterdayString : string)
| Interval (id : positive) (now : Z)
| Unmount.

Definition handle (e : Event) (t : Timer) : Timer :=
  match e with
  | Effect isPlaying now today yesterdayString =>
      timerEffect isPlaying now today yesterdayString (cleanup t)
  | Interval id now =>
      if bool_decide (id ∈ intervals t) then onInterval now t else t
  | Unmount => cleanup t
  end.

Fixpoint events (es : list Event) (t : Timer) : Timer :=
  match es with
  | [] => t
  | e :: es' => events es' (handle e t)
  end.

Definition isInterval (e : Event) : bool :=
  match e with Interval _ _ => true | _ => false end.

(** The seconds on record over all days. *)
Definition practised (history : gmap string Z) : Z :=
  map_fold (fun _ seconds acc => seconds + acc) 0 history.

(** Totals that agree with the history, at least a second per session,
    and a streak between one and the number of sessions once there is
    one. *)
Definition consistent (s : Stats) : Prop :=
  totalSeconds s = practised (dailyHistory s) /\
  sessions s <= totalSeconds s /\
  0 <= streak s <= sessions s /\
  (0 < sessions s -> 1 <= streak s /\ is_Some (lastPracticeDate s)).

(** At most the interval the ref names is running. *)
Definition oneInterval (t : Timer) : Prop :=
  forall id, id ∈ intervals t -> intervalRef t = Some id.

(** One session a day, each committed with the day before as
    [yesterdayString]. *)
Fixpoint dayAfterDay (yesterdayString : string)
    (days : list (string * Z)) (s : Stats) : Stats :=
  match days with
  | [] => s
  | (today, seconds) :: days' =>
      dayAfterDay today days' (commitSession today yesterdayString seconds s)
  end.

Fixpoint distinctNeighbours (previous : string) (days : list (string * Z))
    : Prop :=
  match days with
  | [] => True
  | (today, _) :: days' => previous <> today /\ distinctNeighbours today days'
  end.

End PracticeStats.

(** * The service worker ([public/sw.js]) *)

Module ServiceWorker.

Local Open Scope string_scope.

(** A response: its status, status text and body. *)
Record Response : Type := mkResponse {
  status : Z;
  statusText : string;
  body : string
}.

(** [response.ok]: the status is in the range 200-299. *)
Definition ok (r : Response) : bool :=
  ((200 <=? status r) && (status r <=? 299))%Z.

(** A cache maps a GET request, identified by its URL as the precache
    list writes it, to the response stored for it; the cache storage
    keeps its named caches in the order of their creation.  The handlers
    do not await [cache.put]: the storage after a handler is the storage
    once its put has completed. *)
Definition CacheStorage : Type := list (string * gmap string Response).

Definition CACHE_VERSION : string := "v1.0.0".
Definition CACHE_NAME : string := "bass-academy-" +:+ CACHE_VERSION.
Definition RUNTIME_CACHE : string := "bass-academy-runtime-" +:+ CACHE_VERSION.

(** The icon sizes, as they print in the template literal. *)
Definition ICON_SIZES : list string :=
  ["72"; "96"; "128"; "144"; "152"; "192"; "384"; "512"].

Definition PRECACHE_ASSETS : list string :=
  ["/"; "/index.html"; "/offline.html"; "/manifest.json"; "/vite.svg"]
  ++ map (fun size => "/icons/icon-" +:+ size +:+ "x" +:+ size +:+ ".png")
         ICON_SIZES.

(** [caches.match(request)]: the first cache, in the order of creation,
    that holds the request answers. *)
Fixpoint cachesMatch (url : string) (caches : CacheStorage)
    : option Response :=
  match caches with
  | [] => None
  | (_, cache) :: caches' =>
      match cache !! url with
      | Some response => Some response
      | None => cachesMatch url caches'
      end
  end.

(** [caches.open(name)], which creates the cache when there is none of
    that name, followed by an update [f] of the cache it gives. *)
Fixpoint withCache (name : string)
    (f : gmap string Response -> gmap string Response)
    (caches : CacheStorage) : CacheStorage :=
  match caches with
  | [] => [(name, f ∅)]
  | (n, cache) :: caches' =>
      if bool_decide (n = name) then (n, f cache) :: caches'
      else (n, cache) :: withCache name f caches'
  end.

(** [cache.put(request, response)] on the cache of that name. *)
Definition cachePut (name url : string) (response : Response)
    : CacheStorage -> CacheStorage :=
  withCache name <[ url := response ]>.

(** The fetches of [cache.addAll]: it rejects, and stores nothing,
    unless every request is answered with an ok response. *)
Fixpoint fetchAll (fetch : string -> option Response) (urls : list string)
    : option (list (string * Response)) :=
  match urls with
  | [] => Some []
  | url :: urls' =>
      match fetch url with
      | Some response =>
          if ok response
          then match fetchAll fetch urls' with
               | Some entries => Some ((url, response) :: entries)
               | None => None
               end
          else None
      | None => None
      end
  end.

Definition addAll (entries : list (string * Response))
    (cache : gmap string Response) : gmap string Response :=
  fold_left (fun cache entry => <[ entry.1 := entry.2 ]> cache) entries cache.

(** The install handler; a failure of [addAll] is caught. *)
Definition install (fetch : string -> option Response)
    (caches : CacheStorage) : CacheStorage :=
  withCache CACHE_NAME
    (fun cache =>
       match fetchAll fetch PRECACHE_ASSETS with
       | Some entries => addAll entries cache
       | None => cache
       end)
    caches.

(** The caches the activate handler deletes. *)
Definition isOld (cacheName : string) : bool :=
  String.prefix "bass-academy-" cacheName
  && negb (bool_decide (cacheName = CACHE_NAME))
  && negb (bool_decide (cacheName = RUNTIME_CACHE)).

Definition activate (caches : CacheStorage) : CacheStorage :=
  List.filter (fun entry => negb (isOld entry.1)) caches.

Definition networkError : Response :=
  mkResponse 408 "Network error" "Network error".

Definition offline : Response :=
  mkResponse 503 "Offline" "Offline - Please check your connection".

(** The strategies.  [network] is what [fetch(request)] gives: a
    response, or [None] when it rejects.  Each gives its answer and the
    storage it leaves. *)
Definition cacheFirst (url : string) (network : option Response)
    (caches : CacheStorage) : Response * CacheStorage :=
  match cachesMatch url caches with
  | Some cachedResponse => (cachedResponse, caches)
  | None =>
      match network with
      | Some networkResponse =>
          (networkResponse,
           if ok networkResponse
           then cachePut RUNTIME_CACHE url networkResponse caches
           else caches)
      | None => (networkError, caches)
      end
  end.

Definition networkFirst (url : string) (network : option Response)
    (caches : CacheStorage) : Response * CacheStorage :=
  match network with
  | Some networkResponse =>
      (networkResponse,
       if ok networkResponse
       then cachePut RUNTIME_CACHE url networkResponse caches
       else caches)
  | None =>
      match cachesMatch url caches with
      | Some cachedResponse => (cachedResponse, caches)
      | None => (networkError, caches)
      end
  end.

Definition networkFirstWithFallback (url : string)
    (network : option Response) (caches : CacheStorage)
    : Response * CacheStorage :=
  match network with
  | Some networkResponse =>
      (networkResponse,
       if ok networkResponse
       then cachePut CACHE_NAME url networkResponse caches
       else caches)
  | None =>
      match cachesMatch url caches with
      | Some cachedResponse => (cachedResponse, caches)
      | None =>
          match cachesMatch "/offline.html" caches with
          | Some offlinePage => (offlinePage, caches)
          | None => (offline, caches)
          end
      end
  end.

(** [cachedResponse || fetchPromise], where the promise falls back on
    [cachedResponse] when the fetch rejects: no answer at all is
    [None]. *)
Definition staleWhileRevalidate (url : string) (network : option Response)
    (caches : CacheStorage) : option Response * CacheStorage :=
  let cachedResponse := cachesMatch url caches in
  let caches' :=
    match network with
    | Some networkResponse =>
        if ok networkResponse
        then cachePut RUNTIME_CACHE url networkResponse caches
        else caches
    | None => caches
    end in
  (match cachedResponse with
   | Some response => Some response
   | None =>
       match network with
       | Some networkResponse => Some networkResponse
       | None => cachedResponse
       end
   end,
   caches').

(** The requests the fetch handler answers, by the strategy it picks. *)
Inductive Strategy : Type :=
| CacheFirst
| NetworkFirst
| NetworkFirstWithFallback
| StaleWhileRevalidate.

Record FetchEvent : Type := mkFetch {
  strategy : Strategy;
  url : string;
  network : option Response
}.

Definition respondWith (e : FetchEvent) (caches : CacheStorage)
    : option Response * CacheStorage :=
  match strategy e with
  | CacheFirst =>
      let (response, caches') := cacheFirst (url e) (network e) caches in
      (Some response, caches')
  | NetworkFirst =>
      let (response, caches') := networkFirst (url e) (network e) caches in
      (Some response, caches')
  | NetworkFirstWithFallback =>
      let (response, caches') :=
        networkFirstWithFallback (url e) (network e) caches in
      (Some response, caches')
  | StaleWhileRevalidate => staleWhileRevalidate (url e) (network e) caches
  end.

Fixpoint serve (requests : list FetchEvent) (caches : CacheStorage)
    : CacheStorage :=
  match requests with
  | [] => caches
  | e :: requests' => serve requests' (respondWith e caches).2
  end.

(** The request leaves the precached copy of [precached] alone. *)
Definition sparesPrecache (precached : string) (e : FetchEvent) : Prop :=
  strategy e = NetworkFirstWithFallback -> url e <> precached.

End ServiceWorker.

(** * Properties *)

(** ** Arithmetic of the number model *)

Lemma Qle_bool_false (a b : Q) : Qle_bool a b = false <-> b < a.
Proof.
  split; intros H.
  - apply Qnot_le_lt. intros Hle. apply Qle_bool_iff in Hle. congruence.
  - destruct (Qle_bool a b) eqn:E; [|reflexivity].
    apply Qle_bool_iff in E. lra.
Qed.

Lemma filter_none {A : Type} (f : A -> bool) (l : list A) :
  (forall x, In x l -> f x = false) -> List.filter f l = [].
Proof.
  induction l as [|x l IH]; intros H; cbn; [reflexivity|].
  rewrite (H x) by (left; reflexivity).
  apply IH. intros y Hy. apply H. right. exact Hy.
Qed.

(** *** Powers of two *)

Lemma pow2_pos e : 0 < pow2 e.
Proof. apply Qpower_0_lt. reflexivity. Qed.

Lemma pow2_add a b : pow2 (a + b) == pow2 a * pow2 b.
Proof. apply Qpower_plus. discriminate. Qed.

Lemma pow2_le a b : (a <= b)%Z -> pow2 a <= pow2 b.
Proof. intros H. apply Qpower_le_compat_l; [exact H|discriminate]. Qed.

Lemma pow2_lt a b : (a < b)%Z -> pow2 a < pow2 b.
Proof. intros H. apply Qpower_lt_compat_l; [exact H|reflexivity]. Qed.

Lemma pow2_lt_inv a b : pow2 a < pow2 b -> (a < b)%Z.
Proof. intros H. apply (Qpower_lt_compat_l_inv 2); [exact H|reflexivity]. Qed.

Lemma pow2_Z e : (0 <= e)%Z -> pow2 e == inject_Z (2 ^ e).
Proof. intros H. unfold pow2. rewrite Zpower_Qpower by exact H. reflexivity. Qed.

Lemma pow2_sub a b : pow2 (a - b) == pow2 a / pow2 b.
Proof.
  pose proof (pow2_pos b) as Hb.
  assert (E : pow2 a == pow2 (a - b) * pow2 b).
  { rewrite <- pow2_add. replace (a - b + b)%Z with a by lia. reflexivity. }
  rewrite E. field. lra.
Qed.

Lemma pow2_succ a : pow2 (a + 1) == 2 * pow2 a.
Proof. rewrite pow2_add. change (pow2 1) with 2. ring. Qed.

Lemma last_cons {A : Type} (x d : A) (l : list A) :
  List.last (x :: l) d = List.last l x.
Proof.
  revert x d. induction l as [|y l IH]; intros x d; [reflexivity|].
  change (List.last (x :: y :: l) d) with (List.last (y :: l) d).
  rewrite !(IH y). reflexivity.
Qed.

(** *** The binade of a number *)

Lemma Qabs_frac x :
  Qabs x == inject_Z (Z.abs (Qnum x)) / inject_Z (Zpos (Qden x)).
Proof. destruct x as [n d]. cbn [Qabs Qnum Qden]. apply Qmake_Qdiv. Qed.

Lemma log2_bounds (n : Z) :
  (0 < n)%Z ->
  pow2 (Z.log2 n) <= inject_Z n /\ inject_Z n < pow2 (Z.log2 n + 1).
Proof.
  intros H. destruct (Z.log2_spec n H) as [Hl Hu].
  pose proof (Z.log2_nonneg n) as H0.
  rewrite !pow2_Z by lia. rewrite <- Zle_Qle, <- Zlt_Qlt.
  replace (Z.log2 n + 1)%Z with (Z.succ (Z.log2 n)) by lia. auto.
Qed.

Lemma binade_spec x :
  ~ x == 0 -> pow2 (binade x) <= Qabs x /\ Qabs x < pow2 (binade x + 1).
Proof.
  intros Hx.
  assert (Hn : (0 < Z.abs (Qnum x))%Z).
  { destruct x as [[|n|n] d]; cbn; try lia. exfalso. apply Hx. reflexivity. }
  destruct (log2_bounds _ Hn) as [Hnl Hnu].
  destruct (log2_bounds (Zpos (Qden x)) eq_refl) as [Hdl Hdu].
  unfold binade.
  set (a := Z.log2 (Z.abs (Qnum x))) in *.
  set (b := Z.log2 (Zpos (Qden x))) in *.
  set (n := inject_Z (Z.abs (Qnum x))) in *.
  set (d := inject_Z (Zpos (Qden x))) in *.
  pose proof (pow2_pos b) as Pb. pose proof (pow2_pos (a - b)) as Pe.
  assert (Hd : 0 < d) by lra.
  assert (E : Qabs x == n / d) by apply Qabs_frac.
  assert (Ea : pow2 a == pow2 (a - b) * pow2 b).
  { rewrite <- pow2_add. replace (a - b + b)%Z with a by lia. reflexivity. }
  assert (Ea1 : pow2 (a + 1) == 2 * pow2 a) by apply pow2_succ.
  assert (Eb1 : pow2 (b + 1) == 2 * pow2 b) by apply pow2_succ.
  assert (Ee1 : pow2 (a - b + 1) == 2 * pow2 (a - b)) by apply pow2_succ.
  assert (Ee0 : pow2 (a - b) == 2 * pow2 (a - b - 1)).
  { rewrite <- pow2_succ. replace (a - b - 1 + 1)%Z with (a - b)%Z by lia.
    reflexivity. }
  assert (Hlt : Qabs x < pow2 (a - b + 1)).
  { rewrite E. apply Qlt_shift_div_r; [exact Hd|]. nra. }
  assert (Hgt : pow2 (a - b - 1) <= Qabs x).
  { rewrite E. apply Qle_shift_div_l; [exact Hd|]. nra. }
  destruct (Qle_bool (pow2 (a - b)) (Qabs x)) eqn:T.
  - apply Qle_bool_iff in T. split; assumption.
  - replace (a - b - 1 + 1)%Z with (a - b)%Z by lia. split; [exact Hgt|].
    apply Qnot_le_lt. intros H. apply Qle_bool_iff in H. congruence.
Qed.

Lemma binade_unique x e :
  pow2 e <= Qabs x -> Qabs x < pow2 (e + 1) -> binade x = e.
Proof.
  intros Hl Hu.
  assert (Hx : ~ x == 0).
  { intros H. rewrite H in Hl. pose proof (pow2_pos e).
    change (Qabs 0) with 0 in Hl. lra. }
  destruct (binade_spec x Hx) as [Hl' Hu'].
  assert (H1 : pow2 e < pow2 (binade x + 1)) by lra.
  assert (H2 : pow2 (binade x) < pow2 (e + 1)) by lra.
  apply pow2_lt_inv in H1, H2. lia.
Qed.

Lemma binade_comp x y : ~ x == 0 -> x == y -> binade x = binade y.
Proof.
  intros Hx E. symmetry. destruct (binade_spec x Hx) as [Hl Hu].
  apply binade_unique; rewrite <- E; assumption.
Qed.

Lemma binade_mono x y : 0 < x -> x <= y -> (binade x <= binade y)%Z.
Proof.
  intros Hx Hxy.
  destruct (binade_spec x) as [Hl _]; [lra|].
  destruct (binade_spec y) as [_ Hu]; [lra|].
  rewrite Qabs_pos in Hl, Hu by lra.
  assert (H : pow2 (binade x) < pow2 (binade y + 1)) by lra.
  apply pow2_lt_inv in H. lia.
Qed.

(** *** Rounding to the nearest integer, ties to even *)

Lemma roundEven_cases y :
  let f := Qfloor y in
  (y - inject_Z f < 1 # 2 /\ roundEven y = f) \/
  (1 # 2 < y - inject_Z f /\ roundEven y = (f + 1)%Z) \/
  (y - inject_Z f == 1 # 2 /\ (roundEven y = f \/ roundEven y = (f + 1)%Z)).
Proof.
  intros f. unfold roundEven. fold f.
  destruct (Qcompare_spec (y - inject_Z f) (1 # 2)) as [E|L|G].
  - right. right. split; [exact E|]. destruct (Z.even f); auto.
  - left. auto.
  - right. left. auto.
Qed.

Lemma floor_bounds y : inject_Z (Qfloor y) <= y /\ y < inject_Z (Qfloor y) + 1.
Proof.
  split; [apply Qfloor_le|]. pose proof (Qlt_floor y) as H.
  rewrite inject_Z_plus in H. exact H.
Qed.

Lemma roundEven_error y :
  inject_Z (roundEven y) - (1 # 2) <= y /\ y <= inject_Z (roundEven y) + (1 # 2).
Proof.
  destruct (floor_bounds y) as [Hl Hu].
  destruct (roundEven_cases y) as [[H ->]|[[H ->]|[H [-> | ->]]]];
    rewrite ?inject_Z_plus; change (inject_Z 1) with 1; lra.
Qed.

Lemma roundEven_comp y z : y == z -> roundEven y = roundEven z.
Proof.
  intros E. unfold roundEven.
  assert (Ef : Qfloor y = Qfloor z) by (apply Qfloor_comp; exact E).
  rewrite <- Ef.
  assert (E1 : y - inject_Z (Qfloor y) == z - inject_Z (Qfloor y))
    by lra.
  assert (Ec : Qcompare (y - inject_Z (Qfloor y)) (1 # 2)
               = Qcompare (z - inject_Z (Qfloor y)) (1 # 2)).
  { apply Qcompare_comp; [exact E1|reflexivity]. }
  rewrite Ec. reflexivity.
Qed.

Lemma roundEven_Z n : roundEven (inject_Z n) = n.
Proof.
  unfold roundEven. rewrite Qfloor_Z.
  assert (Ec : Qcompare (inject_Z n - inject_Z n) (1 # 2) = Qcompare 0 (1 # 2)).
  { assert (E1 : inject_Z n - inject_Z n == 0) by ring.
    apply Qcompare_comp; [exact E1|reflexivity]. }
  rewrite Ec. reflexivity.
Qed.

Lemma roundEven_mono y z : y <= z -> (roundEven y <= roundEven z)%Z.
Proof.
  intros H.
  pose proof (Qfloor_resp_le _ _ H) as Hf.
  destruct (floor_bounds y) as [Hyl Hyu]. destruct (floor_bounds z) as [Hzl Hzu].
  destruct (Z.eq_dec (Qfloor y) (Qfloor z)) as [E|N].
  - unfold roundEven. rewrite <- E.
    destruct (Qcompare_spec (y - inject_Z (Qfloor y)) (1 # 2)) as [Ey|Ly|Gy];
    destruct (Qcompare_spec (z - inject_Z (Qfloor y)) (1 # 2)) as [Ez|Lz|Gz];
      try destruct (Z.even (Qfloor y)); try lia; exfalso; lra.
  - assert (Hlt : (Qfloor y + 1 <= Qfloor z)%Z) by lia.
    destruct (roundEven_cases y) as [[_ ->]|[[_ ->]|[_ [-> | ->]]]];
    destruct (roundEven_cases z) as [[_ ->]|[[_ ->]|[_ [-> | ->]]]]; lia.
Qed.

Lemma roundEven_ge y n : inject_Z n <= y -> (n <= roundEven y)%Z.
Proof. intros H. rewrite <- (roundEven_Z n). apply roundEven_mono, H. Qed.

Lemma roundEven_le y n : y <= inject_Z n -> (roundEven y <= n)%Z.
Proof. intros H. rewrite <- (roundEven_Z n). apply roundEven_mono, H. Qed.

(** *** Rounding to [prec] bits *)

Section Rounding.

Variables prec emin : Z.
Hypothesis Hprec : (1 <= prec)%Z.


Lemma roundPos_zero x : x == 0 -> roundPos prec emin x == 0.
Proof.
  intros E. unfold roundPos, expo. set (e := Z.max _ _). clearbody e.
  assert (E0 : x / pow2 e == inject_Z 0).
  { rewrite E. unfold Qdiv. change (inject_Z 0) with 0. ring. }
  rewrite (roundEven_comp _ _ E0), roundEven_Z. ring.
Qed.

Lemma roundPos_comp x y :
  x == y -> roundPos prec emin x == roundPos prec emin y.
Proof.
  intros E. destruct (Qeq_dec x 0) as [Z0|N0].
  - rewrite (roundPos_zero x Z0). symmetry. apply roundPos_zero.
    rewrite <- E. exact Z0.
  - unfold roundPos, expo. rewrite <- (binade_comp x y N0 E).
    set (e := Z.max _ _). clearbody e.
    assert (E1 : x / pow2 e == y / pow2 e) by (rewrite E; reflexivity).
    rewrite (roundEven_comp _ _ E1). reflexivity.
Qed.

Lemma scaled_lt x :
  0 < x -> x / pow2 (expo prec emin x) < inject_Z (2 ^ prec).
Proof.
  intros Hx. destruct (binade_spec x) as [_ Hu]; [lra|].
  rewrite Qabs_pos in Hu by lra.
  pose proof (pow2_pos (expo prec emin x)) as Pe.
  apply Qlt_shift_div_r; [exact Pe|].
  rewrite <- pow2_Z by lia. rewrite <- pow2_add.
  eapply Qlt_le_trans; [exact Hu|]. apply pow2_le. unfold expo. lia.
Qed.

Lemma roundPos_nonneg x : 0 <= x -> 0 <= roundPos prec emin x.
Proof.
  intros Hx. unfold roundPos.
  pose proof (pow2_pos (expo prec emin x)) as Pe.
  apply Qmult_le_0_compat; [|lra].
  change 0 with (inject_Z 0). rewrite <- Zle_Qle. apply roundEven_ge.
  change (inject_Z 0) with 0. apply Qle_shift_div_l; lra.
Qed.

Lemma roundPos_mono x y :
  0 <= x -> x <= y -> roundPos prec emin x <= roundPos prec emin y.
Proof.
  intros Hx Hxy. destruct (Qeq_dec x 0) as [Z0|N0].
  { rewrite (roundPos_zero x Z0). apply roundPos_nonneg. lra. }
  assert (Hx0 : 0 < x).
  { apply Qnot_le_lt. intros H. apply N0. lra. }
  pose proof (binade_mono x y Hx0 Hxy) as Hb.
  destruct (binade_spec x) as [Hxl Hxu]; [lra|].
  destruct (binade_spec y) as [Hyl Hyu]; [lra|].
  rewrite Qabs_pos in Hxl, Hxu, Hyl, Hyu by lra.
  unfold roundPos.
  pose proof (pow2_pos (expo prec emin x)) as Px. pose proof (pow2_pos (expo prec emin y)) as Py.
  destruct (Z.eq_dec (expo prec emin x) (expo prec emin y)) as [E|N].
  - rewrite E. apply Qmult_le_compat_r; [|lra].
    rewrite <- Zle_Qle. apply roundEven_mono.
    apply Qmult_le_compat_r; [exact Hxy|].
    apply Qlt_le_weak, Qinv_lt_0_compat, Py.
  - assert (Hlt : (expo prec emin x < expo prec emin y)%Z) by (unfold expo in *; lia).
    assert (Hey : expo prec emin y = (binade y - (prec - 1))%Z) by (unfold expo in *; lia).
    assert (Hbx : (binade x + 1 <= binade y)%Z) by (unfold expo in *; lia).
    apply Qle_trans with (pow2 (binade y)).
    + assert (Hd : (0 <= binade y - expo prec emin x)%Z) by lia.
      assert (Hs : x / pow2 (expo prec emin x) <= inject_Z (2 ^ (binade y - expo prec emin x))).
      { rewrite <- pow2_Z by exact Hd. rewrite pow2_sub.
        apply Qmult_le_compat_r;
          [|apply Qlt_le_weak, Qinv_lt_0_compat, Px].
        pose proof (pow2_le _ _ Hbx). lra. }
      apply roundEven_le in Hs. rewrite Zle_Qle in Hs.
      rewrite <- pow2_Z in Hs by exact Hd.
      assert (Eb : pow2 (binade y)
                   == pow2 (binade y - expo prec emin x)
                      * pow2 (expo prec emin x)).
      { rewrite <- pow2_add.
        replace (binade y - expo prec emin x + expo prec emin x)%Z
          with (binade y) by lia. reflexivity. }
      rewrite Eb. apply Qmult_le_compat_r; [exact Hs|lra].
    + assert (Hs : inject_Z (2 ^ (prec - 1)) <= y / pow2 (expo prec emin y)).
      { rewrite <- pow2_Z by lia. apply Qle_shift_div_l; [exact Py|].
        rewrite <- pow2_add. replace (prec - 1 + expo prec emin y)%Z with (binade y)
          by lia. exact Hyl. }
      apply roundEven_ge in Hs. rewrite Zle_Qle in Hs.
      rewrite <- pow2_Z in Hs by lia.
      assert (Eb : pow2 (binade y)
                   == pow2 (prec - 1) * pow2 (expo prec emin y)).
      { rewrite <- pow2_add.
        replace (prec - 1 + expo prec emin y)%Z with (binade y) by lia.
        reflexivity. }
      rewrite Eb. apply Qmult_le_compat_r; [exact Hs|lra].
Qed.

Lemma roundPos_exact x m e0 :
  (0 <= m < 2 ^ prec)%Z -> (emin <= e0)%Z ->
  x == inject_Z m * pow2 e0 ->
  roundPos prec emin x == x.
Proof.
  intros Hm He E. destruct (Z.eq_dec m 0%Z) as [->|Nm].
  { assert (Z0 : x == 0) by (rewrite E; ring).
    rewrite (roundPos_zero x Z0). symmetry. exact Z0. }
  pose proof (pow2_pos e0) as P0.
  assert (Hm1 : 1 <= inject_Z m).
  { change 1 with (inject_Z 1). rewrite <- Zle_Qle. lia. }
  assert (Hx0 : 0 < x) by (rewrite E; nra).
  destruct (binade_spec x) as [Hxl _]; [lra|].
  rewrite Qabs_pos in Hxl by lra.
  assert (Hxu : x < pow2 (prec + e0)).
  { rewrite E, pow2_add, (pow2_Z prec) by lia.
    apply Qmult_lt_compat_r; [exact P0|]. rewrite <- Zlt_Qlt. lia. }
  assert (Hb : (binade x < prec + e0)%Z).
  { apply pow2_lt_inv. lra. }
  unfold roundPos.
  assert (Hle : (expo prec emin x <= e0)%Z) by (unfold expo; lia).
  pose proof (pow2_pos (expo prec emin x)) as Pe.
  set (e := expo prec emin x) in *. clearbody e.
  assert (Es : x / pow2 e == inject_Z (m * 2 ^ (e0 - e))).
  { rewrite inject_Z_mult, <- (pow2_Z (e0 - e)) by lia.
    rewrite pow2_sub, E. field. lra. }
  rewrite (roundEven_comp _ _ Es), roundEven_Z.
  rewrite inject_Z_mult, <- (pow2_Z (e0 - e)) by lia.
  rewrite pow2_sub, E. field. lra.
Qed.

Lemma roundPos_repr x :
  0 <= x ->
  exists m e0, (0 <= m < 2 ^ prec)%Z /\ (emin <= e0)%Z /\
               roundPos prec emin x == inject_Z m * pow2 e0.
Proof.
  intros Hx. destruct (Qeq_dec x 0) as [Z0|N0].
  { exists 0%Z, emin. split; [split; [lia|apply Z.pow_pos_nonneg; lia]|].
    split; [lia|]. rewrite (roundPos_zero x Z0). ring. }
  assert (Hx0 : 0 < x).
  { apply Qnot_le_lt. intros H. apply N0. lra. }
  pose proof (scaled_lt x Hx0) as Hs.
  pose proof (pow2_pos (expo prec emin x)) as Pe.
  assert (Hk0 : (0 <= roundEven (x / pow2 (expo prec emin x)))%Z).
  { apply roundEven_ge. change (inject_Z 0) with 0.
    apply Qle_shift_div_l; lra. }
  assert (Hk1 : (roundEven (x / pow2 (expo prec emin x)) <= 2 ^ prec)%Z).
  { apply roundEven_le. lra. }
  unfold roundPos.
  destruct (Z.eq_dec (roundEven (x / pow2 (expo prec emin x))) (2 ^ prec)%Z)
    as [E|N].
  - exists 1%Z, (prec + expo prec emin x)%Z.
    split; [split; [lia|]|].
    { change 1%Z with (2 ^ 0)%Z. apply Z.pow_lt_mono_r; lia. }
    split; [unfold expo; lia|].
    rewrite E, pow2_add, (pow2_Z prec) by lia. ring.
  - exists (roundEven (x / pow2 (expo prec emin x))), (expo prec emin x).
    split; [lia|]. split; [unfold expo; lia|reflexivity].
Qed.

Lemma roundPos_idem x :
  0 <= x -> roundPos prec emin (roundPos prec emin x) == roundPos prec emin x.
Proof.
  intros Hx. destruct (roundPos_repr x Hx) as (m & e0 & Hm & He & E).
  exact (roundPos_exact _ m e0 Hm He E).
Qed.

Lemma roundPos_error x :
  0 < x ->
  roundPos prec emin x - pow2 (expo prec emin x) / 2 <= x /\
  x <= roundPos prec emin x + pow2 (expo prec emin x) / 2.
Proof.
  intros Hx. unfold roundPos.
  pose proof (pow2_pos (expo prec emin x)) as Pe.
  destruct (roundEven_error (x / pow2 (expo prec emin x))) as [Hl Hu].
  set (k := inject_Z (roundEven (x / pow2 (expo prec emin x)))) in *.
  set (P := pow2 (expo prec emin x)) in *.
  assert (E : x == x / P * P) by (field; lra).
  set (q := x / P) in *. clearbody q. clearbody k. clearbody P.
  assert (Ea : k * P - P / 2 == (k - (1 # 2)) * P) by field.
  assert (Eb : k * P + P / 2 == (k + (1 # 2)) * P) by field.
  rewrite Ea, Eb, E. split; apply Qmult_le_compat_r; lra.
Qed.

(** **** Both signs *)

Lemma roundTo_spec x :
  roundTo prec emin x
  == if Qlt_le_dec x 0 then - roundPos prec emin (- x)
     else roundPos prec emin x.
Proof. apply Qred_correct. Qed.

Lemma roundTo_pos x : 0 <= x -> roundTo prec emin x == roundPos prec emin x.
Proof.
  intros H. rewrite roundTo_spec. destruct (Qlt_le_dec x 0); [lra|reflexivity].
Qed.

Lemma roundTo_neg x : x <= 0 -> roundTo prec emin x == - roundPos prec emin (- x).
Proof.
  intros H. rewrite roundTo_spec. destruct (Qlt_le_dec x 0); [reflexivity|].
  assert (Z0 : x == 0) by lra.
  rewrite (roundPos_zero x Z0), (roundPos_zero (- x)); [reflexivity|lra].
Qed.

Lemma roundTo_comp x y : x == y -> roundTo prec emin x = roundTo prec emin y.
Proof.
  intros E. unfold roundTo. apply Qred_complete.
  destruct (Qlt_le_dec x 0), (Qlt_le_dec y 0); try lra.
  - apply Qopp_comp, roundPos_comp. rewrite E. reflexivity.
  - apply roundPos_comp, E.
Qed.

Lemma roundTo_opp x : roundTo prec emin (- x) == - roundTo prec emin x.
Proof.
  destruct (Qlt_le_dec x 0) as [H|H].
  - rewrite (roundTo_pos (- x)) by lra. rewrite (roundTo_neg x) by lra. ring.
  - rewrite (roundTo_neg (- x)) by lra. rewrite (roundTo_pos x) by lra.
    assert (E : - - x == x) by ring.
    rewrite (roundPos_comp _ _ E). reflexivity.
Qed.

Lemma roundTo_nonneg x : 0 <= x -> 0 <= roundTo prec emin x.
Proof. intros H. rewrite roundTo_pos by exact H. apply roundPos_nonneg, H. Qed.

Lemma roundTo_mono x y : x <= y -> roundTo prec emin x <= roundTo prec emin y.
Proof.
  intros H. destruct (Qlt_le_dec x 0) as [Hx|Hx], (Qlt_le_dec y 0) as [Hy|Hy].
  - rewrite (roundTo_neg x), (roundTo_neg y) by lra.
    apply Qopp_le_compat. apply roundPos_mono; lra.
  - rewrite (roundTo_neg x) by lra.
    pose proof (roundPos_nonneg (- x)). pose proof (roundTo_nonneg y Hy). lra.
  - lra.
  - rewrite (roundTo_pos x), (roundTo_pos y) by lra. apply roundPos_mono; lra.
Qed.

Lemma roundTo_exact x m e0 :
  (Z.abs m < 2 ^ prec)%Z -> (emin <= e0)%Z ->
  x == inject_Z m * pow2 e0 ->
  roundTo prec emin x == x.
Proof.
  intros Hm He E. pose proof (pow2_pos e0) as P0.
  destruct (Z_lt_le_dec m 0%Z) as [Hn|Hp].
  - assert (Hx : x <= 0).
    { rewrite E. assert (inject_Z m <= 0).
      { change 0 with (inject_Z 0). rewrite <- Zle_Qle. lia. }
      nra. }
    rewrite roundTo_neg by exact Hx.
    rewrite (roundPos_exact (- x) (- m) e0); [ring|lia|exact He|].
    rewrite E, inject_Z_opp. ring.
  - assert (Hx : 0 <= x).
    { rewrite E. assert (0 <= inject_Z m).
      { change 0 with (inject_Z 0). rewrite <- Zle_Qle. lia. }
      nra. }
    rewrite roundTo_pos by exact Hx.
    apply (roundPos_exact x m e0); [lia|exact He|exact E].
Qed.

Lemma roundTo_idem x :
  roundTo prec emin (roundTo prec emin x) = roundTo prec emin x.
Proof.
  assert (E : roundTo prec emin (roundTo prec emin x) == roundTo prec emin x).
  { destruct (Qlt_le_dec x 0) as [Hx|Hx].
    - assert (Hp : 0 <= roundPos prec emin (- x))
        by (apply roundPos_nonneg; lra).
      rewrite (roundTo_comp _ _ (roundTo_neg x (Qlt_le_weak _ _ Hx))).
      rewrite roundTo_opp, (roundTo_pos _ Hp).
      rewrite roundPos_idem by lra.
      symmetry. apply roundTo_neg. lra.
    - assert (Hp : 0 <= roundPos prec emin x)
        by (apply roundPos_nonneg; lra).
      rewrite (roundTo_comp _ _ (roundTo_pos x Hx)).
      rewrite (roundTo_pos _ Hp), roundPos_idem by exact Hx.
      symmetry. apply roundTo_pos, Hx. }
  unfold roundTo at 1. unfold roundTo at 2. apply Qred_complete.
  rewrite <- !roundTo_spec. exact E.
Qed.

Lemma roundTo_Z (n : Z) :
  (Z.abs n < 2 ^ prec)%Z -> (emin <= 0)%Z ->
  roundTo prec emin (inject_Z n) == inject_Z n.
Proof.
  intros Hn He. apply (roundTo_exact _ n 0); [exact Hn|exact He|].
  change (pow2 0) with 1. ring.
Qed.

(** A number that lies below [2^prec] steps of a grid of step [2^e] is
    rounded by less than one step. *)
Lemma roundTo_grid x e :
  (emin <= e)%Z -> 0 <= x -> x < inject_Z (2 ^ prec) * pow2 e ->
  x - pow2 e < roundTo prec emin x /\ roundTo prec emin x <= x + pow2 e.
Proof.
  intros He Hx Hu. pose proof (pow2_pos e) as Pe.
  set (m := Qfloor (x / pow2 e)).
  destruct (floor_bounds (x / pow2 e)) as [Hfl Hfu]. fold m in Hfl, Hfu.
  assert (Ex : x == x / pow2 e * pow2 e) by (field; lra).
  assert (Hm0 : (0 <= m)%Z).
  { unfold m. change 0%Z with (Qfloor 0). apply Qfloor_resp_le.
    apply Qle_shift_div_l; lra. }
  assert (Hm1 : (m < 2 ^ prec)%Z).
  { rewrite Zlt_Qlt. eapply Qle_lt_trans; [exact Hfl|].
    apply Qlt_shift_div_r; lra. }
  assert (Hg : inject_Z m * pow2 e <= x).
  { rewrite Ex at 1. apply Qmult_le_compat_r; lra. }
  assert (Hg' : x <= inject_Z (m + 1) * pow2 e).
  { rewrite Ex at 1. rewrite inject_Z_plus. change (inject_Z 1) with 1.
    apply Qmult_le_compat_r; lra. }
  assert (E1 : roundTo prec emin (inject_Z m * pow2 e) == inject_Z m * pow2 e).
  { apply (roundTo_exact _ m e); [lia|exact He|reflexivity]. }
  assert (E2 : roundTo prec emin (inject_Z (m + 1) * pow2 e)
               == inject_Z (m + 1) * pow2 e).
  { destruct (Z.eq_dec (m + 1)%Z (2 ^ prec)%Z) as [E|N].
    - apply (roundTo_exact _ 1 (prec + e)); [|lia|].
      + change (Z.abs 1) with (2 ^ 0)%Z. apply Z.pow_lt_mono_r; lia.
      + rewrite E, pow2_add, (pow2_Z prec) by lia. ring.
    - apply (roundTo_exact _ (m + 1) e); [lia|exact He|reflexivity]. }
  pose proof (roundTo_mono _ _ Hg) as M1. pose proof (roundTo_mono _ _ Hg') as M2.
  rewrite E1 in M1. rewrite E2 in M2.
  rewrite inject_Z_plus in M2, Hg'. change (inject_Z 1) with 1 in M2, Hg'.
  assert (Hxm : x - pow2 e < inject_Z m * pow2 e).
  { rewrite Ex at 1. nra. }
  split; nra.
Qed.

End Rounding.

(** *** Binary64 and binary32 *)

Lemma double_mono x y : x <= y -> double x <= double y.
Proof. intros H. apply roundTo_mono; try assumption; lia. Qed.

Lemma double_idem x : double (double x) = double x.
Proof. apply roundTo_idem; lia. Qed.

Lemma double_comp x y : x == y -> double x = double y.
Proof. apply roundTo_comp. Qed.

Lemma double_nonneg x : 0 <= x -> 0 <= double x.
Proof. intros H. apply roundTo_nonneg; try assumption; lia. Qed.

Lemma double_exact x m e :
  (Z.abs m < 2 ^ 53)%Z -> (-1074 <= e)%Z ->
  x == inject_Z m * pow2 e -> double x == x.
Proof. intros Hm He E. eapply roundTo_exact; try eassumption; lia. Qed.

Lemma double_Z n : (Z.abs n < 2 ^ 53)%Z -> double (inject_Z n) == inject_Z n.
Proof. intros H. apply roundTo_Z; try assumption; lia. Qed.

Lemma double_grid x e :
  (-1074 <= e)%Z -> 0 <= x -> x < inject_Z (2 ^ 53) * pow2 e ->
  x - pow2 e < double x /\ double x <= x + pow2 e.
Proof. intros He Hx Hu. apply roundTo_grid; try assumption; lia. Qed.

(** A number that is a binary64 number already is left as it is. *)
Lemma double_fixed x : double x == x -> double x = Qred x.
Proof.
  intros E. unfold double, roundTo. apply Qred_complete.
  rewrite <- roundTo_spec. exact E.
Qed.

Lemma single_mono x y : x <= y -> single x <= single y.
Proof. intros H. apply roundTo_mono; try assumption; lia. Qed.

Lemma single_exact x m e :
  (Z.abs m < 2 ^ 24)%Z -> (-149 <= e)%Z ->
  x == inject_Z m * pow2 e -> single x == x.
Proof. intros Hm He E. eapply roundTo_exact; try eassumption; lia. Qed.

Lemma single_grid x e :
  (-149 <= e)%Z -> 0 <= x -> x < inject_Z (2 ^ 24) * pow2 e ->
  x - pow2 e < single x /\ single x <= x + pow2 e.
Proof. intros He Hx Hu. apply roundTo_grid; try assumption; lia. Qed.

Lemma Qabs_bound x b : - b <= x -> x <= b -> Qabs x <= b.
Proof. intros Hl Hu. apply Qabs_Qle_condition. split; assumption. Qed.

(** Below [2^1023] in magnitude nothing overflows. *)
Lemma ofQ_Num x : Qabs x <= pow2 1023 -> ofQ x = Num (double x).
Proof.
  intros H. apply Qabs_Qle_condition in H. destruct H as [Hl Hu].
  assert (E : double (pow2 1023) == pow2 1023).
  { apply (double_exact _ 1 1023); [reflexivity|lia|ring]. }
  assert (E' : double (- pow2 1023) == - pow2 1023).
  { apply (double_exact _ (-1) 1023); [reflexivity|lia|].
    change (inject_Z (-1)) with (-(1)). ring. }
  pose proof (double_mono _ _ Hu) as Mu. pose proof (double_mono _ _ Hl) as Ml.
  rewrite E in Mu. rewrite E' in Ml.
  unfold ofQ.
  destruct (Qle_bool (pow2 1024) (Qabs (double x))) eqn:T; [|reflexivity].
  exfalso. apply Qle_bool_iff in T.
  assert (Hb : Qabs (double x) <= pow2 1023) by (apply Qabs_bound; assumption).
  assert (Hp : pow2 1023 < pow2 1024) by (apply pow2_lt; lia).
  lra.
Qed.

(** *** Arithmetic on [number] *)

Lemma ofQ_range x : 0 <= x -> x <= pow2 1023 -> ofQ x = Num (double x).
Proof.
  intros H0 Hu. apply ofQ_Num. apply Qabs_bound; [|exact Hu].
  pose proof (pow2_pos 1023). lra.
Qed.

Lemma pow2_1023 e : (e <= 1023)%Z -> pow2 e <= pow2 1023.
Proof. apply pow2_le. Qed.

Lemma lt_Num x y : Number.lt (Num x) (Num y) = negb (Qle_bool y x).
Proof. reflexivity. Qed.

Lemma lt_Num_false x y : y <= x -> Number.lt (Num x) (Num y) = false.
Proof.
  intros H. rewrite lt_Num. apply negb_false_iff, Qle_bool_iff. exact H.
Qed.

Lemma lt_Num_Z m n :
  Number.lt (Num (inject_Z m)) (Num (inject_Z n)) = (m <? n)%Z.
Proof.
  rewrite lt_Num. destruct (Z.ltb_spec m n) as [H|H].
  - apply negb_true_iff, Qle_bool_false. rewrite <- Zlt_Qlt. exact H.
  - apply negb_false_iff, Qle_bool_iff. rewrite <- Zle_Qle. exact H.
Qed.

Lemma sub_Num x y : Number.sub (Num x) (Num y) = ofQ (x + - y).
Proof. reflexivity. Qed.

Lemma mul_Num x y : Number.mul (Num x) (Num y) = ofQ (x * y).
Proof. reflexivity. Qed.

Lemma div_Num x y : 0 < y -> Number.div (Num x) (Num y) = ofQ (x / y).
Proof.
  intros H. unfold Number.div.
  destruct (Qeq_bool y 0) eqn:E; [|reflexivity].
  apply Qeq_bool_iff in E. lra.
Qed.

Lemma rem_Num x y :
  0 < y -> Number.rem (Num x) (Num y) = Num (Qred (rem x y)).
Proof.
  intros H. unfold Number.rem.
  destruct (Qeq_bool y 0) eqn:E; [|reflexivity].
  apply Qeq_bool_iff in E. lra.
Qed.

Lemma Qred_inject_Z n : Qred (inject_Z n) = inject_Z n.
Proof.
  unfold inject_Z, Qred.
  pose proof (Z.ggcd_gcd n 1) as Hg.
  pose proof (Z.ggcd_correct_divisors n 1) as Hd.
  destruct (Z.ggcd n 1) as [g [aa bb]]. cbn [fst snd] in *.
  rewrite Z.gcd_1_r in Hg. subst g. destruct Hd as [Ha Hb].
  rewrite Z.mul_1_l in Ha, Hb. subst aa bb. reflexivity.
Qed.

Lemma double_inject_Z n :
  (Z.abs n < 2 ^ 53)%Z -> double (inject_Z n) = inject_Z n.
Proof.
  intros H. rewrite (double_fixed _ (double_Z n H)). apply Qred_inject_Z.
Qed.

Lemma rem_floor (a b : Q) :
  0 <= a -> 0 < b -> rem a b = a - b * inject_Z (Qfloor (a / b)).
Proof.
  intros Ha Hb. unfold rem, trunc.
  destruct (Qlt_le_dec (a / b) 0) as [Hneg|_]; [|reflexivity].
  exfalso. assert (0 <= a / b) by (apply Qle_shift_div_l; lra). lra.
Qed.

Lemma rem_bounds (a b : Q) : 0 <= a -> 0 < b -> 0 <= rem a b /\ rem a b < b.
Proof.
  intros Ha Hb. rewrite (rem_floor a b Ha Hb).
  destruct (floor_bounds (a / b)) as [Hlo Hhi].
  assert (E : a / b * b == a) by (field; lra).
  assert (H1 : inject_Z (Qfloor (a / b)) * b <= a).
  { rewrite <- E at 2. apply Qmult_le_compat_r; lra. }
  assert (H2 : a < (inject_Z (Qfloor (a / b)) + 1) * b).
  { rewrite <- E at 1. apply Qmult_lt_compat_r; lra. }
  split; lra.
Qed.

Lemma ascending_last prev clock :
  ascending prev clock = true -> prev <= List.last clock prev.
Proof.
  revert prev. induction clock as [|now clock IH]; intros prev H; [cbn; lra|].
  cbn [ascending] in H. apply andb_prop in H. destruct H as [Hle Hrest].
  apply Qle_bool_iff in Hle. rewrite last_cons.
  specialize (IH now Hrest). lra.
Qed.

(** ** The automation timeline *)

Section Timeline.

Implicit Types (e : AutomationEvent) (l : list AutomationEvent).

(** An event that is not earlier than any scheduled one goes last. *)
Lemma insertEvent_last e l :
  Forall (fun x => eventTime x <= eventTime e) l ->
  insertEvent e l = l ++ [e].
Proof.
  induction 1 as [|x l Hx _ IH]; simpl; [reflexivity|].
  apply Qle_bool_iff in Hx. rewrite Hx, IH. reflexivity.
Qed.

Lemma before_lt t e : before t e = true <-> eventTime e < t.
Proof.
  unfold before. rewrite negb_true_iff. apply Qle_bool_false.
Qed.

Lemma filter_before_Forall t l :
  Forall (fun x => eventTime x < t) (List.filter (before t) l).
Proof.
  apply List.Forall_forall. intros x Hx.
  apply List.filter_In in Hx. apply before_lt, Hx.
Qed.


End Timeline.

(** ** The audio service *)

Section AudioServiceFacts.

Import AudioService.

Lemma reading_nonneg t : 0 <= t -> 0 <= reading t.
Proof. apply double_nonneg. Qed.

(** The ramp of a mute does not end before the mute. *)
Lemma rampEnd_reading t : 0 <= t -> reading t <= rampEnd (reading t).
Proof.
  intros Ht. unfold rampEnd, reading.
  assert (H0 : 0 <= double 0.01) by (apply double_nonneg; lra).
  rewrite <- (double_idem t) at 1. apply double_mono. lra.
Qed.

Lemma rampToSilence_returns t g :
  0 <= t -> t <= rampEnd t ->
  rampToSilence t g =
  Returns (mkGain (mkParam (value (gain g))
    (List.filter (before t) (timeline (gain g))
       ++ [SetValue (value (gain g)) t; LinearRamp 0 (rampEnd t)]))).
Proof.
  intros Ht Hr. unfold rampToSilence, overGain, cancelScheduledValues.
  destruct (Qlt_le_dec t 0) as [Hn|_]; [lra|]. cbn.
  unfold setValueAtTime, schedule. cbn.
  destruct (Qlt_le_dec t 0) as [Hn|_]; [lra|]. cbn.
  unfold linearRampToValueAtTime, schedule. cbn [eventTime].
  destruct (Qlt_le_dec (rampEnd t) 0) as [Hn|_]; [lra|]. cbn.
  do 3 f_equal.
  assert (Hpast : Forall (fun x => eventTime x <= t)
                    (List.filter (before t) (timeline (gain g)))).
  { eapply List.Forall_impl; [|apply filter_before_Forall]. cbn. intros; lra. }
  rewrite (insertEvent_last (SetValue _ t)) by exact Hpast.
  rewrite insertEvent_last, <- app_assoc; [reflexivity|].
  apply List.Forall_app. split.
  - eapply List.Forall_impl; [|exact Hpast]. cbn. intros; lra.
  - repeat constructor. cbn. lra.
Qed.







(** C7.  While the buffer a call needs is still unset, [playSound] and
    [playMetronomeClick] return without an exception and leave the
    whole session as it was: no source is created and the metronome's
    beat counter is untouched. *)
Theorem play_before_samples_loaded
  (config : AudioConfig) (Math_pow : Q -> Q -> Q) (w : Session.Session)
  (string : string) (fret : Z) (time : Q)
  (muted isDownbeat isFirstOfBeat enabled : bool) :
  (buffers_bass (Session.audio w) = None ->
   Session.callAudio (playSound config Math_pow string fret time muted) w
   = Returns w) /\
  (buffers_metronome_click (Session.audio w) = None ->
   Session.callAudio
     (playMetronomeClick time isDownbeat isFirstOfBeat enabled) w
   = Returns w).
Proof.
  destruct w as [s m]. cbn. split; intros H.
  - unfold Session.callAudio, playSound. cbn. rewrite H.
    destruct (context s), muted; reflexivity.
  - unfold Session.callAudio, playMetronomeClick. cbn. rewrite H.
    destruct (context s), enabled; reflexivity.
Qed.

Lemma play_before_samples_loaded_witness :
  let w := Session.mkSession Scenario.unloaded (Metronome.mount 100) in
  Session.callAudio
    (playSound Scenario.config Scenario.wholePow "E" 12 0 false) w
  = Returns w /\
  Session.callAudio (playMetronomeClick 0 true true true) w = Returns w.
Proof.
  intros w.
  destruct (play_before_samples_loaded Scenario.config Scenario.wholePow w
              "E" 12 0 false true true true) as [Hnote Hclick].
  split; [apply Hnote | apply Hclick]; reflexivity.
Defined.

(** C8 does not hold as worded: a level above 1 is stored as it is,
    where clamping would store 1. *)
Lemma setBassVolume_does_not_clamp :
  exists s,
    setBassVolume (ofQ 1.5) Scenario.unloaded = Returns s /\
    (value <$> bassGain s) = Some (3 # 2) /\
    ~ 3 # 2 == Math_min 1 (Math_max 0 1.5).
Proof.
  eexists. split; [vm_compute; reflexivity|].
  split; [reflexivity|]. vm_compute. discriminate.
Qed.

Lemma filter_insertEvent (f : AutomationEvent -> bool) e l :
  f e = false -> List.filter f (insertEvent e l) = List.filter f l.
Proof.
  intros He. induction l as [|x l IH]; cbn; [rewrite He; reflexivity|].
  destruct (Qle_bool (eventTime x) (eventTime e)); cbn.
  - rewrite IH. reflexivity.
  - rewrite He. reflexivity.
Qed.

Lemma setValue_returns t level v p :
  0 <= t -> toFloat level = Some v ->
  setValue t level p
  = Returns (mkParam v (insertEvent (SetValue v t) (timeline p))).
Proof.
  intros Ht Hv. unfold setValue, setValueAtTime, schedule. rewrite Hv.
  cbn [eventTime]. destruct (Qlt_le_dec t 0) as [Hn|_]; [lra|]. reflexivity.
Qed.

(** A level between 0 and 1 is in the range of single precision and
    is stored within [2^-24] of itself, between 0 and 1. *)
Lemma toFloat_unit q :
  0 <= q -> q <= 1 ->
  exists v, toFloat (Num q) = Some v /\
            (0 <= v /\ v <= 1) /\
            (q - pow2 (-24) <= v /\ v <= q + pow2 (-24)).
Proof.
  intros H0 H1. exists (single q).
  assert (E0 : single 0 == 0).
  { apply (single_exact _ 0 0); [reflexivity|lia|reflexivity]. }
  assert (E1 : single 1 == 1).
  { apply (single_exact _ 1 0); [reflexivity|lia|reflexivity]. }
  pose proof (single_mono _ _ H0) as M0. pose proof (single_mono _ _ H1) as M1.
  rewrite E0 in M0. rewrite E1 in M1.
  split.
  { unfold toFloat.
    destruct (Qle_bool (pow2 128) (Qabs (single q))) eqn:T; [|reflexivity].
    exfalso. apply Qle_bool_iff in T. rewrite Qabs_pos in T by exact M0.
    assert (Hp : pow2 0 < pow2 128) by (apply pow2_lt; lia).
    change (pow2 0) with 1 in Hp. lra. }
  split; [split; assumption|].
  pose proof (pow2_pos (-24)) as Pp.
  destruct (Qlt_le_dec q 1) as [Hlt|Hge].
  - destruct (single_grid q (-24)) as [Hl Hu]; [lia|exact H0| |lra].
    change (inject_Z (2 ^ 24) * pow2 (-24)) with (16777216 * (1 # 16777216)).
    lra.
  - assert (Eq1 : q == 1) by lra.
    assert (Es : single q = single 1) by (apply roundTo_comp; exact Eq1).
    rewrite Es, E1. lra.
Qed.

(** C8, amended.  On an initialised service [setBassVolume] and
    [setMetronomeVolume] throw when the level is not a number within
    the range of single precision.  Otherwise they store the level,
    converted to single precision and not clamped, as the [value] of
    their own master gain, pin it on that gain's timeline at the clock
    reading, add no ramp and leave the other gain alone.  A level
    within [0, 1] is always stored, within [2^-24] of itself and
    within [0, 1]; a bass level of 0.3 reads back as the nearest
    single-precision number, 0.300000011920928955078125. *)
Theorem setVolume_stores_level (level : number) (s : AudioService)
    ctx gb gm :
  context s = Some ctx ->
  0 <= currentTime ctx ->
  masterGains_bass s = Some gb ->
  masterGains_metronome s = Some gm ->
  let t := reading (currentTime ctx) in
  (toFloat level = None ->
   setBassVolume level s = Throws /\ setMetronomeVolume level s = Throws) /\
  (forall v, toFloat level = Some v ->
     exists sb sm pb pm,
       setBassVolume level s = Returns sb /\
       setMetronomeVolume level s = Returns sm /\
       (bassGain sb = Some pb /\ metronomeGain sb = metronomeGain s) /\
       (metronomeGain sm = Some pm /\ bassGain sm = bassGain s) /\
       pb = mkParam v (insertEvent (SetValue v t) (timeline (gain gb))) /\
       pm = mkParam v (insertEvent (SetValue v t) (timeline (gain gm))) /\
       List.filter isRamp (timeline pb)
         = List.filter isRamp (timeline (gain gb)) /\
       List.filter isRamp (timeline pm)
         = List.filter isRamp (timeline (gain gm))) /\
  (forall q, level = Num q -> 0 <= q -> q <= 1 ->
     exists v, toFloat level = Some v /\
               (0 <= v /\ v <= 1) /\
               (q - pow2 (-24) <= v /\ v <= q + pow2 (-24))) /\
  (toFloat (ofQ 0.3) = Some (5033165 # 16777216) /\
   ~ 5033165 # 16777216 == 0.3).
Proof.
  intros Hctx Ht Hb Hm t.
  pose proof (reading_nonneg _ Ht) as H0. fold t in H0.
  assert (Hclock : reading (get_currentTime s) = t).
  { unfold get_currentTime. rewrite Hctx. reflexivity. }
  split.
  { intros Hnone. unfold setBassVolume, setMetronomeVolume, overGain, setValue.
    rewrite Hb, Hm, Hnone. split; reflexivity. }
  split.
  { intros v Hv.
    unfold setBassVolume, setMetronomeVolume, overGain.
    rewrite Hb, Hm, Hclock, !(setValue_returns t level v) by assumption.
    do 4 eexists. split; [reflexivity|]. split; [reflexivity|].
    unfold bassGain, metronomeGain. cbn. rewrite Hb, Hm. cbn.
    repeat split; try reflexivity; apply filter_insertEvent; reflexivity. }
  split.
  { intros q -> Hq0 Hq1. apply toFloat_unit; assumption. }
  split; [vm_compute; reflexivity|]. vm_compute. discriminate.
Qed.

Lemma setVolume_stores_level_witness :
  exists sb sm,
    setBassVolume (ofQ 0.3) Scenario.unloaded = Returns sb /\
    setMetronomeVolume (ofQ 0.3) Scenario.unloaded = Returns sm /\
    (value <$> bassGain sb) = Some (5033165 # 16777216) /\
    (value <$> metronomeGain sm) = Some (5033165 # 16777216).
Proof.
  destruct (setVolume_stores_level (ofQ 0.3) Scenario.unloaded
              (mkContext 0 []) (createGain 0 0.7) (createGain 0 0.5)
              eq_refl ltac:(cbn; lra) eq_refl eq_refl)
    as (_ & Hstored & _).
  destruct (Hstored (5033165 # 16777216) ltac:(vm_compute; reflexivity))
    as (sb & sm & pb & pm & Hb & Hm & [Hpb _] & [Hpm _] & -> & -> & _).
  exists sb, sm. rewrite Hpb, Hpm. repeat split; assumption.
Defined.



End AudioServiceFacts.

(** ** The metronome *)

Section MetronomeFacts.

Import Metronome.

Implicit Types (r : Render) (h : Hook).

(** *** What a turn of the loop leaves alone *)

Lemma emitBeat_nextBeatTime r h :
  nextBeatTimeRef (emitBeat r h) = double (nextBeatTimeRef h + secondsPerBeat r).
Proof.
  unfold emitBeat. destruct (r_isPreRoll r); [|reflexivity].
  destruct (_ >=? _)%Z; reflexivity.
Qed.

Lemma emitBeat_timers r h :
  timers (emitBeat r h) = timers h /\
  timerIdRef (emitBeat r h) = timerIdRef h /\
  nextTimerId (emitBeat r h) = nextTimerId h.
Proof.
  unfold emitBeat. destruct (r_isPreRoll r); [|auto].
  destruct (_ >=? _)%Z; auto.
Qed.

Lemma setTimeout_heard r h : heard (setTimeout r h) = heard h.
Proof. reflexivity. Qed.

Lemma setTimeout_nextBeatTime r h :
  nextBeatTimeRef (setTimeout r h) = nextBeatTimeRef h.
Proof. reflexivity. Qed.

Lemma setTimeout_beatCount r h : beatCountRef (setTimeout r h) = beatCountRef h.
Proof. reflexivity. Qed.

Lemma setTimeout_isPreRoll r h : isPreRoll (setTimeout r h) = isPreRoll h.
Proof. reflexivity. Qed.

Lemma setTimeout_isPlaying r h : isPlaying (setTimeout r h) = isPlaying h.
Proof. reflexivity. Qed.

Lemma setTimeout_timers r h :
  timerIdRef (setTimeout r h) = Some (nextTimerId h) /\
  timers (setTimeout r h) = <[ nextTimerId h := r ]> (timers h) /\
  nextTimerId (setTimeout r h) = Pos.succ (nextTimerId h).
Proof. auto. Qed.

(** *** The length of a beat *)

Lemma secondsPerBeat_bounds r :
  pow2 (-20) <= r_tempo r -> r_tempo r <= pow2 20 ->
  pow2 (-15) <= secondsPerBeat r /\ secondsPerBeat r <= pow2 26.
Proof.
  intros Hl Hu. unfold secondsPerBeat.
  pose proof (double_mono _ _ Hl) as Hl'.
  pose proof (double_mono _ _ Hu) as Hu'.
  set (t := double (r_tempo r)) in *.
  assert (E1 : double (pow2 (-20)) == 1 # 1048576) by (vm_compute; reflexivity).
  assert (E2 : double (pow2 20) == 1048576) by (vm_compute; reflexivity).
  assert (E3 : double (pow2 (-15)) == pow2 (-15)) by (vm_compute; reflexivity).
  assert (E4 : double (pow2 26) == pow2 26) by (vm_compute; reflexivity).
  assert (E5 : pow2 (-15) == 1 # 32768) by (vm_compute; reflexivity).
  assert (E6 : pow2 26 == 67108864) by (vm_compute; reflexivity).
  rewrite E1 in Hl'. rewrite E2 in Hu'.
  assert (Hlo : pow2 (-15) <= 60 / t).
  { apply Qle_shift_div_l; [lra|]. rewrite E5. lra. }
  assert (Hhi : 60 / t <= pow2 26).
  { apply Qle_shift_div_r; [lra|]. rewrite E6. lra. }
  split.
  - apply Qle_trans with (double (pow2 (-15))); [rewrite E3; lra|].
    apply double_mono. exact Hlo.
  - apply Qle_trans with (double (pow2 26)); [|rewrite E4; lra].
    apply double_mono. exact Hhi.
Qed.

Lemma secondsPerBeat_fixed r : double (secondsPerBeat r) = secondsPerBeat r.
Proof. apply double_idem. Qed.

Lemma lookAhead_bound now : now <= pow2 35 -> lookAhead now <= pow2 36.
Proof.
  intros H. unfold lookAhead.
  pose proof (double_mono _ _ H) as H'.
  assert (E1 : double (pow2 35) == pow2 35) by (vm_compute; reflexivity).
  assert (E2 : double (pow2 36) == pow2 36) by (vm_compute; reflexivity).
  assert (E3 : double 0.1 <= 1) by (vm_compute; discriminate).
  assert (E4 : pow2 35 + 1 <= pow2 36) by (vm_compute; discriminate).
  rewrite E1 in H'.
  apply Qle_trans with (double (pow2 36)); [|rewrite E2; lra].
  apply double_mono. lra.
Qed.

(** *** The loop ends *)

(** Rounding takes less than half a beat from a step. *)
Lemma emitBeat_advances r h :
  pow2 (-15) <= secondsPerBeat r -> secondsPerBeat r <= pow2 26 ->
  0 <= nextBeatTimeRef h -> nextBeatTimeRef h <= pow2 36 ->
  2 * nextBeatTimeRef h + secondsPerBeat r
    <= 2 * nextBeatTimeRef (emitBeat r h).
Proof.
  intros Hlo Hhi H0 Hu. rewrite emitBeat_nextBeatTime.
  set (x := nextBeatTimeRef h + secondsPerBeat r).
  assert (E1 : pow2 (-15) == 1 # 32768) by (vm_compute; reflexivity).
  assert (E2 : pow2 (-16) == 1 # 65536) by (vm_compute; reflexivity).
  assert (E3 : pow2 36 + pow2 26 < inject_Z (2 ^ 53) * pow2 (-16))
    by (vm_compute; reflexivity).
  assert (Hx : 0 <= x) by (unfold x; lra).
  destruct (double_grid x (-16)) as [Hg _]; [lia|exact Hx|unfold x; lra|].
  unfold x in *. lra.
Qed.

Lemma scheduleLoop_run r now fuel h :
  pow2 (-15) <= secondsPerBeat r -> secondsPerBeat r <= pow2 26 ->
  lookAhead now <= pow2 36 ->
  0 <= nextBeatTimeRef h ->
  2 * (lookAhead now - nextBeatTimeRef h)
    <= inject_Z (Z.of_nat fuel) * secondsPerBeat r ->
  exists m,
    scheduleLoop fuel r now h = Nat.iter m (emitBeat r) h /\
    lookAhead now <= nextBeatTimeRef (Nat.iter m (emitBeat r) h) /\
    forall j, (j < m)%nat ->
      nextBeatTimeRef (Nat.iter j (emitBeat r) h) < lookAhead now.
Proof.
  intros Hlo Hhi Hw. revert h.
  assert (Hs : 0 < secondsPerBeat r).
  { pose proof (pow2_pos (-15)). lra. }
  induction fuel as [|fuel IH]; intros h H0 Hf.
  - exists O. change (inject_Z (Z.of_nat 0)) with 0 in Hf.
    cbn [scheduleLoop Nat.iter nat_rect]. split; [reflexivity|].
    split; [lra|]. intros j Hj. lia.
  - cbn [scheduleLoop].
    destruct (Qlt_le_dec (nextBeatTimeRef h) (lookAhead now)) as [Hin|Hout].
    + assert (Hu : nextBeatTimeRef h <= pow2 36) by lra.
      pose proof (emitBeat_advances r h Hlo Hhi H0 Hu) as Hadv.
      rewrite Nat2Z.inj_succ in Hf. unfold Z.succ in Hf.
      rewrite inject_Z_plus in Hf. change (inject_Z 1) with 1 in Hf.
      destruct (IH (emitBeat r h)) as (m & Em & Hm & Hj); [lra|lra|].
      exists (S m). rewrite Nat.iter_succ_r.
      split; [exact Em|]. split; [exact Hm|].
      intros [|j] Hlt; [exact Hin|].
      rewrite Nat.iter_succ_r. apply Hj. lia.
    + exists O. cbn [Nat.iter nat_rect]. split; [reflexivity|].
      split; [exact Hout|]. intros j Hj. lia.
Qed.

(** Within the bounds [beatsDue] is fuel enough: the loop makes some
    number [m] of turns, each entered with the next beat inside the
    window, and leaves with the next beat outside. *)
Lemma scheduleLoop_exit r now h :
  pow2 (-20) <= r_tempo r -> r_tempo r <= pow2 20 -> now <= pow2 35 ->
  0 <= nextBeatTimeRef h ->
  exists m,
    scheduleLoop (beatsDue r now h) r now h = Nat.iter m (emitBeat r) h /\
    lookAhead now <= nextBeatTimeRef (Nat.iter m (emitBeat r) h) /\
    forall j, (j < m)%nat ->
      nextBeatTimeRef (Nat.iter j (emitBeat r) h) < lookAhead now.
Proof.
  intros Hl Hu Hnow H0.
  destruct (secondsPerBeat_bounds r Hl Hu) as [Hlo Hhi].
  assert (Hs : 0 < secondsPerBeat r).
  { pose proof (pow2_pos (-15)). lra. }
  apply scheduleLoop_run;
    [exact Hlo|exact Hhi|apply lookAhead_bound; exact Hnow|exact H0|].
  unfold beatsDue.
  set (q := 2 * (lookAhead now - nextBeatTimeRef h) / secondsPerBeat r).
  assert (Eq : q * secondsPerBeat r == 2 * (lookAhead now - nextBeatTimeRef h)).
  { unfold q. field. lra. }
  rewrite <- Eq. apply Qmult_le_compat_r; [|lra].
  apply Qle_trans with (inject_Z (Qceiling q)); [apply Qle_ceiling|].
  rewrite <- Zle_Qle. lia.
Qed.

Lemma scheduleLoop_idle fuel r now h :
  lookAhead now <= nextBeatTimeRef h -> scheduleLoop fuel r now h = h.
Proof.
  intros H. destruct fuel as [|fuel]; cbn [scheduleLoop]; [reflexivity|].
  destruct (Qlt_le_dec _ _) as [Hlt|_]; [lra|reflexivity].
Qed.

(** *** Normal mode *)

Lemma emitBeat_normal r h :
  r_isPreRoll r = false ->
  emitBeat r h =
  mkHook (tempo h) (timeSignature h) (isPlaying h) (isPreRoll h)
    (remZ (beatCountRef h) (r_timeSignature r) + 1)%Z (preRollBeat h)
    (double (nextBeatTimeRef h + secondsPerBeat r)) (timerIdRef h)
    (beatCountRef h + 1)%Z (preRollCountRef h)
    (timers h) (nextTimerId h)
    (heard h
       ++ [PlayHiHat (remZ (beatCountRef h) (r_timeSignature r) =? 0)%Z false]).
Proof. intros H. unfold emitBeat. rewrite H. reflexivity. Qed.

Lemma turns_normal_beatCount k r h :
  r_isPreRoll r = false ->
  beatCountRef (Nat.iter k (emitBeat r) h)
  = (beatCountRef h + Z.of_nat k)%Z.
Proof.
  intros H. induction k as [|k IH]; [cbn; lia|].
  rewrite Nat.iter_succ, emitBeat_normal by exact H.
  cbn [beatCountRef]. rewrite IH. lia.
Qed.

(** C2.  In normal mode every turn of the scheduler's loop starts from
    a non-negative beat counter, computes a [beatInBar] that lies in
    [[0, timeSignature)], plays one hi-hat that is accented exactly
    when [beatInBar] is 0 and publishes [beatInBar + 1] as the current
    beat.  A call of [scheduleNextBeat] is nothing but some number of
    these turns followed by re-arming the timer: with a tempo between
    2^-20 and 2^20 BPM and a clock below 2^35 s the loop comes to its end,
    every turn was entered with the beat time inside the look-ahead
    window as the machine computes it, and the beat time the call
    leaves behind is outside. *)
Theorem normal_mode_beats r now h :
  r_isPreRoll r = false ->
  (0 <= beatCountRef h)%Z ->
  (1 <= r_timeSignature r)%Z ->
  (forall k : nat,
     let hk := Nat.iter k (emitBeat r) h in
     let beatInBar := remZ (beatCountRef hk) (r_timeSignature r) in
     (0 <= beatCountRef hk)%Z /\
     (0 <= beatInBar < r_timeSignature r)%Z /\
     (exists isAccent : bool,
        heard (emitBeat r hk) = heard hk ++ [PlayHiHat isAccent false] /\
        (isAccent = true <-> beatInBar = 0%Z)) /\
     currentBeat (emitBeat r hk) = (beatInBar + 1)%Z) /\
  (pow2 (-20) <= r_tempo r -> r_tempo r <= pow2 20 -> now <= pow2 35 ->
   0 <= nextBeatTimeRef h ->
   exists m : nat,
     scheduleNextBeat r now h = setTimeout r (Nat.iter m (emitBeat r) h) /\
     lookAhead now <= nextBeatTimeRef (scheduleNextBeat r now h) /\
     forall j, (j < m)%nat ->
       nextBeatTimeRef (Nat.iter j (emitBeat r) h) < lookAhead now).
Proof.
  intros Hmode Hcount Hsig. split.
  - intros k hk beatInBar.
    assert (Hk : (0 <= beatCountRef hk)%Z).
    { unfold hk. rewrite turns_normal_beatCount by exact Hmode. lia. }
    split; [exact Hk|]. split.
    { unfold beatInBar, remZ. apply Z.rem_bound_pos; lia. }
    rewrite emitBeat_normal by exact Hmode. cbn [heard currentBeat].
    split; [|reflexivity].
    eexists. split; [reflexivity|]. apply Z.eqb_eq.
  - intros Hl Hu Hnow H0. unfold scheduleNextBeat.
    destruct (scheduleLoop_exit r now h Hl Hu Hnow H0) as (m & -> & Hout & Hin).
    exists m. split; [reflexivity|]. split; [exact Hout|exact Hin].
Qed.

Lemma normal_mode_beats_witness :
  let r := render (mount 100) in
  let h := mount 100 in
  (forall k : nat,
     let hk := Nat.iter k (emitBeat r) h in
     let beatInBar := remZ (beatCountRef hk) (r_timeSignature r) in
     (0 <= beatCountRef hk)%Z /\
     (0 <= beatInBar < r_timeSignature r)%Z /\
     (exists isAccent : bool,
        heard (emitBeat r hk) = heard hk ++ [PlayHiHat isAccent false] /\
        (isAccent = true <-> beatInBar = 0%Z)) /\
     currentBeat (emitBeat r hk) = (beatInBar + 1)%Z) /\
  (pow2 (-20) <= r_tempo r -> r_tempo r <= pow2 20 -> 0 <= pow2 35 ->
   0 <= nextBeatTimeRef h ->
   exists m : nat,
     scheduleNextBeat r 0 h = setTimeout r (Nat.iter m (emitBeat r) h) /\
     lookAhead 0 <= nextBeatTimeRef (scheduleNextBeat r 0 h) /\
     forall j, (j < m)%nat ->
       nextBeatTimeRef (Nat.iter j (emitBeat r) h) < lookAhead 0).
Proof.
  apply (normal_mode_beats (render (mount 100)) 0 (mount 100));
    [reflexivity | vm_compute; discriminate | vm_compute; discriminate].
Defined.

(** *** The timer table of a session *)

Lemma scheduleLoop_timers fuel r now h :
  timers (scheduleLoop fuel r now h) = timers h /\
  timerIdRef (scheduleLoop fuel r now h) = timerIdRef h /\
  nextTimerId (scheduleLoop fuel r now h) = nextTimerId h.
Proof.
  revert h. induction fuel as [|fuel IH]; intros h; cbn; [auto|].
  destruct (Qlt_le_dec _ _); [|auto].
  destruct (IH (emitBeat r h)) as (-> & -> & ->). apply emitBeat_timers.
Qed.

Lemma scheduleNextBeat_timer r now h :
  timers h = ∅ ->
  timerIdRef (scheduleNextBeat r now h) = Some (nextTimerId h) /\
  timers (scheduleNextBeat r now h) = {[ nextTimerId h := r ]}.
Proof.
  intros He. unfold scheduleNextBeat.
  destruct (setTimeout_timers r (scheduleLoop (beatsDue r now h) r now h))
    as (-> & -> & _).
  destruct (scheduleLoop_timers (beatsDue r now h) r now h) as (-> & _ & ->).
  rewrite He. split; [reflexivity|]. apply insert_empty.
Qed.

Lemma tick_timer r now h id :
  timerIdRef h = Some id ->
  timers h = {[ id := r ]} ->
  exists id',
    timerIdRef (tick now h) = Some id' /\ timers (tick now h) = {[ id' := r ]}.
Proof.
  intros Hid Ht. unfold tick, fire. rewrite Hid, Ht, lookup_singleton_eq.
  eexists. apply scheduleNextBeat_timer. cbn [timers].
  apply delete_singleton_eq.
Qed.

Lemma run_timer r clock h id :
  timerIdRef h = Some id ->
  timers h = {[ id := r ]} ->
  exists id',
    timerIdRef (run clock h) = Some id' /\ timers (run clock h) = {[ id' := r ]}.
Proof.
  revert h id. induction clock as [|now clock IH]; intros h id Hid Ht.
  - exists id. auto.
  - destruct (tick_timer r now h id Hid Ht) as (id' & Hid' & Ht').
    exact (IH _ _ Hid' Ht').
Qed.

Lemma start_timer r withPreRoll now h :
  timers h = ∅ ->
  exists id,
    timerIdRef (start r withPreRoll now h) = Some id /\
    timers (start r withPreRoll now h) = {[ id := r ]}.
Proof.
  intros He. eexists. apply scheduleNextBeat_timer. exact He.
Qed.

(** C9.  [stop] forgets the driving timer and takes it off the timer
    table, and puts both counters and the four published indicators
    back to their initial values; a second [stop] changes nothing, and
    neither does a timer that would have come due.  In a session that
    was started on a fresh hook no timer at all is left. *)
Theorem stop_resets_and_is_idempotent h :
  let h' := stop h in
  (timerIdRef h' = None /\
   forall id, timerIdRef h = Some id -> timers h' !! id = None) /\
  (beatCountRef h' = 0%Z /\ preRollCountRef h' = 0%Z /\
   currentBeat h' = 0%Z /\ preRollBeat h' = 0%Z /\
   isPlaying h' = false /\ isPreRoll h' = false) /\
  stop h' = h' /\
  (forall now, tick now h' = h') /\
  (forall tempo r withPreRoll now clock,
     timers (stop (run clock (start r withPreRoll now (mount tempo)))) = ∅).
Proof.
  cbn zeta. split; [split; [reflexivity|]|].
  { intros id Hid. unfold stop. cbn. rewrite Hid. apply lookup_delete_eq. }
  split; [repeat split|]. split; [reflexivity|]. split; [reflexivity|].
  intros tempo r withPreRoll now clock.
  destruct (start_timer r withPreRoll now (mount tempo) eq_refl)
    as (id & Hid & Ht).
  destruct (run_timer r clock _ id Hid Ht) as (id' & Hid' & Ht').
  unfold stop. cbn. rewrite Hid', Ht'. apply delete_singleton_eq.
Qed.

(** *** Joining a playback *)

Lemma emitBeat_heard r h :
  exists rest,
    heard (emitBeat r h)
    = heard h
        ++ PlayHiHat (remZ (beatCountRef h) (r_timeSignature r) =? 0)%Z
             (r_isPreRoll r) :: rest.
Proof.
  unfold emitBeat. destruct (r_isPreRoll r).
  - destruct (_ >=? _)%Z; cbn; eexists; reflexivity.
  - cbn. eexists. reflexivity.
Qed.

Lemma turns_heard n r h :
  exists rest, heard (Nat.iter n (emitBeat r) h) = heard h ++ rest.
Proof.
  induction n as [|n [rest IH]]; [exists []; cbn; rewrite app_nil_r; reflexivity|].
  rewrite Nat.iter_succ.
  destruct (emitBeat_heard r (Nat.iter n (emitBeat r) h)) as [rest' ->].
  rewrite IH, <- app_assoc. eexists. reflexivity.
Qed.

Lemma scheduleLoop_heard fuel r now h :
  exists rest, heard (scheduleLoop fuel r now h) = heard h ++ rest.
Proof.
  revert h. induction fuel as [|fuel IH]; intros h; cbn [scheduleLoop].
  - exists []. rewrite app_nil_r. reflexivity.
  - destruct (Qlt_le_dec _ _); [|exists []; rewrite app_nil_r; reflexivity].
    destruct (IH (emitBeat r h)) as [rest ->].
    destruct (emitBeat_heard r h) as [rest' ->].
    rewrite <- app_assoc. eexists. reflexivity.
Qed.

Lemma floor_double_bounds (y : Q) :
  0 <= y -> y <= pow2 52 ->
  (Qfloor y <= Qfloor (double y) <= Qfloor y + 1)%Z.
Proof.
  intros H0 Hu. destruct (floor_bounds y) as [Hlo Hhi].
  assert (E52 : pow2 52 == inject_Z (2 ^ 52)) by (apply pow2_Z; lia).
  assert (H0' : (0 <= Qfloor y)%Z).
  { change 0%Z with (Qfloor 0). apply Qfloor_resp_le. exact H0. }
  assert (Hu' : (Qfloor y <= 2 ^ 52)%Z).
  { rewrite <- (Qfloor_Z (2 ^ 52)). apply Qfloor_resp_le. lra. }
  split.
  - rewrite <- (Qfloor_Z (Qfloor y)) at 1. apply Qfloor_resp_le.
    rewrite <- (double_Z (Qfloor y)) by lia. apply double_mono. exact Hlo.
  - rewrite <- (Qfloor_Z (Qfloor y + 1)). apply Qfloor_resp_le.
    rewrite <- (double_Z (Qfloor y + 1)) by lia. apply double_mono.
    rewrite inject_Z_plus. change (inject_Z 1) with 1. lra.
Qed.

(** C3.  [startForPlayback] hands the scheduler a beat counter of
    [floor(startTime / secondsPerBeat)] and a first beat time of
    [now + (secondsPerBeat - startTime mod secondsPerBeat)], each as the
    machine computes it.  The remainder is exact, so the wait ends on a
    beat boundary of the piece and is at most one beat long; the first
    beat is not due before [now]; the rounded quotient may reach the
    next whole number, so the counter is the number of whole beats
    passed or one more.  When the first beat lies outside the
    look-ahead window the scheduler's first pass plays nothing and both
    values stand when the call returns; when it lies inside, the first
    thing played is the beat with that very number.  At 120 BPM and
    1.5 s into the piece the counter is 3 and the first beat is due at
    [now + 0.5]; at 150 BPM and 1.2 s the quotient computed is below 3
    and the counter is 2. *)
Theorem startForPlayback_joins_on_the_beat r startTime now h :
  0 <= startTime -> startTime <= pow2 30 ->
  pow2 (-20) <= r_tempo r -> r_tempo r <= pow2 20 ->
  let spb := secondsPerBeat r in
  let offset := double startTime in
  let armed := armForPlayback r startTime now h in
  let joined := startForPlayback r startTime now h in
  let beat := Math_floor (double (offset / spb)) in
  let wait := spb - rem offset spb in
  let first := double (double now + double wait) in
  (beatCountRef armed = beat /\
   nextBeatTimeRef armed = first /\
   joined = scheduleNextBeat r now armed) /\
  (let whole := Math_floor (offset / spb) in
   (0 <= whole <= beat)%Z /\ (beat <= whole + 1)%Z /\
   offset + wait == inject_Z (whole + 1) * spb /\
   0 < wait /\ wait <= spb /\
   double now <= first /\ first <= double (double now + spb)) /\
  (lookAhead now <= first ->
   beatCountRef joined = beat /\
   nextBeatTimeRef joined = first /\
   heard joined = heard h) /\
  (first < lookAhead now ->
   exists rest,
     heard joined
     = heard h
         ++ PlayHiHat (remZ beat (r_timeSignature r) =? 0)%Z (r_isPreRoll r)
         :: rest) /\
  (r_tempo r == 120 -> startTime == 1.5 ->
   beatCountRef joined = 3%Z /\
   nextBeatTimeRef joined = double (double now + 0.5)) /\
  (r_tempo r == 150 -> startTime == 1.2 ->
   beatCountRef armed = 2%Z /\ Math_floor (1.2 / (60 / 150)) = 3%Z).
Proof.
  intros Hstart Hstart' Hl Hu spb offset armed joined beat wait first.
  destruct (secondsPerBeat_bounds r Hl Hu) as [Hlo Hhi]. fold spb in Hlo, Hhi.
  assert (E15 : pow2 (-15) == 1 # 32768) by (vm_compute; reflexivity).
  assert (Hspb : 0 < spb) by lra.
  assert (Hoff : 0 <= offset) by (apply double_nonneg; exact Hstart).
  assert (Hoff' : offset <= pow2 30).
  { assert (E : double (pow2 30) == pow2 30) by (vm_compute; reflexivity).
    apply Qle_trans with (double (pow2 30)); [|rewrite E; lra].
    apply double_mono. exact Hstart'. }
  set (y := offset / spb).
  assert (Hq : y * spb == offset) by (unfold y; field; lra).
  assert (Hy0 : 0 <= y) by (apply Qle_shift_div_l; lra).
  assert (Hy1 : y <= pow2 52).
  { apply Qle_shift_div_r; [exact Hspb|].
    assert (E : pow2 52 == pow2 30 * 4194304) by (vm_compute; reflexivity).
    assert (E30 : pow2 30 == 1073741824) by (vm_compute; reflexivity).
    rewrite E. rewrite E30 in *.
    apply Qle_trans with (1073741824 * 4194304 * (1 # 32768)); lra. }
  pose proof (floor_double_bounds y Hy0 Hy1) as [Hb1 Hb2].
  set (whole := Qfloor y) in *.
  assert (Hw0 : (0 <= whole)%Z).
  { change 0%Z with (Qfloor 0). apply Qfloor_resp_le. exact Hy0. }
  assert (Hrem : rem offset spb = offset - spb * inject_Z whole)
    by (apply rem_floor; assumption).
  destruct (floor_bounds y) as [Hfl Hfu]. fold whole in Hfl, Hfu.
  assert (Hlo' : inject_Z whole * spb <= offset).
  { rewrite <- Hq. apply Qmult_le_compat_r; lra. }
  assert (Hhi' : offset < (inject_Z whole + 1) * spb).
  { rewrite <- Hq. apply Qmult_lt_compat_r; lra. }
  assert (Hwait : 0 < wait /\ wait <= spb).
  { unfold wait. rewrite Hrem. split; lra. }
  assert (Hfirst : double now <= first /\ first <= double (double now + spb)).
  { unfold first. split.
    - rewrite <- (double_idem now) at 1. apply double_mono.
      assert (0 <= double wait) by (apply double_nonneg; lra). lra.
    - apply double_mono.
      assert (double wait <= spb).
      { apply Qle_trans with (double spb); [apply double_mono; lra|].
        unfold spb. rewrite secondsPerBeat_fixed. lra. }
      lra. }
  assert (Hidle : lookAhead now <= first ->
                  beatCountRef joined = beat /\
                  nextBeatTimeRef joined = first /\
                  heard joined = heard h).
  { intros Hout. unfold joined, startForPlayback, scheduleNextBeat.
    rewrite scheduleLoop_idle by exact Hout. auto. }
  split; [auto|]. split.
  { cbn zeta. unfold Math_floor. fold y. fold whole.
    split; [split; [exact Hw0|exact Hb1]|]. split; [exact Hb2|].
    split; [|tauto].
    unfold wait. rewrite Hrem, inject_Z_plus. change (inject_Z 1) with 1. lra. }
  split; [exact Hidle|]. split.
  { intros Hin.
    change joined with (scheduleNextBeat r now armed).
    unfold scheduleNextBeat, beatsDue.
    change (nextBeatTimeRef armed) with first.
    set (q := 2 * (lookAhead now - first) / secondsPerBeat r).
    assert (Hqpos : 0 < q).
    { unfold q. fold spb. apply Qlt_shift_div_l; lra. }
    pose proof (Qle_ceiling q) as Hc.
    assert (Hc' : (0 < Qceiling q)%Z).
    { rewrite Zlt_Qlt. change (inject_Z 0) with 0. lra. }
    destruct (Z.to_nat (Qceiling q)) as [|n] eqn:En; [lia|].
    cbn [scheduleLoop].
    change (nextBeatTimeRef armed) with first.
    destruct (Qlt_le_dec first (lookAhead now)) as [_|Hge]; [|lra].
    cbn [heard setTimeout].
    destruct (scheduleLoop_heard n r now (emitBeat r armed)) as [rest ->].
    destruct (emitBeat_heard r armed) as [rest' ->].
    rewrite <- app_assoc. eexists. reflexivity. }
  split.
  - intros H120 H15.
    assert (Hhalf : spb = 1 # 2).
    { unfold spb, secondsPerBeat. rewrite (double_comp _ _ H120).
      vm_compute. reflexivity. }
    assert (Hoffset : offset = 3 # 2).
    { unfold offset. rewrite (double_comp _ _ H15). vm_compute. reflexivity. }
    assert (Hbeat : beat = 3%Z).
    { unfold beat. rewrite Hoffset, Hhalf. vm_compute. reflexivity. }
    assert (Hfirst' : first = double (double now + 0.5)).
    { unfold first, wait. rewrite Hoffset, Hhalf.
      apply double_comp.
      assert (E : double ((1 # 2) - rem (3 # 2) (1 # 2)) == 0.5)
        by (vm_compute; reflexivity).
      rewrite E. reflexivity. }
    destruct Hidle as (Hb & Hn & _).
    { rewrite Hfirst'. unfold lookAhead. apply double_mono.
      assert (double 0.1 <= 0.5) by (vm_compute; discriminate). lra. }
    rewrite Hb, Hn. auto.
  - intros H150 H12. split; [|vm_compute; reflexivity].
    change (beatCountRef armed) with beat. unfold beat, offset, spb, secondsPerBeat.
    rewrite (double_comp _ _ H150), (double_comp _ _ H12).
    vm_compute. reflexivity.
Qed.

Lemma startForPlayback_joins_on_the_beat_witness :
  let joined := startForPlayback (mkRender 120 4 false) 1.5 10 (mount 120) in
  beatCountRef joined = 3%Z /\
  nextBeatTimeRef joined = double (double 10 + 0.5).
Proof.
  apply (startForPlayback_joins_on_the_beat
           (mkRender 120 4 false) 1.5 10 (mount 120));
    [vm_compute; discriminate | vm_compute; discriminate
    | vm_compute; discriminate | vm_compute; discriminate
    | reflexivity | reflexivity].
Defined.

(** *** A closure that was made while [isPreRoll] was false *)

Lemma emitBeat_stays_normal r h :
  r_isPreRoll r = false ->
  isPreRoll (emitBeat r h) = isPreRoll h /\
  (Forall ordinary (heard h) -> Forall ordinary (heard (emitBeat r h))).
Proof.
  intros H. rewrite emitBeat_normal by exact H. cbn. split; [reflexivity|].
  intros Hh. apply List.Forall_app. split; [exact Hh|].
  repeat constructor.
Qed.

Lemma scheduleLoop_stays_normal fuel r now h :
  r_isPreRoll r = false ->
  isPreRoll (scheduleLoop fuel r now h) = isPreRoll h /\
  (Forall ordinary (heard h) ->
   Forall ordinary (heard (scheduleLoop fuel r now h))).
Proof.
  intros H. revert h.
  induction fuel as [|fuel IH]; intros h; cbn [scheduleLoop]; [auto|].
  destruct (Qlt_le_dec _ _); [|auto].
  destruct (IH (emitBeat r h)) as [-> Hheard].
  destruct (emitBeat_stays_normal r h H) as [-> Hstep]. auto.
Qed.

Lemma scheduleNextBeat_stays_normal r now h :
  r_isPreRoll r = false ->
  isPreRoll (scheduleNextBeat r now h) = isPreRoll h /\
  (Forall ordinary (heard h) ->
   Forall ordinary (heard (scheduleNextBeat r now h))).
Proof.
  intros H. unfold scheduleNextBeat.
  rewrite setTimeout_isPreRoll, setTimeout_heard.
  apply scheduleLoop_stays_normal. exact H.
Qed.

Lemma tick_stays_normal r now h id :
  r_isPreRoll r = false ->
  timerIdRef h = Some id ->
  timers h = {[ id := r ]} ->
  isPreRoll (tick now h) = isPreRoll h /\
  (Forall ordinary (heard h) -> Forall ordinary (heard (tick now h))).
Proof.
  intros H Hid Ht. unfold tick, fire.
  rewrite Hid, Ht, lookup_singleton_eq.
  match goal with
  | |- context [scheduleNextBeat r now ?h'] =>
      exact (scheduleNextBeat_stays_normal r now h' H)
  end.
Qed.

Lemma run_stays_normal r clock h id :
  r_isPreRoll r = false ->
  timerIdRef h = Some id ->
  timers h = {[ id := r ]} ->
  isPreRoll (run clock h) = isPreRoll h /\
  (Forall ordinary (heard h) -> Forall ordinary (heard (run clock h))).
Proof.
  intros H. revert h id.
  induction clock as [|now clock IH]; intros h id Hid Ht; [cbn; auto|].
  destruct (tick_timer r now h id Hid Ht) as (id' & Hid' & Ht').
  destruct (IH _ _ Hid' Ht') as [Hflag Hheard].
  destruct (tick_stays_normal r now h id H Hid Ht) as [Hflag1 Hheard1].
  change (run (now :: clock) h) with (run clock (tick now h)).
  rewrite Hflag, Hflag1. auto.
Qed.

Lemma ordinary_counts (l : list Effect) :
  Forall ordinary l ->
  length (List.filter isPreRollHat l) = O /\
  length (List.filter isCompletion l) = O.
Proof.
  intros H. rewrite List.Forall_forall in H.
  rewrite !filter_none; [auto| |]; intros x Hx; apply (H x Hx).
Qed.

(** C1 does not hold of the code.  [start(true)] on a freshly mounted
    hook calls the [scheduleNextBeat] of the render it was made in,
    where [isPreRoll] is still false, and that same callback is the one
    every later timer runs.  So the published [isPreRoll] flag stays
    raised for as long as the session runs, yet no count-in hi-hat is
    ever played and [onPreRollComplete] is never called, whatever the
    tempo and the clock; at the default 100 BPM and four beats to the
    bar, a session that is three seconds old has played six ordinary
    beats. *)
Theorem start_withPreRoll_never_counts_in (tempo now : Q) (clock : list Q) :
  let session := run clock (start (render (mount tempo)) true now (mount tempo)) in
  (isPreRoll session = true /\
   preRollBeatsHeard session = O /\
   completionsFired session = O) /\
  heard (run [1; 2; 3]
           (start (render (mount DEFAULT_tempo)) true 0 (mount DEFAULT_tempo)))
  = [PlayHiHat true false; PlayHiHat false false; PlayHiHat false false;
     PlayHiHat false false; PlayHiHat true false; PlayHiHat false false].
Proof.
  cbn zeta. split; [|vm_compute; reflexivity].
  set (r := render (mount tempo)).
  destruct (start_timer r true now (mount tempo) eq_refl) as (id & Hid & Ht).
  destruct (run_stays_normal r clock _ id eq_refl Hid Ht) as [Hflag Hheard].
  destruct (scheduleNextBeat_stays_normal r now
              (mkHook tempo DEFAULT_timeSignature true true 0 0
                 (double (double now + double 0.05))
                 None 0 0 ∅ 1%positive []) eq_refl) as [Hflag0 Hheard0].
  split.
  - rewrite Hflag. exact Hflag0.
  - apply ordinary_counts, Hheard, Hheard0. constructor.
Qed.

(** The other way round: a closure that was made while [isPreRoll] was
    true goes on counting in.  It calls [onPreRollComplete] on its 4th
    beat, with both counters at 0, moves the beat counter on to 1 before
    the turn is over, and calls [onPreRollComplete] again on its 8th. *)
Lemma preRoll_closure_completes_repeatedly :
  let r := mkRender 100 4 true in
  let after n := Nat.iter n (emitBeat r) (mount 100) in
  (completionsFired (after 3%nat) = 0%nat /\
   heard (after 4%nat)
   = [PlayHiHat true true; PlayHiHat false true; PlayHiHat false true;
      PlayHiHat false true; PreRollComplete 0 0] /\
   preRollCountRef (after 4%nat) = 0%Z /\
   beatCountRef (after 4%nat) = 1%Z) /\
  completionsFired (after 8%nat) = 2%nat.
Proof. vm_compute. repeat split; reflexivity. Qed.

End MetronomeFacts.

(** ** The playhead animator *)

Section LoopModeFacts.

Import LoopMode.

Variable rhythm : RhythmConfig.

Implicit Types (a : Animator).

(** *** One frame *)

Lemma tick_refs now a :
  startTimeRef (tick rhythm (Some now) a) = startTimeRef a /\
  tempoRef (tick rhythm (Some now) a) = tempoRef a /\
  loopLengthRef (tick rhythm (Some now) a) = loopLengthRef a.
Proof.
  unfold tick, requestAnimationFrame.
  destruct (Number.lt _ _); cbn [startTimeRef tempoRef loopLengthRef]; auto.
Qed.

Lemma tick_loopDuration now a :
  getLoopDuration rhythm (tick rhythm (Some now) a) = getLoopDuration rhythm a.
Proof.
  unfold getLoopDuration.
  destruct (tick_refs now a) as (_ & -> & ->). reflexivity.
Qed.

Lemma tick_restart now a :
  Number.lt (elapsedAt now a) (Num 0) = false ->
  let count := loopCountAt rhythm now a in
  let fires := Number.lt (lastLoopCountRef a) count in
  loopRestarts (tick rhythm (Some now) a)
  = (if fires then S (loopRestarts a) else loopRestarts a) /\
  lastLoopCountRef (tick rhythm (Some now) a)
  = (if fires then count else lastLoopCountRef a).
Proof.
  intros He. cbn zeta. unfold tick. rewrite He.
  unfold requestAnimationFrame. cbn [loopRestarts lastLoopCountRef].
  split; reflexivity.
Qed.

Lemma tick_early now a :
  Number.lt (elapsedAt now a) (Num 0) = true ->
  loopRestarts (tick rhythm (Some now) a) = loopRestarts a /\
  lastLoopCountRef (tick rhythm (Some now) a) = lastLoopCountRef a.
Proof.
  intros He. unfold tick. rewrite He. split; reflexivity.
Qed.

(** *** A run of frames on a loop of finite length *)

Section Run.

Variables (t0 d : Q).

Hypothesis Hd : pow2 (-15) <= d.
Hypothesis Ht0 : 0 <= t0.

Let elapsed (now : Q) : Q := double (double now + - double t0).
Let wraps (now : Q) : Z := Qfloor (double (elapsed now / d)).

Lemma d_pos : 0 < d.
Proof. pose proof (pow2_pos (-15)). lra. Qed.

Lemma elapsed_range now :
  t0 <= now -> now <= pow2 35 -> 0 <= elapsed now /\ elapsed now <= pow2 35.
Proof.
  intros Hl Hu. unfold elapsed.
  pose proof (double_mono _ _ Hl) as Hl'.
  pose proof (double_mono _ _ Hu) as Hu'.
  pose proof (double_nonneg _ Ht0) as H0.
  assert (E : double (pow2 35) == pow2 35) by (vm_compute; reflexivity).
  rewrite E in Hu'. split.
  - apply double_nonneg. lra.
  - apply Qle_trans with (double (pow2 35)); [|rewrite E; lra].
    apply double_mono. lra.
Qed.

Lemma quotient_range now :
  t0 <= now -> now <= pow2 35 ->
  0 <= elapsed now / d /\ elapsed now / d <= pow2 50.
Proof.
  intros Hl Hu. destruct (elapsed_range now Hl Hu) as [He0 He1].
  pose proof d_pos as Hp.
  assert (E15 : pow2 (-15) == 1 # 32768) by (vm_compute; reflexivity).
  assert (E35 : pow2 35 == 34359738368) by (vm_compute; reflexivity).
  assert (E50 : pow2 50 == 34359738368 * 32768) by (vm_compute; reflexivity).
  split.
  - apply Qle_shift_div_l; lra.
  - apply Qle_shift_div_r; [exact Hp|]. rewrite E50.
    apply Qle_trans with (34359738368 * 32768 * (1 # 32768)); lra.
Qed.

Lemma wraps_nonneg now : t0 <= now -> now <= pow2 35 -> (0 <= wraps now)%Z.
Proof.
  intros Hl Hu. destruct (quotient_range now Hl Hu) as [Hq _].
  unfold wraps. change 0%Z with (Qfloor 0). apply Qfloor_resp_le.
  apply double_nonneg. exact Hq.
Qed.

Lemma wraps_mono now now' :
  now <= now' -> (wraps now <= wraps now')%Z.
Proof.
  intros H. pose proof d_pos as Hp. unfold wraps, elapsed.
  apply Qfloor_resp_le, double_mono.
  assert (He : double (double now + - double t0)
               <= double (double now' + - double t0)).
  { apply double_mono. pose proof (double_mono _ _ H). lra. }
  apply Qle_shift_div_l; [exact Hp|].
  assert (E : double (double now + - double t0) / d * d
              == double (double now + - double t0)) by (field; lra).
  rewrite E. exact He.
Qed.

Lemma wraps_start : wraps t0 = 0%Z.
Proof.
  pose proof d_pos as Hp. unfold wraps, elapsed.
  assert (E : double t0 + - double t0 == 0) by ring.
  rewrite (double_comp _ _ E).
  assert (E0 : double 0 = 0) by (vm_compute; reflexivity).
  rewrite E0.
  assert (E' : 0 / d == 0) by (field; lra).
  rewrite (double_comp _ _ E'), E0. reflexivity.
Qed.

Lemma loopCountAt_finite a now :
  startTimeRef a = Some (Num (double t0)) ->
  getLoopDuration rhythm a = Num d ->
  t0 <= now -> now <= pow2 35 ->
  elapsedAt now a = Num (elapsed now) /\
  loopCountAt rhythm now a = Num (inject_Z (wraps now)).
Proof.
  intros Hs HL Hl Hu. pose proof d_pos as Hp.
  destruct (elapsed_range now Hl Hu) as [He0 He1].
  destruct (quotient_range now Hl Hu) as [Hq0 Hq1].
  pose proof (double_mono _ _ Hl) as Hl'.
  pose proof (double_mono _ _ Hu) as Hu'.
  pose proof (double_nonneg _ Ht0) as H0.
  assert (E : double (pow2 35) == pow2 35) by (vm_compute; reflexivity).
  rewrite E in Hu'.
  pose proof (pow2_1023 35 ltac:(lia)) as Hbig.
  pose proof (pow2_1023 50 ltac:(lia)) as Hbig'.
  assert (Ee : elapsedAt now a = Num (elapsed now)).
  { unfold elapsedAt. rewrite Hs.
    rewrite (ofQ_range now) by lra. rewrite sub_Num.
    rewrite ofQ_range by lra. reflexivity. }
  split; [exact Ee|].
  unfold loopCountAt. rewrite Ee, HL, (div_Num _ _ Hp).
  rewrite ofQ_range by lra. reflexivity.
Qed.

(** The animator has followed the clock up to [prev]. *)
Let followed (a : Animator) (prev : Q) : Prop :=
  startTimeRef a = Some (Num (double t0)) /\
  getLoopDuration rhythm a = Num d /\
  t0 <= prev /\
  lastLoopCountRef a = Num (inject_Z (wraps prev)).

Lemma tick_follows a prev now :
  followed a prev -> prev <= now -> now <= pow2 35 ->
  followed (tick rhythm (Some now) a) now /\
  loopRestarts (tick rhythm (Some now) a)
  = (if (wraps prev <? wraps now)%Z
     then S (loopRestarts a) else loopRestarts a).
Proof.
  intros (Hs & HL & Hp & Hc) Hle Hu.
  destruct (tick_refs now a) as (Hs' & _ & _).
  destruct (loopCountAt_finite a now Hs HL ltac:(lra) Hu) as [He Hn].
  destruct (elapsed_range now ltac:(lra) Hu) as [He0 _].
  destruct (tick_restart now a) as [Hr Hl].
  { rewrite He. apply lt_Num_false. exact He0. }
  rewrite Hn, Hc, lt_Num_Z in Hr, Hl.
  pose proof (wraps_mono prev now Hle) as Hm.
  unfold followed. rewrite Hs', tick_loopDuration, Hl.
  split; [|exact Hr].
  split; [exact Hs|]. split; [exact HL|]. split; [lra|].
  destruct (Z.ltb_spec (wraps prev) (wraps now)) as [Hlt|Hge]; [reflexivity|].
  replace (wraps now) with (wraps prev) by lia. reflexivity.
Qed.

Lemma frames_follow clock a prev :
  followed a prev ->
  ascending prev clock = true ->
  List.last clock prev <= pow2 35 ->
  followed (frames rhythm clock a) (List.last clock prev).
Proof.
  revert a prev.
  induction clock as [|now clock IH]; intros a prev Ha Hp Hlast; [exact Ha|].
  cbn [ascending] in Hp. apply andb_prop in Hp. destruct Hp as [Hle Hrest].
  apply Qle_bool_iff in Hle. rewrite last_cons in *.
  pose proof (ascending_last now clock Hrest) as Hnl.
  destruct (tick_follows a prev now Ha Hle ltac:(lra)) as [Hnow _].
  change (frames rhythm (now :: clock) a)
    with (frames rhythm clock (tick rhythm (Some now) a)).
  apply IH; assumption.
Qed.

Lemma frames_step (base : nat) clock a prev :
  followed a prev ->
  loopRestarts a = (base + Z.to_nat (wraps prev))%nat ->
  (0 <= wraps prev)%Z ->
  ascending prev clock = true ->
  List.last clock prev <= pow2 35 ->
  stepwise (wraps prev) (map wraps clock) = true ->
  restartsAfterEach rhythm clock a
  = map (fun now => (base + Z.to_nat (wraps now))%nat) clock /\
  loopRestarts (frames rhythm clock a)
  = (base + Z.to_nat (wraps (List.last clock prev)))%nat.
Proof.
  revert a prev.
  induction clock as [|now clock IH]; intros a prev Ha Hr H0 Hp Hlast Hstep;
    [cbn; auto|].
  cbn [ascending] in Hp. apply andb_prop in Hp. destruct Hp as [Hle Hrest].
  apply Qle_bool_iff in Hle. rewrite last_cons in *.
  cbn [map stepwise] in Hstep. apply andb_prop in Hstep.
  destruct Hstep as [Hone Hsteps]. apply Z.leb_le in Hone.
  pose proof (ascending_last now clock Hrest) as Hnl.
  pose proof (wraps_mono prev now Hle) as Hm.
  destruct (tick_follows a prev now Ha Hle ltac:(lra)) as [Hnow Hcalls].
  assert (Hr' : loopRestarts (tick rhythm (Some now) a)
                = (base + Z.to_nat (wraps now))%nat).
  { rewrite Hcalls, Hr.
    destruct (Z.ltb_spec (wraps prev) (wraps now)) as [Hlt|Hge]; [lia|].
    replace (wraps now) with (wraps prev) by lia. reflexivity. }
  destruct (IH _ now Hnow Hr' ltac:(lia) Hrest Hlast Hsteps) as [Hlist Hend].
  change (frames rhythm (now :: clock) a)
    with (frames rhythm clock (tick rhythm (Some now) a)).
  cbn [restartsAfterEach map]. rewrite Hlist, Hr'. auto.
Qed.

End Run.

(** C4.  A frame that finds [floor(elapsed / loopDuration)], as it
    computes it, above the last loop count recorded calls
    [onLoopRestart] once and records the new count; any other frame
    calls nothing.  From [start] on, on a loop of at least 2^-15 s and
    with frames that come in clock order, the count a frame computes
    never goes back, so that the count recorded is the one of the frame
    before and no boundary is reported twice; where the count computed
    goes up by one at most from frame to frame, the number of calls
    made so far is, after every frame, that count: none is missed.  At
    120 BPM, four beats to the measure and a one-measure loop, the loop
    lasts 2 s and the frames that first see 2 s, 4 s and 6 s go by make
    the first, second and third call.  At 75 BPM the loop lasts 3.2 s
    and the quotient a frame computes 9.6 s after the start is below 3:
    that frame makes no call. *)
Theorem loop_restart_once_per_wrap a t0 d clock :
  let a0 := start (Some t0) a in
  let wraps now := Qfloor (double (double (double now + - double t0) / d)) in
  getLoopDuration rhythm a = Num d ->
  pow2 (-15) <= d ->
  0 <= t0 ->
  ascending t0 clock = true ->
  List.last clock t0 <= pow2 35 ->
  (forall now a1,
     Number.lt (elapsedAt now a1) (Num 0) = false ->
     let count := loopCountAt rhythm now a1 in
     let fires := Number.lt (lastLoopCountRef a1) count in
     loopRestarts (tick rhythm (Some now) a1)
     = (if fires then S (loopRestarts a1) else loopRestarts a1) /\
     lastLoopCountRef (tick rhythm (Some now) a1)
     = (if fires then count else lastLoopCountRef a1)) /\
  ((forall now, t0 <= now -> now <= pow2 35 ->
      loopCountAt rhythm now a0 = Num (inject_Z (wraps now)) /\
      (0 <= wraps now)%Z) /\
   (forall now now', now <= now' -> (wraps now <= wraps now')%Z) /\
   lastLoopCountRef (frames rhythm clock a0)
   = Num (inject_Z (wraps (List.last clock t0)))) /\
  (stepwise 0 (map wraps clock) = true ->
   restartsAfterEach rhythm clock a0
   = map (fun now => (loopRestarts a + Z.to_nat (wraps now))%nat) clock /\
   loopRestarts (frames rhythm clock a0)
   = (loopRestarts a + Z.to_nat (wraps (List.last clock t0)))%nat) /\
  (getLoopDuration Scenario.rhythm (mount (Num 120) (Num 1)) = Num 2 /\
   restartsAfterEach Scenario.rhythm
     [1; 1.9; 2.1; 3; 3.9; 4.1; 5; 5.9; 6.1; 7]
     (start (Some 0) (mount (Num 120) (Num 1)))
   = [0; 0; 1; 1; 1; 2; 2; 2; 3; 3]%nat) /\
  restartsAfterEach Scenario.rhythm [3; 6; 9; 9.6]
    (start (Some 0) (mount (Num 75) (Num 1)))
  = [0; 1; 2; 2]%nat.
Proof.
  intros a0 wraps HL Hd Ht0 Hclock Hlast.
  split; [intros now a1; apply tick_restart|].
  pose proof (ascending_last t0 clock Hclock) as Hnl.
  pose proof (pow2_1023 35 ltac:(lia)) as Hbig.
  assert (Hstart : startTimeRef a0 = Some (Num (double t0)) /\
                   getLoopDuration rhythm a0 = Num d /\
                   t0 <= t0 /\
                   lastLoopCountRef a0 = Num (inject_Z (wraps t0))).
  { unfold a0, start, requestAnimationFrame, getLoopDuration.
    cbn [startTimeRef tempoRef loopLengthRef lastLoopCountRef].
    rewrite ofQ_range by lra.
    unfold wraps. rewrite (wraps_start t0 d Hd).
    split; [reflexivity|]. split; [exact HL|]. split; [lra|reflexivity]. }
  split; [split; [|split]|].
  - intros now Hl Hu.
    destruct Hstart as (Hs & HL0 & _ & _).
    destruct (loopCountAt_finite t0 d Hd Ht0 a0 now Hs HL0 Hl Hu) as [_ Hn].
    split; [exact Hn|]. apply (wraps_nonneg t0 d Hd Ht0); assumption.
  - intros now now'. apply (wraps_mono t0 d Hd).
  - apply (frames_follow t0 d Hd Ht0 clock a0 t0 Hstart Hclock Hlast).
  - split; [|split; [split|]]; [|vm_compute; reflexivity ..].
    intros Hstep.
    apply (frames_step t0 d Hd Ht0 (loopRestarts a) clock a0 t0 Hstart).
    + unfold wraps. rewrite (wraps_start t0 d Hd). cbn. lia.
    + unfold wraps. rewrite (wraps_start t0 d Hd). lia.
    + exact Hclock.
    + exact Hlast.
    + unfold wraps in Hstep |- *. rewrite (wraps_start t0 d Hd). exact Hstep.
Qed.

(** C10 does not hold for every argument: [Math.max(0, Math.min(1, p))]
    is [NaN] when [p] is, and [seek] publishes it.  The start time
    becomes [NaN] with it, and so does the playhead of every frame that
    follows. *)
Lemma seek_publishes_NaN :
  let a := seek Scenario.rhythm (Some 1) NaN
             (start (Some 0) (mount (Num 120) (Num 1))) in
  playhead a = NaN /\ playheadRef a = NaN /\ startTimeRef a = Some NaN /\
  playhead (tick Scenario.rhythm (Some 2) a) = NaN.
Proof. vm_compute. repeat split; reflexivity. Qed.

Lemma clamp_range (position : number) :
  Number.isNaN position = false ->
  Number.max (Num 0) (Number.min (Num 1) position)
  = Number.min (Num 1) (Number.max (Num 0) position) /\
  exists c,
    Number.max (Num 0) (Number.min (Num 1) position) = Num c /\
    0 <= c /\ c <= 1 /\
    (forall p, position = Num p -> c == Qmin 1 (Qmax 0 p)) /\
    (position = Infinity false -> c = 1) /\
    (position = Infinity true -> c = 0).
Proof.
  intros Hn. destruct position as [|[|]|p]; [discriminate Hn| | |].
  - split; [reflexivity|]. exists 0.
    split; [reflexivity|]. split; [lra|]. split; [lra|].
    split; [intros p E; discriminate E|].
    split; [intros E; discriminate E|reflexivity].
  - split; [reflexivity|]. exists 1.
    split; [reflexivity|]. split; [lra|]. split; [lra|].
    split; [intros p E; discriminate E|].
    split; [reflexivity|intros E; discriminate E].
  - unfold Number.max, Number.min. rewrite !lt_Num.
    destruct (Qle_bool 1 p) eqn:E1; destruct (Qle_bool p 0) eqn:E0;
      cbn [negb]; rewrite ?lt_Num, ?E0, ?E1; cbn [negb];
      try (apply Qle_bool_iff in E1); try (apply Qle_bool_iff in E0);
      try (apply Qle_bool_false in E1); try (apply Qle_bool_false in E0).
    + exfalso. lra.
    + change (Qle_bool 1 0) with false. change (Qle_bool 0 1) with true.
      cbn [negb]. split; [reflexivity|]. exists 1.
      split; [reflexivity|]. split; [lra|]. split; [lra|].
      split; [|split; intros E; discriminate E].
      intros q E. injection E as <-.
      rewrite (Q.max_r 0 p), (Q.min_l 1 p) by lra. reflexivity.
    + change (Qle_bool 0 0) with true. change (Qle_bool 1 0) with false.
      cbn [negb]. split; [reflexivity|]. exists 0.
      split; [reflexivity|]. split; [lra|]. split; [lra|].
      split; [|split; intros E; discriminate E].
      intros q E. injection E as <-.
      rewrite (Q.max_l 0 p), (Q.min_r 1 0) by lra. reflexivity.
    + split; [reflexivity|]. exists p.
      split; [reflexivity|]. split; [lra|]. split; [lra|].
      split; [|split; intros E; discriminate E].
      intros q E. injection E as <-.
      rewrite (Q.max_r 0 p), (Q.min_r 1 p) by lra. reflexivity.
Qed.

(** C10, amended.  For every argument other than [NaN], the two
    infinities among them, [seek] publishes the argument clamped to
    [[0, 1]], in the state and in the ref alike, and, when the
    scheduler has an audio context, moves the start time to
    [now - clamped * loopDuration]; without one the start time stays.
    The loop count, the calls made and the frame that is pending are
    left as they were. *)
Theorem seek_clamps (audioContext : option Q) (position : number) a :
  Number.isNaN position = false ->
  let a' := seek rhythm audioContext position a in
  let clamped := Number.min (Num 1) (Number.max (Num 0) position) in
  (exists c,
     clamped = Num c /\ 0 <= c /\ c <= 1 /\
     (forall p, position = Num p -> c == Qmin 1 (Qmax 0 p)) /\
     (position = Infinity false -> c = 1) /\
     (position = Infinity true -> c = 0)) /\
  playhead a' = clamped /\
  playheadRef a' = clamped /\
  startTimeRef a'
  = match audioContext with
    | Some now =>
        Some (Number.sub (ofQ now)
                (Number.mul clamped (getLoopDuration rhythm a)))
    | None => startTimeRef a
    end /\
  lastLoopCountRef a' = lastLoopCountRef a /\
  loopRestarts a' = loopRestarts a /\
  rafRef a' = rafRef a.
Proof.
  intros Hn. cbn zeta.
  destruct (clamp_range position Hn) as [E Hc]. rewrite <- E.
  split; [exact Hc|].
  unfold seek. cbn [playhead playheadRef startTimeRef lastLoopCountRef
                    loopRestarts rafRef].
  repeat split; reflexivity.
Qed.

End LoopModeFacts.

Lemma loop_restart_once_per_wrap_witness :
  let clock := [1; 1.9; 2.1; 3; 3.9; 4.1; 5; 5.9; 6.1; 7] in
  let a := LoopMode.mount (Num 120) (Num 1) in
  let a0 := LoopMode.start (Some 0) a in
  LoopMode.lastLoopCountRef (LoopMode.frames Scenario.rhythm clock a0)
  = Num (inject_Z (Qfloor (double (double (double 7 + - double 0) / 2)))) /\
  LoopMode.loopRestarts (LoopMode.frames Scenario.rhythm clock a0) = 3%nat.
Proof.
  intros clock a a0.
  destruct (loop_restart_once_per_wrap Scenario.rhythm a 0 2 clock)
    as (_ & (_ & _ & Hlast) & Hsteps & _);
    [vm_compute; reflexivity | vm_compute; discriminate
    | vm_compute; discriminate | reflexivity | vm_compute; discriminate |].
  split; [exact Hlast|].
  destruct Hsteps as [_ Hcalls]; [vm_compute; reflexivity|].
  exact Hcalls.
Defined.

Lemma seek_clamps_witness :
  let a := LoopMode.start (Some 0) (LoopMode.mount (Num 120) (Num 1)) in
  LoopMode.playhead (LoopMode.seek Scenario.rhythm (Some 3) (Num 1.5) a)
  = Number.min (Num 1) (Number.max (Num 0) (Num 1.5)).
Proof.
  intros a.
  destruct (seek_clamps Scenario.rhythm (Some 3) (Num 1.5) a)
    as (_ & Hplayhead & _); [reflexivity|].
  exact Hplayhead.
Defined.
(** ** The audio service as a whole *)

Section BassAudioFacts.

Import AudioService BassAudio.

Variable config : AudioConfig.
Variable Math_pow : Q -> Q -> Q.

Lemma addSource_consistent src s : consistent s -> consistent (addSource src s).
Proof.
  unfold consistent, addSource. destruct (context s) as [ctx|]; cbn; auto.
Qed.

Lemma playSampleNote_returns string fret time s sample baseFreq :
  buffers_bass s = Some sample ->
  is_Some (masterGains_bass s) ->
  is_Some (context s) ->
  STRING_FREQUENCIES config !! string = Some baseFreq ->
  ~ bass_baseFrequency config == 0 ->
  0 <= time ->
  exists src,
    playSampleNote config Math_pow string fret time s
    = Returns (addSource src s) /\
    route src = Bass /\
    timeline (playbackRate src)
    = [SetValue
         (baseFreq * Math_pow 2 (inject_Z fret / 12) / bass_baseFrequency config)
         time].
Proof.
  intros Hbuf [g Hg] [ctx Hctx] Hfreq Hbase Htime.
  unfold playSampleNote. rewrite Hctx, Hbuf, Hg, Hfreq.
  destruct (Qeq_bool (bass_baseFrequency config) 0) eqn:E;
    [apply Qeq_bool_iff in E; contradiction|].
  unfold setValueAtTime, linearRampToValueAtTime,
    exponentialRampToValueAtTime, schedule, checkTime.
  cbn [eventTime Qeq_bool].
  destruct (Qlt_le_dec time 0) as [Hn|_]; [lra|].
  destruct (Qlt_le_dec (time + 0.05) 0) as [Hn|_]; [lra|].
  destruct (Qlt_le_dec (time + 0.5) 0) as [Hn|_]; [lra|].
  destruct (Qlt_le_dec (time + 0.6) 0) as [Hn|_]; [lra|].
  cbn. eexists. split; [reflexivity|]. cbn. split; reflexivity.
Qed.

Lemma playSampleMetronome_returns time isDownbeat isFirstOfBeat s sample :
  buffers_metronome_click s = Some sample ->
  is_Some (masterGains_metronome s) ->
  is_Some (context s) ->
  0 <= time ->
  playSampleMetronome time isDownbeat isFirstOfBeat s
  = Returns
      (addSource
         (mkSource sample (newParam 1)
            (mkParam 1 [SetValue (beatMultiplier isDownbeat isFirstOfBeat) time])
            MetronomeChannel time None) s).
Proof.
  intros Hbuf [g Hg] [ctx Hctx] Htime.
  unfold playSampleMetronome. rewrite Hbuf, Hg, Hctx.
  unfold setValueAtTime, schedule, checkTime. cbn [eventTime].
  destruct (Qlt_le_dec time 0) as [Hn|_]; [lra|]. reflexivity.
Qed.

Lemma consistent_with_context s ctx :
  context s = Some ctx ->
  consistent s <->
  0 <= currentTime ctx /\
  is_Some (masterGains_bass s) /\ is_Some (masterGains_metronome s).
Proof. intros E. unfold consistent. rewrite E. reflexivity. Qed.

Lemma consistent_without_context s :
  context s = None ->
  consistent s <->
  masterGains_bass s = None /\ masterGains_metronome s = None /\
  buffers_bass s = None /\ buffers_metronome_click s = None /\
  samplesLoaded s = false.
Proof. intros E. unfold consistent. rewrite E. reflexivity. Qed.

Lemma setBassVolume_returns volume v s ctx g :
  context s = Some ctx ->
  0 <= currentTime ctx ->
  masterGains_bass s = Some g ->
  toFloat volume = Some v ->
  exists s',
    setBassVolume volume s = Returns s' /\
    context s' = Some ctx /\
    masterGains_bass s'
    = Some (mkGain (mkParam v
                      (insertEvent (SetValue v (reading (currentTime ctx)))
                         (timeline (gain g))))) /\
    masterGains_metronome s' = masterGains_metronome s.
Proof.
  intros E Ht Hg Hv. unfold setBassVolume, overGain, get_currentTime.
  rewrite Hg, E.
  rewrite (setValue_returns _ volume v) by (try apply reading_nonneg; assumption).
  eexists. split; [reflexivity|]. cbn [context masterGains_bass
                                         masterGains_metronome]. auto.
Qed.

Lemma setMetronomeVolume_returns volume v s ctx g :
  context s = Some ctx ->
  0 <= currentTime ctx ->
  masterGains_metronome s = Some g ->
  toFloat volume = Some v ->
  exists s',
    setMetronomeVolume volume s = Returns s' /\
    context s' = Some ctx /\
    masterGains_metronome s'
    = Some (mkGain (mkParam v
                      (insertEvent (SetValue v (reading (currentTime ctx)))
                         (timeline (gain g))))) /\
    masterGains_bass s' = masterGains_bass s.
Proof.
  intros E Ht Hg Hv. unfold setMetronomeVolume, overGain, get_currentTime.
  rewrite Hg, E.
  rewrite (setValue_returns _ volume v) by (try apply reading_nonneg; assumption).
  eexists. split; [reflexivity|]. cbn [context masterGains_bass
                                         masterGains_metronome]. auto.
Qed.

Lemma call_consistent c s :
  ~ bass_baseFrequency config == 0 ->
  consistent s ->
  admissible config Math_pow c ->
  exists s', call config Math_pow c s = Returns s' /\ consistent s'.
Proof.
  intros Hbase Hs Hc.
  destruct (context s) as [ctx|] eqn:E.
  - pose proof (proj1 (consistent_with_context s ctx E) Hs)
      as (Ht & [gb Hb] & [gm Hm]).
    destruct c as [| |bass click|string fret time muted
                  |time isDownbeat isFirstOfBeat enabled|volume|volume|
                  |bassVolume metronomeVolume]; cbn [call].
    + exists s. unfold init. rewrite E. auto.
    + eexists. split; [reflexivity|]. unfold close. rewrite E.
      apply consistent_without_context; cbn; auto 6.
    + eexists. split; [reflexivity|].
      apply (consistent_with_context _ ctx).
      * unfold resume, loadSamples. rewrite E. destruct (samplesLoaded s); auto.
      * unfold resume, loadSamples. rewrite E.
        destruct (samplesLoaded s); cbn; rewrite ?Hb, ?Hm; eauto.
    + unfold playSound. rewrite E. destruct muted; [eauto|].
      destruct (buffers_bass s) as [sample|] eqn:Eb; [|eauto].
      destruct Hc as [Hc|(Htime & rate & Hrate & _)]; [discriminate|].
      unfold rateOf in Hrate.
      destruct (STRING_FREQUENCIES config !! string) as [baseFreq|] eqn:Hfreq;
        [|discriminate Hrate].
      destruct (playSampleNote_returns string fret time s sample baseFreq)
        as (src & -> & _); eauto.
      eexists. split; [reflexivity|]. apply addSource_consistent, Hs.
    + unfold playMetronomeClick. rewrite E. destruct enabled; [|eauto].
      destruct (buffers_metronome_click s) as [sample|] eqn:Eb; [|eauto].
      destruct Hc as [Hc|Htime]; [discriminate|].
      rewrite (playSampleMetronome_returns _ _ _ _ sample); eauto.
      eexists. split; [reflexivity|]. apply addSource_consistent, Hs.
    + destruct Hc as [v Hv].
      destruct (setBassVolume_returns volume v s ctx gb E Ht Hb Hv)
        as (s' & -> & Hctx' & Hb' & Hm').
      exists s'. split; [reflexivity|].
      apply (consistent_with_context _ ctx Hctx'). rewrite Hb', Hm', Hm.
      eauto.
    + destruct Hc as [v Hv].
      destruct (setMetronomeVolume_returns volume v s ctx gm E Ht Hm Hv)
        as (s' & -> & Hctx' & Hm' & Hb').
      exists s'. split; [reflexivity|].
      apply (consistent_with_context _ ctx Hctx'). rewrite Hm', Hb', Hb.
      eauto.
    + unfold stopAllSounds, whenPresent. rewrite E, Hb, Hm.
      cbv beta iota zeta.
      rewrite !rampToSilence_returns
        by first [apply reading_nonneg; exact Ht
                 |apply rampEnd_reading; exact Ht].
      eexists. split; [reflexivity|].
      apply (consistent_with_context _ ctx); cbn; eauto.
    + destruct Hc as [[vb Hvb] [vm Hvm]].
      destruct (setBassVolume_returns bassVolume vb s ctx gb E Ht Hb Hvb)
        as (s1 & E1 & Hctx1 & Hb1 & Hm1).
      rewrite Hm in Hm1.
      destruct (setMetronomeVolume_returns metronomeVolume vm s1 ctx gm
                  Hctx1 Ht Hm1 Hvm)
        as (s2 & E2 & Hctx2 & Hm2 & Hb2).
      exists s2. unfold restoreVolumes. rewrite E1. cbn [outcome_bind].
      split; [exact E2|].
      apply (consistent_with_context _ ctx Hctx2). rewrite Hm2, Hb2, Hb1.
      eauto.
  - pose proof (proj1 (consistent_without_context s E) Hs)
      as (Hb & Hm & Hbb & Hbc & Hl).
    destruct c as [| |bass click|string fret time muted
                  |time isDownbeat isFirstOfBeat enabled|volume|volume|
                  |bassVolume metronomeVolume]; cbn [call].
    + eexists. split; [reflexivity|]. unfold init. rewrite E.
      apply (consistent_with_context _ (mkContext 0 [])); cbn; eauto.
      split; [lra|eauto].
    + exists s. unfold close. rewrite E. auto.
    + eexists. split; [reflexivity|]. unfold resume, loadSamples.
      rewrite Hl, E. apply consistent_without_context; cbn; auto 6.
    + exists s. unfold playSound. rewrite E. auto.
    + exists s. unfold playMetronomeClick. rewrite E. auto.
    + exists s. unfold setBassVolume. rewrite Hb. auto.
    + exists s. unfold setMetronomeVolume. rewrite Hm. auto.
    + exists s. unfold stopAllSounds. rewrite E. auto.
    + exists s. unfold restoreVolumes, setBassVolume. rewrite Hb.
      cbn [mbind outcome_bind]. unfold setMetronomeVolume. rewrite Hm. auto.
Qed.

(** X1.  Calls in any number and order, made on a service in a
    consistent state with arguments the platform accepts, never end in
    an exception, and the state stays consistent. *)
Theorem calls_never_throw (cs : list Call) s :
  ~ bass_baseFrequency config == 0 ->
  consistent s ->
  Forall (admissible config Math_pow) cs ->
  exists s', calls config Math_pow cs s = Returns s' /\ consistent s'.
Proof.
  intros Hbase Hs Hcs. revert s Hs.
  induction Hcs as [|c cs Hc _ IH]; intros s Hs; [exists s; auto|].
  destruct (call_consistent c s Hbase Hs Hc) as (s1 & E1 & Hs1).
  destruct (IH s1 Hs1) as (s' & E' & Hs').
  exists s'. cbn [calls]. rewrite E1. auto.
Qed.

(** X2.  [close] on a service that has a context puts back the state
    the constructor made, so the samples are gone with the context.
    Until [init] is called again every method leaves that state alone
    and returns; [resume] alone raises [isReady], without loading
    anything. *)
Theorem close_shuts_down s ctx :
  context s = Some ctx ->
  close s = constructor /\
  close (close s) = close s /\
  init (close s) = Scenario.unloaded /\
  forall c,
    call config Math_pow c (close s)
    = Returns
        match c with
        | Mount => Scenario.unloaded
        | Resume _ _ => mkService None true None None None None false
        | _ => constructor
        end.
Proof.
  intros E. assert (Hc : close s = constructor) by (unfold close; rewrite E; reflexivity).
  rewrite Hc. repeat split.
  intros c. destruct c; reflexivity.
Qed.

(** X3.  The first [resume] on a service with a context settles the
    samples for the life of that context: the buffers are what the two
    fetches answered, failed ones included, and a later [resume] changes
    nothing, whatever its fetches would answer. *)
Theorem resume_loads_once bass1 click1 bass2 click2 s ctx :
  context s = Some ctx ->
  samplesLoaded s = false ->
  let s1 := resume bass1 click1 s in
  buffers_bass s1 = bass1 /\
  buffers_metronome_click s1 = click1 /\
  isReady s1 = true /\
  resume bass2 click2 s1 = s1.
Proof.
  intros E Hl. unfold resume, loadSamples. rewrite Hl, E. cbn. auto.
Qed.

(** X4.  On a service that is ready to play, a note on a string that is
    missing from the frequency table ends in an exception, unless it is
    muted: a muted note returns before the table is looked at. *)
Theorem playSound_unknown_string string fret time s :
  is_Some (context s) ->
  is_Some (buffers_bass s) ->
  is_Some (masterGains_bass s) ->
  STRING_FREQUENCIES config !! string = None ->
  playSound config Math_pow string fret time false s = Throws /\
  playSound config Math_pow string fret time true s = Returns s.
Proof.
  intros [ctx E] [sample Eb] [g Eg] Hfreq.
  unfold playSound, playSampleNote. rewrite E, Eb, Eg, Hfreq. auto.
Qed.

(** X5.  An enabled click on a service that is ready to play creates one
    source on the metronome channel, started at the scheduled time and
    never stopped, whose gain is pinned at the beat's multiplier; a
    disabled click creates nothing.  The multiplier is positive, reaches
    1 exactly for the first subdivision of a beat and 1.4 exactly when
    that beat is also the downbeat. *)
Theorem playMetronomeClick_dynamics time isDownbeat isFirstOfBeat s sample :
  is_Some (context s) ->
  buffers_metronome_click s = Some sample ->
  is_Some (masterGains_metronome s) ->
  0 <= time ->
  playMetronomeClick time isDownbeat isFirstOfBeat true s
  = Returns
      (addSource
         (mkSource sample (newParam 1)
            (mkParam 1 [SetValue (beatMultiplier isDownbeat isFirstOfBeat) time])
            MetronomeChannel time None) s) /\
  playMetronomeClick time isDownbeat isFirstOfBeat false s = Returns s /\
  0 < beatMultiplier isDownbeat isFirstOfBeat /\
  (1 <= beatMultiplier isDownbeat isFirstOfBeat <-> isFirstOfBeat = true) /\
  (beatMultiplier isDownbeat isFirstOfBeat == 1.4
   <-> isDownbeat = true /\ isFirstOfBeat = true).
Proof.
  intros [ctx E] Eb Hg Ht. split.
  { unfold playMetronomeClick. rewrite E, Eb.
    apply playSampleMetronome_returns; eauto. }
  split; [unfold playMetronomeClick; rewrite E; reflexivity|].
  destruct isDownbeat, isFirstOfBeat; cbn;
    (split; [reflexivity|]); split; split;
    try (intros; reflexivity); try (intros; discriminate);
    try (intros [? ?]; discriminate); auto.
Qed.

Lemma insertEvent_app e l l' :
  Forall (fun x => eventTime x <= eventTime e) l ->
  insertEvent e (l ++ l') = l ++ insertEvent e l'.
Proof.
  induction 1 as [|x l Hx _ IH]; cbn [app insertEvent]; [reflexivity|].
  apply Qle_bool_iff in Hx. rewrite Hx, IH. reflexivity.
Qed.

(** The timeline of a gain that was muted when the clock read [t0] and
    written to when it read [t1]. *)
Lemma restored_timeline_facts (t0 t1 r v0 v b : Q) (l : list AutomationEvent) :
  t0 <= t1 ->
  let p :=
    mkParam b
      (insertEvent (SetValue v t1)
         (List.filter (before t0) l ++ [SetValue v0 t0; LinearRamp 0 r])) in
  (t1 < r -> finalValue p = 0 /\ pendingRamps t1 p = [LinearRamp 0 r]) /\
  (r <= t1 -> finalValue p = v).
Proof.
  intros Hle. cbn zeta.
  assert (Hpast : Forall (fun x => eventTime x <= t1)
                    (List.filter (before t0) l)).
  { eapply List.Forall_impl; [|apply filter_before_Forall]. cbn. intros; lra. }
  unfold finalValue, pendingRamps. cbn [timeline value].
  rewrite (insertEvent_app (SetValue v t1)) by exact Hpast.
  cbn [insertEvent eventTime].
  replace (Qle_bool t0 t1) with true by (symmetry; apply Qle_bool_iff; exact Hle).
  split.
  - intros Hin.
    replace (Qle_bool r t1) with false by (symmetry; apply Qle_bool_false; exact Hin).
    split.
    + change [SetValue v0 t0; SetValue v t1; LinearRamp 0 r]
        with ([SetValue v0 t0; SetValue v t1] ++ [LinearRamp 0 r]).
      rewrite app_assoc, last_snoc. reflexivity.
    + rewrite List.filter_app. cbn [List.filter isRamp eventTime andb].
      replace (Qle_bool t1 r) with true
        by (symmetry; apply Qle_bool_iff; lra).
      rewrite filter_none; [reflexivity|].
      intros x Hx. apply List.filter_In in Hx. destruct Hx as [_ Hx].
      apply before_lt in Hx. apply andb_false_iff. right.
      apply Qle_bool_false. lra.
  - intros Hout.
    replace (Qle_bool r t1) with true by (symmetry; apply Qle_bool_iff; exact Hout).
    change [SetValue v0 t0; LinearRamp 0 r; SetValue v t1]
      with ([SetValue v0 t0; LinearRamp 0 r] ++ [SetValue v t1]).
    rewrite app_assoc, last_snoc. reflexivity.
Qed.

(** X7.  [restoreVolumes] does not take back what [stopAllSounds]
    scheduled.  It stores the two levels, but when it is called before
    the clock has reached the end of the 10 ms ramp, the ramp is still
    pending on either gain and the automation still ends at 0: the
    sound stays off.  Called once the ramp is over, it leaves the
    automation at the levels it stored. *)
Theorem restoreVolumes_keeps_mute_ramp s ctx gb gm (t1 : Q) b m vb vm :
  context s = Some ctx ->
  0 <= currentTime ctx ->
  masterGains_bass s = Some gb ->
  masterGains_metronome s = Some gm ->
  currentTime ctx <= t1 ->
  toFloat b = Some vb ->
  toFloat m = Some vm ->
  let over := rampEnd (reading (currentTime ctx)) in
  exists s1 s2 pb pm,
    stopAllSounds s = Returns s1 /\
    restoreVolumes b m (clockReads t1 s1) = Returns s2 /\
    bassGain s2 = Some pb /\ metronomeGain s2 = Some pm /\
    value pb = vb /\ value pm = vm /\
    (reading t1 < over ->
     (finalValue pb = 0 /\ finalValue pm = 0) /\
     pendingRamps (reading t1) pb = [LinearRamp 0 over] /\
     pendingRamps (reading t1) pm = [LinearRamp 0 over]) /\
    (over <= reading t1 -> finalValue pb = vb /\ finalValue pm = vm).
Proof.
  intros E Ht Hb Hm Hle Hvb Hvm over.
  pose proof (reading_nonneg _ Ht) as Hr0.
  pose proof (rampEnd_reading _ Ht) as Hr1. fold over in Hr1.
  assert (Hrle : reading (currentTime ctx) <= reading t1)
    by (apply double_mono; exact Hle).
  assert (Hstop : exists s1,
            stopAllSounds s = Returns s1 /\
            context s1 = Some ctx /\
            masterGains_bass s1
            = Some (mkGain (mkParam (value (gain gb))
                (List.filter (before (reading (currentTime ctx)))
                   (timeline (gain gb))
                 ++ [SetValue (value (gain gb)) (reading (currentTime ctx));
                     LinearRamp 0 over]))) /\
            masterGains_metronome s1
            = Some (mkGain (mkParam (value (gain gm))
                (List.filter (before (reading (currentTime ctx)))
                   (timeline (gain gm))
                 ++ [SetValue (value (gain gm)) (reading (currentTime ctx));
                     LinearRamp 0 over])))).
  { unfold stopAllSounds, whenPresent. rewrite E, Hb, Hm.
    cbv beta iota zeta. rewrite !rampToSilence_returns by assumption.
    eexists. split; [reflexivity|]. cbn [context masterGains_bass
                                           masterGains_metronome mbind
                                           outcome_bind]. auto. }
  destruct Hstop as (s1 & Es1 & Hc1 & Hb1 & Hm1).
  set (s1' := clockReads t1 s1).
  assert (Hc1' : context s1' = Some (mkContext t1 (sources ctx))).
  { unfold s1', clockReads. cbn [context]. rewrite Hc1. reflexivity. }
  assert (Ht1 : 0 <= t1) by lra.
  destruct (setBassVolume_returns b vb s1' _ _ Hc1' Ht1 Hb1 Hvb)
    as (sa & Ea & Hca & Hba & Hma).
  change (masterGains_metronome s1') with (masterGains_metronome s1) in Hma.
  rewrite Hm1 in Hma.
  destruct (setMetronomeVolume_returns m vm sa _ _ Hca Ht1 Hma Hvm)
    as (s2 & E2 & _ & Hm2 & Hb2).
  rewrite Hba in Hb2.
  cbn [currentTime gain timeline] in Hb2, Hm2.
  exists s1, s2. eexists _, _.
  split; [exact Es1|]. split.
  { unfold restoreVolumes. fold s1'. rewrite Ea. exact E2. }
  unfold bassGain, metronomeGain. rewrite Hb2, Hm2.
  split; [reflexivity|]. split; [reflexivity|].
  split; [reflexivity|]. split; [reflexivity|].
  destruct (restored_timeline_facts (reading (currentTime ctx)) (reading t1)
              over (value (gain gb)) vb vb (timeline (gain gb)) Hrle)
    as [Hin_b Hout_b].
  destruct (restored_timeline_facts (reading (currentTime ctx)) (reading t1)
              over (value (gain gm)) vm vm (timeline (gain gm)) Hrle)
    as [Hin_m Hout_m].
  split.
  - intros Hin. destruct (Hin_b Hin) as [? ?]. destruct (Hin_m Hin) as [? ?].
    auto.
  - intros Hout. split; [apply Hout_b|apply Hout_m]; exact Hout.
Qed.

End BassAudioFacts.

Lemma calls_never_throw_witness :
  exists s',
    BassAudio.calls Scenario.config Scenario.wholePow
      [BassAudio.Mount;
       BassAudio.Resume (Some (mkBuffer 1)) None;
       BassAudio.PlaySound "E" 12 0 false;
       BassAudio.PlayMetronomeClick 0.5 true true true;
       BassAudio.StopAllSounds;
       BassAudio.RestoreVolumes (Num 0.7) (Num 0.5);
       BassAudio.Unmount;
       BassAudio.PlaySound "E" 3 1 false]
      AudioService.constructor
    = Returns s' /\ BassAudio.consistent s'.
Proof.
  apply (calls_never_throw Scenario.config Scenario.wholePow).
  - vm_compute. discriminate.
  - vm_compute. auto 6.
  - repeat (apply List.Forall_cons; [cbn [BassAudio.admissible]|]);
      try apply List.Forall_nil; try exact I.
    + right. split; [lra|]. eexists. split; [reflexivity|].
      vm_compute. eexists. reflexivity.
    + right. lra.
    + split; vm_compute; eexists; reflexivity.
    + right. split; [lra|]. eexists. split; [reflexivity|].
      vm_compute. eexists. reflexivity.
Defined.

Lemma close_shuts_down_witness :
  AudioService.close Scenario.loaded = AudioService.constructor /\
  BassAudio.call Scenario.config Scenario.wholePow
    (BassAudio.PlayMetronomeClick 0 true true true)
    (AudioService.close Scenario.loaded)
  = Returns AudioService.constructor.
Proof.
  destruct (close_shuts_down Scenario.config Scenario.wholePow
              Scenario.loaded (mkContext 0 []) eq_refl)
    as (Hclose & _ & _ & Hcalls).
  split; [exact Hclose|].
  exact (Hcalls (BassAudio.PlayMetronomeClick 0 true true true)).
Defined.

Lemma resume_loads_once_witness :
  let s1 := AudioService.resume None (Some (mkBuffer 2)) Scenario.unloaded in
  AudioService.buffers_bass s1 = None /\
  AudioService.resume (Some (mkBuffer 1)) (Some (mkBuffer 2)) s1 = s1.
Proof.
  destruct (resume_loads_once None (Some (mkBuffer 2))
              (Some (mkBuffer 1)) (Some (mkBuffer 2))
              Scenario.unloaded (mkContext 0 []) eq_refl eq_refl)
    as (Hbass & _ & _ & Hagain).
  split; [exact Hbass | exact Hagain].
Defined.

Lemma playSound_unknown_string_witness :
  AudioService.playSound Scenario.config Scenario.wholePow "B" 3 0 false
    Scenario.loaded = Throws /\
  AudioService.playSound Scenario.config Scenario.wholePow "B" 3 0 true
    Scenario.loaded = Returns Scenario.loaded.
Proof.
  apply (playSound_unknown_string Scenario.config Scenario.wholePow
           "B" 3 0 Scenario.loaded);
    [eexists; reflexivity | eexists; reflexivity | eexists; reflexivity
    | reflexivity].
Defined.

Lemma playMetronomeClick_dynamics_witness :
  AudioService.playMetronomeClick 0.5 true true true Scenario.loaded
  = Returns
      (AudioService.addSource
         (mkSource (mkBuffer 2) (newParam 1)
            (mkParam 1 [SetValue 1.4 0.5]) MetronomeChannel 0.5 None)
         Scenario.loaded).
Proof.
  apply (playMetronomeClick_dynamics 0.5 true true Scenario.loaded (mkBuffer 2));
    [eexists; reflexivity | reflexivity | eexists; reflexivity
    | vm_compute; discriminate].
Defined.

Lemma restoreVolumes_keeps_mute_ramp_witness :
  exists s1 s2 pb,
    AudioService.stopAllSounds Scenario.loaded = Returns s1 /\
    AudioService.restoreVolumes (Num 0.5) (Num 0.25)
      (AudioService.clockReads 0.005 s1) = Returns s2 /\
    AudioService.bassGain s2 = Some pb /\
    value pb = 1 # 2 /\ finalValue pb = 0.
Proof.
  destruct (restoreVolumes_keeps_mute_ramp Scenario.loaded (mkContext 0 [])
              (AudioService.createGain 0 0.7) (AudioService.createGain 0 0.5)
              0.005 (Num 0.5) (Num 0.25) (1 # 2) (1 # 4))
    as (s1 & s2 & pb & pm & Hstop & Hrestore & Hb & _ & Hvb & _ & Hin & _);
    [reflexivity | vm_compute; discriminate | reflexivity | reflexivity
    | vm_compute; discriminate | vm_compute; reflexivity
    | vm_compute; reflexivity |].
  exists s1, s2, pb.
  split; [exact Hstop|]. split; [exact Hrestore|]. split; [exact Hb|].
  split; [exact Hvb|].
  destruct Hin as [[Hfb _] _]; [vm_compute; reflexivity|]. exact Hfb.
Defined.
(** ** More on the metronome *)

Section MetronomeMore.

Import Metronome Beats.

Implicit Types (r : Render) (h : Hook).

Lemma length_filter_app {A : Type} (f : A -> bool) (l1 l2 : list A) :
  length (List.filter f (l1 ++ l2))
  = (length (List.filter f l1) + length (List.filter f l2))%nat.
Proof. rewrite List.filter_app, length_app. reflexivity. Qed.

Lemma emitBeat_hats r h : hatsHeard (emitBeat r h) = S (hatsHeard h).
Proof.
  unfold hatsHeard, emitBeat. destruct (r_isPreRoll r).
  - destruct (_ >=? _)%Z; cbn [heard]; rewrite length_filter_app; cbn; lia.
  - cbn [heard]. rewrite length_filter_app. cbn. lia.
Qed.

Lemma turns_hats n r h :
  hatsHeard (Nat.iter n (emitBeat r) h) = (hatsHeard h + n)%nat.
Proof.
  induction n as [|n IH]; [cbn; lia|].
  rewrite Nat.iter_succ, emitBeat_hats, IH. lia.
Qed.

(** *** A closure made while [isPreRoll] was true *)

Lemma emitBeat_preRoll r h :
  r_isPreRoll r = true ->
  (1 <= r_timeSignature r)%Z ->
  (0 <= preRollCountRef h < r_timeSignature r)%Z ->
  let wraps := (preRollCountRef h + 1 =? r_timeSignature r)%Z in
  preRollCountRef (emitBeat r h)
    = (if wraps then 0 else preRollCountRef h + 1)%Z /\
  preRollBeat (emitBeat r h) = (preRollCountRef h + 1)%Z /\
  completionsFired (emitBeat r h)
    = (completionsFired h + if wraps then 1 else 0)%nat /\
  preRollBeatsHeard (emitBeat r h) = S (preRollBeatsHeard h).
Proof.
  intros Hmode Hsig Hc. cbn zeta.
  unfold emitBeat, completionsFired, preRollBeatsHeard, DEFAULT_preRollBars.
  rewrite Hmode.
  destruct (preRollCountRef h + 1 =? r_timeSignature r)%Z eqn:E.
  - apply Z.eqb_eq in E.
    replace (preRollCountRef h + 1 >=? r_timeSignature r * 1)%Z with true
      by (symmetry; apply Z.geb_le; lia).
    cbn [preRollCountRef preRollBeat heard].
    rewrite !length_filter_app. cbn. repeat split; lia.
  - apply Z.eqb_neq in E.
    replace (preRollCountRef h + 1 >=? r_timeSignature r * 1)%Z with false
      by (symmetry; rewrite Z.geb_leb; apply Z.leb_gt; lia).
    cbn [preRollCountRef preRollBeat heard].
    rewrite !length_filter_app. cbn. repeat split; lia.
Qed.

(** X8.  A closure that was made while [isPreRoll] was true counts in
    for ever, in rounds of [timeSignature] beats: every beat is a
    count-in hi-hat, [preRollCountRef] runs round 0 .. timeSignature - 1,
    and [onPreRollComplete] has been called once for every round that is
    full. *)
Theorem preRoll_closure_cycles r h (n : nat) :
  r_isPreRoll r = true ->
  (1 <= r_timeSignature r)%Z ->
  (0 <= preRollCountRef h < r_timeSignature r)%Z ->
  let hn := Nat.iter n (emitBeat r) h in
  let beats := (preRollCountRef h + Z.of_nat n)%Z in
  preRollCountRef hn = (beats mod r_timeSignature r)%Z /\
  completionsFired hn
    = (completionsFired h + Z.to_nat (beats / r_timeSignature r))%nat /\
  preRollBeatsHeard hn = (preRollBeatsHeard h + n)%nat.
Proof.
  intros Hmode Hsig Hc. cbn zeta.
  induction n as [|n (IHc & IHf & IHp)].
  - cbn [Nat.iter nat_rect]. rewrite Z.add_0_r.
    rewrite Z.mod_small, Z.div_small by lia. repeat split; lia.
  - rewrite Nat.iter_succ.
    set (hn := Nat.iter n (emitBeat r) h) in *.
    set (ts := r_timeSignature r) in *.
    set (beats := (preRollCountRef h + Z.of_nat n)%Z) in *.
    assert (Hrange : (0 <= preRollCountRef hn < ts)%Z).
    { rewrite IHc. apply Z.mod_pos_bound. lia. }
    destruct (emitBeat_preRoll r hn Hmode Hsig Hrange) as (Ec & _ & Ef & Ep).
    fold ts in Ec, Ef.
    rewrite Ec, Ef, Ep, IHc, IHf, IHp.
    replace (preRollCountRef h + Z.of_nat (S n))%Z with (beats + 1)%Z by lia.
    pose proof (Z.div_mod beats ts ltac:(lia)) as Hdm.
    pose proof (Z.mod_pos_bound beats ts ltac:(lia)) as Hm.
    assert (Hq : (0 <= beats / ts)%Z) by (apply Z.div_pos; lia).
    destruct (beats mod ts + 1 =? ts)%Z eqn:E.
    + apply Z.eqb_eq in E.
      assert (Hd : ((beats + 1) / ts = beats / ts + 1)%Z).
      { symmetry. apply (Z.div_unique _ _ _ 0); lia. }
      assert (Hr : ((beats + 1) mod ts = 0)%Z).
      { symmetry. apply (Z.mod_unique _ _ (beats / ts + 1)); lia. }
      rewrite Hd, Hr. repeat split; lia.
    + apply Z.eqb_neq in E.
      assert (Hd : ((beats + 1) / ts = beats / ts)%Z).
      { symmetry. apply (Z.div_unique _ _ _ (beats mod ts + 1)); lia. }
      assert (Hr : ((beats + 1) mod ts = beats mod ts + 1)%Z).
      { symmetry. apply (Z.mod_unique _ _ (beats / ts)); lia. }
      rewrite Hd, Hr. repeat split; lia.
Qed.

(** *** What one call of the scheduler plays *)

Lemma turns_nextBeatTime n r h :
  nextBeatTimeRef (Nat.iter n (emitBeat r) h)
  = beatTime r (nextBeatTimeRef h) n.
Proof.
  unfold beatTime. induction n as [|n IH]; [reflexivity|].
  rewrite !Nat.iter_succ, emitBeat_nextBeatTime, IH. reflexivity.
Qed.

Lemma beatTime_nonneg r first k :
  0 <= secondsPerBeat r -> 0 <= first -> 0 <= beatTime r first k.
Proof.
  intros Hs H. unfold beatTime. induction k as [|k IH]; [exact H|].
  rewrite Nat.iter_succ. apply double_nonneg. lra.
Qed.

Lemma beatTime_add r first j k :
  beatTime r (beatTime r first k) j = beatTime r first (k + j).
Proof.
  unfold beatTime. rewrite (Nat.add_comm k j), Nat.iter_add. reflexivity.
Qed.

Lemma scheduleLoop_hats fuel r now h :
  (hatsHeard h <= hatsHeard (scheduleLoop fuel r now h))%nat.
Proof.
  revert h. induction fuel as [|fuel IH]; intros h; cbn [scheduleLoop]; [lia|].
  destruct (Qlt_le_dec _ _); [|lia].
  specialize (IH (emitBeat r h)). rewrite emitBeat_hats in IH. lia.
Qed.

Lemma beatsDue_pos r now h :
  0 < secondsPerBeat r -> nextBeatTimeRef h < lookAhead now ->
  beatsDue r now h <> O.
Proof.
  intros Hs Hin. unfold beatsDue.
  set (q := 2 * (lookAhead now - nextBeatTimeRef h) / secondsPerBeat r).
  assert (Hq : 0 < q) by (unfold q; apply Qlt_shift_div_l; lra).
  pose proof (Qle_ceiling q) as Hc.
  assert (Hc' : (0 < Qceiling q)%Z).
  { rewrite Zlt_Qlt. change (inject_Z 0) with 0. lra. }
  lia.
Qed.

Lemma scheduleLoop_isPlaying fuel r now h :
  isPlaying (scheduleLoop fuel r now h) = isPlaying h.
Proof.
  revert h. induction fuel as [|fuel IH]; intros h; cbn; [reflexivity|].
  destruct (Qlt_le_dec _ _); [|reflexivity]. rewrite IH.
  unfold emitBeat. destruct (r_isPreRoll r); [|reflexivity].
  destruct (_ >=? _)%Z; reflexivity.
Qed.

Lemma setTimeout_hats r h : hatsHeard (setTimeout r h) = hatsHeard h.
Proof. reflexivity. Qed.

Lemma scheduleNextBeat_timers r now h :
  timerIdRef (scheduleNextBeat r now h) = Some (nextTimerId h) /\
  timers (scheduleNextBeat r now h) = <[ nextTimerId h := r ]> (timers h) /\
  nextTimerId (scheduleNextBeat r now h) = Pos.succ (nextTimerId h) /\
  isPlaying (scheduleNextBeat r now h) = isPlaying h.
Proof.
  unfold scheduleNextBeat. rewrite setTimeout_isPlaying.
  destruct (setTimeout_timers r (scheduleLoop (beatsDue r now h) r now h))
    as (-> & -> & ->).
  destruct (scheduleLoop_timers (beatsDue r now h) r now h) as (-> & _ & ->).
  rewrite scheduleLoop_isPlaying. auto.
Qed.

Lemma scheduleNextBeat_plays r now h :
  0 < secondsPerBeat r -> nextBeatTimeRef h < lookAhead now ->
  (hatsHeard h < hatsHeard (scheduleNextBeat r now h))%nat.
Proof.
  intros Hs Hin. pose proof (beatsDue_pos r now h Hs Hin) as Hne.
  unfold scheduleNextBeat. rewrite setTimeout_hats.
  destruct (beatsDue r now h) as [|n]; [congruence|].
  cbn [scheduleLoop].
  destruct (Qlt_le_dec (nextBeatTimeRef h) (lookAhead now)) as [_|Hge]; [|lra].
  pose proof (scheduleLoop_hats n r now (emitBeat r h)) as Hle.
  rewrite emitBeat_hats in Hle. lia.
Qed.

Lemma scheduleNextBeat_idle r now h :
  lookAhead now <= nextBeatTimeRef h ->
  hatsHeard (scheduleNextBeat r now h) = hatsHeard h.
Proof.
  intros Hout. unfold scheduleNextBeat. rewrite setTimeout_hats.
  rewrite scheduleLoop_idle by exact Hout. reflexivity.
Qed.

Lemma start_timers r (b : bool) now h :
  timerIdRef (start r b now h) = Some (nextTimerId h) /\
  timers (start r b now h) = <[ nextTimerId h := r ]> (timers h) /\
  nextTimerId (start r b now h) = Pos.succ (nextTimerId h).
Proof.
  unfold start.
  match goal with
  | |- context [scheduleNextBeat r now ?h0] =>
      destruct (scheduleNextBeat_timers r now h0) as (-> & -> & -> & _)
  end.
  cbn [nextTimerId timers]. auto.
Qed.

Lemma stop_timers h id :
  timerIdRef h = Some id ->
  timers (stop h) = delete id (timers h) /\
  nextTimerId (stop h) = nextTimerId h /\
  nextBeatTimeRef (stop h) = nextBeatTimeRef h /\
  hatsHeard (stop h) = hatsHeard h.
Proof.
  intros E. unfold stop, hatsHeard. cbn [timers nextTimerId nextBeatTimeRef heard].
  rewrite E. auto.
Qed.

(** The timer [id], the only one on the table, comes due: its callback
    runs on a hook whose table is empty. *)
Lemma fire_singleton id r now h :
  timers h = {[ id := r ]} ->
  exists idle,
    fire id now h = scheduleNextBeat r now idle /\
    timers idle = ∅ /\
    nextTimerId idle = nextTimerId h /\
    isPlaying idle = isPlaying h /\
    nextBeatTimeRef idle = nextBeatTimeRef h /\
    hatsHeard idle = hatsHeard h.
Proof.
  intros Ht. unfold fire. rewrite Ht, lookup_singleton_eq.
  eexists. split; [reflexivity|].
  split; [cbn [timers]; apply delete_singleton_eq|].
  unfold hatsHeard. cbn [nextTimerId isPlaying nextBeatTimeRef heard]. auto.
Qed.

Lemma scheduleNextBeat_beats r now h :
  pow2 (-20) <= r_tempo r -> r_tempo r <= pow2 20 -> now <= pow2 35 ->
  0 <= nextBeatTimeRef h ->
  let h' := scheduleNextBeat r now h in
  exists m : nat,
    hatsHeard h' = (hatsHeard h + m)%nat /\
    nextBeatTimeRef h' = beatTime r (nextBeatTimeRef h) m /\
    lookAhead now <= nextBeatTimeRef h' /\
    (forall j, (j < m)%nat -> beatTime r (nextBeatTimeRef h) j < lookAhead now).
Proof.
  intros Hl Hu Hnow H0 h'.
  destruct (scheduleLoop_exit r now h Hl Hu Hnow H0) as (m & Hrun & Hout & Hin).
  assert (Hh : h' = setTimeout r (Nat.iter m (emitBeat r) h)).
  { unfold h', scheduleNextBeat. rewrite Hrun. reflexivity. }
  exists m. rewrite Hh, setTimeout_hats, setTimeout_nextBeatTime.
  rewrite turns_hats. split; [reflexivity|].
  split; [apply turns_nextBeatTime|]. split; [exact Hout|].
  intros j Hj. rewrite <- turns_nextBeatTime. apply Hin. exact Hj.
Qed.

(** The first beat of a [start] lies inside the window of the same
    clock reading, 0.05 s before its end. *)
Lemma window_bounds now :
  0 <= now -> now <= pow2 35 ->
  let first := double (double now + double 0.05) in
  (0 <= double now /\ double now <= pow2 35) /\
  (double now + 0.049 <= first /\ first <= double now + 0.051) /\
  (double now + 0.099 <= lookAhead now /\ lookAhead now <= double now + 0.101).
Proof.
  intros H0 Hu first.
  assert (Ha0 : 0 <= double now) by (apply double_nonneg; exact H0).
  assert (Ha1 : double now <= pow2 35).
  { assert (E : double (pow2 35) == pow2 35) by (vm_compute; reflexivity).
    apply Qle_trans with (double (pow2 35)); [|rewrite E; lra].
    apply double_mono. exact Hu. }
  assert (E35 : pow2 35 == 34359738368) by (vm_compute; reflexivity).
  assert (E17 : pow2 (-17) == 1 # 131072) by (vm_compute; reflexivity).
  assert (E36 : inject_Z (2 ^ 53) * pow2 (-17) == 68719476736)
    by (vm_compute; reflexivity).
  assert (Hc05 : 0.0499 <= double 0.05 /\ double 0.05 <= 0.0501)
    by (split; vm_compute; discriminate).
  assert (Hc1 : 0.0999 <= double 0.1 /\ double 0.1 <= 0.1001)
    by (split; vm_compute; discriminate).
  destruct (double_grid (double now + double 0.05) (-17)) as [Hf1 Hf2];
    [lia|lra|lra|].
  destruct (double_grid (double now + double 0.1) (-17)) as [Hw1 Hw2];
    [lia|lra|lra|].
  fold first in Hf1, Hf2. fold (lookAhead now) in Hw1, Hw2.
  split; [split; assumption|]. split; split; lra.
Qed.

(** X9.  [start] does not clear a timer that is already running.  After
    two [start]s in a row, [stop] stops the second scheduler only: the
    timer of the first is still on the table, and when it comes due the
    first scheduler re-arms itself while [isPlaying] reads false; it
    plays a beat exactly when the test of its loop finds the next beat
    time inside the look-ahead window. *)
Theorem second_start_orphans_a_timer r1 r2 b1 b2 now1 now2 h :
  timers h = ∅ ->
  let stopped := stop (start r2 b2 now2 (start r1 b1 now1 h)) in
  (timerIdRef stopped = None /\ isPlaying stopped = false /\
   timers stopped = {[ nextTimerId h := r1 ]}) /\
  forall now,
    let later := fire (nextTimerId h) now stopped in
    timerIdRef later = Some (nextTimerId stopped) /\
    timers later = {[ nextTimerId stopped := r1 ]} /\
    isPlaying later = false /\
    (pow2 (-20) <= r_tempo r1 -> r_tempo r1 <= pow2 20 ->
     nextBeatTimeRef stopped < lookAhead now ->
     (hatsHeard stopped < hatsHeard later)%nat) /\
    (lookAhead now <= nextBeatTimeRef stopped ->
     hatsHeard later = hatsHeard stopped).
Proof.
  intros He. cbn zeta.
  destruct (start_timers r1 b1 now1 h) as (Hid1 & Ht1 & Hn1).
  rewrite He, insert_empty in Ht1.
  generalize dependent (start r1 b1 now1 h). intros h1 Hid1 Ht1 Hn1.
  destruct (start_timers r2 b2 now2 h1) as (Hid2 & Ht2 & Hn2).
  rewrite Hn1 in Hid2, Ht2. rewrite Ht1 in Ht2.
  generalize dependent (start r2 b2 now2 h1). intros h2 Hid2 Ht2 Hn2.
  destruct (stop_timers h2 _ Hid2) as (Hts & Hns & Hbs & Hhs).
  rewrite Ht2, delete_insert_eq in Hts.
  rewrite delete_id in Hts by (apply lookup_singleton_ne; lia).
  split; [split; [reflexivity|]; split; [reflexivity|exact Hts]|].
  intros now.
  destruct (fire_singleton (nextTimerId h) r1 now (stop h2) Hts)
    as (idle & -> & Hidle & Hn & Hp & Hb & Hh).
  destruct (scheduleNextBeat_timers r1 now idle) as (-> & -> & _ & ->).
  rewrite Hidle, insert_empty, Hn, Hp, <- Hb, <- Hh.
  split; [reflexivity|]. split; [reflexivity|]. split; [reflexivity|].
  split.
  - intros Hl Hu Hdue. destruct (secondsPerBeat_bounds r1 Hl Hu) as [Hlo _].
    pose proof (pow2_pos (-15)).
    apply scheduleNextBeat_plays; [lra|exact Hdue].
  - apply scheduleNextBeat_idle.
Qed.

(** X10.  In normal mode, at a tempo of 1000 BPM at most and with the
    clock below 2^35 s, [start] itself plays the first beat: one
    accented hi-hat, no more, is out by the time [start] returns, the
    current beat reads 1, and the second beat is scheduled one beat
    after the first, which was due at [now + 0.05]. *)
Theorem start_plays_the_downbeat r (withPreRoll : bool) now h :
  r_isPreRoll r = false ->
  (1 <= r_timeSignature r)%Z ->
  pow2 (-20) <= r_tempo r -> r_tempo r <= 1000 ->
  0 <= now -> now <= pow2 35 ->
  let h' := start r withPreRoll now h in
  heard h' = heard h ++ [PlayHiHat true false] /\
  currentBeat h' = 1%Z /\
  beatCountRef h' = 1%Z /\
  nextBeatTimeRef h'
  = double (double (double now + double 0.05) + secondsPerBeat r) /\
  isPlaying h' = true /\
  isPreRoll h' = withPreRoll.
Proof.
  intros Hmode Hsig Hl Hu H0 Hnow. cbn zeta. unfold start.
  match goal with
  | |- context [scheduleNextBeat r now ?h0] => set (armed := h0)
  end.
  destruct (window_bounds now H0 Hnow) as ((Ha0 & Ha1) & (Hf1 & Hf2) & (Hw1 & Hw2)).
  set (first := double (double now + double 0.05)) in *.
  assert (E20 : 1000 <= pow2 20) by (vm_compute; discriminate).
  destruct (secondsPerBeat_bounds r Hl) as [Hlo Hhi]; [lra|].
  pose proof (pow2_pos (-15)) as Hp15.
  assert (Hspb : 0.0599 <= secondsPerBeat r).
  { unfold secondsPerBeat.
    assert (Ht : double (r_tempo r) <= 1000).
    { assert (E : double 1000 == 1000) by (vm_compute; reflexivity).
      apply Qle_trans with (double 1000); [|rewrite E; lra].
      apply double_mono. exact Hu. }
    assert (Ht1 : 0 < double (r_tempo r)).
    { assert (E : 0 < double (pow2 (-20))) by (vm_compute; reflexivity).
      apply Qlt_le_trans with (double (pow2 (-20))); [exact E|].
      apply double_mono. exact Hl. }
    assert (E : 0.0599 <= double 0.06) by (vm_compute; discriminate).
    apply Qle_trans with (double 0.06); [exact E|]. apply double_mono.
    apply Qle_shift_div_l; lra. }
  assert (E35 : pow2 35 == 34359738368) by (vm_compute; reflexivity).
  assert (E17 : pow2 (-17) == 1 # 131072) by (vm_compute; reflexivity).
  assert (E36 : inject_Z (2 ^ 53) * pow2 (-17) == 68719476736)
    by (vm_compute; reflexivity).
  assert (E26 : pow2 26 == 67108864) by (vm_compute; reflexivity).
  destruct (double_grid (first + secondsPerBeat r) (-17)) as [Hn1 _];
    [lia|lra|lra|].
  assert (Hloop : scheduleLoop (beatsDue r now armed) r now armed
                  = emitBeat r armed).
  { assert (Hin : nextBeatTimeRef armed < lookAhead now).
    { change (nextBeatTimeRef armed) with first. lra. }
    pose proof (beatsDue_pos r now armed ltac:(lra) Hin) as Hne.
    destruct (beatsDue r now armed) as [|n]; [congruence|].
    cbn [scheduleLoop].
    destruct (Qlt_le_dec (nextBeatTimeRef armed) (lookAhead now)) as [_|Hge];
      [|lra].
    apply scheduleLoop_idle. rewrite emitBeat_nextBeatTime.
    change (nextBeatTimeRef armed) with first. lra. }
  unfold scheduleNextBeat. rewrite Hloop, emitBeat_normal by exact Hmode.
  unfold remZ. cbn. rewrite Z.rem_0_l by lia. cbn. repeat split; reflexivity.
Qed.

(** *** A session keeps to its beat times *)

Lemma lookAhead_mono a b : a <= b -> lookAhead a <= lookAhead b.
Proof.
  intros H. unfold lookAhead. apply double_mono.
  pose proof (double_mono _ _ H). lra.
Qed.

Lemma tick_beats r t h id :
  pow2 (-20) <= r_tempo r -> r_tempo r <= pow2 20 -> t <= pow2 35 ->
  0 <= nextBeatTimeRef h ->
  timerIdRef h = Some id ->
  timers h = {[ id := r ]} ->
  exists m : nat,
    hatsHeard (tick t h) = (hatsHeard h + m)%nat /\
    nextBeatTimeRef (tick t h) = beatTime r (nextBeatTimeRef h) m /\
    lookAhead t <= nextBeatTimeRef (tick t h) /\
    (forall j, (j < m)%nat -> beatTime r (nextBeatTimeRef h) j < lookAhead t).
Proof.
  intros Hl Hu Ht H0 Hid Htm. unfold tick, fire.
  rewrite Hid, Htm, lookup_singleton_eq.
  match goal with
  | |- context [scheduleNextBeat r t ?h0] =>
      exact (scheduleNextBeat_beats r t h0 Hl Hu Ht H0)
  end.
Qed.

Lemma run_keeps_to_the_beat r (first : Q) (base : nat) clock :
  pow2 (-20) <= r_tempo r -> r_tempo r <= pow2 20 -> 0 <= first ->
  forall h prev,
    (exists id, timerIdRef h = Some id /\ timers h = {[ id := r ]}) ->
    (base <= hatsHeard h)%nat ->
    nextBeatTimeRef h = beatTime r first (hatsHeard h - base) ->
    (forall k, (k < hatsHeard h - base)%nat ->
       beatTime r first k < lookAhead prev) ->
    ascending prev clock = true ->
    List.last clock prev <= pow2 35 ->
    (base <= hatsHeard (run clock h))%nat /\
    nextBeatTimeRef (run clock h)
      = beatTime r first (hatsHeard (run clock h) - base) /\
    (forall k, (k < hatsHeard (run clock h) - base)%nat ->
       beatTime r first k < lookAhead (List.last clock prev)) /\
    (clock <> [] ->
     lookAhead (List.last clock prev) <= nextBeatTimeRef (run clock h)).
Proof.
  intros Hl Hu Hfirst.
  destruct (secondsPerBeat_bounds r Hl Hu) as [Hlo _].
  pose proof (pow2_pos (-15)) as Hp15.
  induction clock as [|t clock IH];
    intros h prev (id & Hid & Htm) Hk Hnext Hin Hclock Hlast.
  - cbn [run fold_left List.last]. split; [exact Hk|]. split; [exact Hnext|].
    split; [exact Hin|]. intros E. congruence.
  - cbn [ascending] in Hclock. apply andb_prop in Hclock.
    destruct Hclock as [Hle Hrest]. apply Qle_bool_iff in Hle.
    change (run (t :: clock) h) with (run clock (tick t h)).
    rewrite last_cons. rewrite last_cons in Hlast.
    pose proof (ascending_last t clock Hrest) as Htl.
    assert (H0 : 0 <= nextBeatTimeRef h).
    { rewrite Hnext. apply beatTime_nonneg; lra. }
    destruct (tick_beats r t h id Hl Hu ltac:(lra) H0 Hid Htm)
      as (m & Hh & Hn & Hout' & Hin').
    assert (Hn' : nextBeatTimeRef (tick t h)
                  = beatTime r first (hatsHeard (tick t h) - base)).
    { rewrite Hn, Hnext, beatTime_add. f_equal. lia. }
    assert (Hin'' : forall k, (k < hatsHeard (tick t h) - base)%nat ->
                      beatTime r first k < lookAhead t).
    { intros k Hklt.
      destruct (Nat.lt_ge_cases k (hatsHeard h - base)) as [Hold|Hnew].
      - apply Qlt_le_trans with (lookAhead prev); [apply Hin; exact Hold|].
        apply lookAhead_mono. exact Hle.
      - replace k with ((hatsHeard h - base) + (k - (hatsHeard h - base)))%nat
          by lia.
        rewrite <- beatTime_add, <- Hnext. apply Hin'. lia. }
    destruct (IH (tick t h) t) as (Hk2 & Hn2 & Hin2 & Hout2);
      [|lia|exact Hn'|exact Hin''|exact Hrest|exact Hlast|].
    { destruct (tick_timer r t h id Hid Htm) as (id' & ? & ?). eauto. }
    split; [exact Hk2|]. split; [exact Hn2|]. split; [exact Hin2|].
    intros _. destruct clock as [|t' clock']; [|apply Hout2; discriminate].
    cbn [run fold_left List.last]. exact Hout'.
Qed.

(** X11.  The clock alone decides what a session has played, not the
    times at which the timer happened to come due.  With the timer
    coming due at clock readings that never go back, the beats played
    since [start] are exactly those whose times, as the scheduler adds
    them up from [now + 0.05], lie before the end of the look-ahead
    window of the last reading, and the next beat time is the first one
    that does not.  At 60 BPM and readings of 1, 2 and 2.95 s four beats
    are out: the sum 2.95 + 0.1 as the machine computes it lies above
    the beat time 3.05. *)
Theorem session_keeps_to_the_beat r (withPreRoll : bool) now h clock :
  pow2 (-20) <= r_tempo r -> r_tempo r <= pow2 20 ->
  timers h = ∅ ->
  0 <= now ->
  ascending now clock = true ->
  List.last clock now <= pow2 35 ->
  let session := run clock (start r withPreRoll now h) in
  let played := (hatsHeard session - hatsHeard h)%nat in
  let beatTime := beatTime r (double (double now + double 0.05)) in
  let window := lookAhead (List.last clock now) in
  ((1 <= played)%nat /\
   hatsHeard session = (hatsHeard h + played)%nat /\
   nextBeatTimeRef session = beatTime played /\
   (forall k, (k < played)%nat -> beatTime k < window) /\
   window <= beatTime played) /\
  hatsHeard (run [1; 2; 2.95] (start (mkRender 60 4 false) false 0 (mount 60)))
  = 4%nat.
Proof.
  intros Hl Hu He H0 Hclock Hlast. cbn zeta.
  split; [|vm_compute; reflexivity].
  pose proof (ascending_last now clock Hclock) as Hnl.
  destruct (window_bounds now H0 ltac:(lra))
    as ((Ha0 & Ha1) & (Hf1 & Hf2) & (Hw1 & Hw2)).
  set (first := double (double now + double 0.05)) in *.
  assert (Hfirst : 0 <= first) by lra.
  set (h1 := start r withPreRoll now h).
  assert (Hstart :
    (exists id, timerIdRef h1 = Some id /\ timers h1 = {[ id := r ]}) /\
    (hatsHeard h <= hatsHeard h1)%nat /\
    nextBeatTimeRef h1 = beatTime r first (hatsHeard h1 - hatsHeard h) /\
    (forall k, (k < hatsHeard h1 - hatsHeard h)%nat ->
       beatTime r first k < lookAhead now) /\
    lookAhead now <= nextBeatTimeRef h1).
  { split; [apply start_timer; exact He|].
    unfold h1, start.
    match goal with
    | |- context [scheduleNextBeat r now ?h0] => set (armed := h0)
    end.
    assert (Ha : hatsHeard armed = hatsHeard h) by reflexivity.
    assert (Hb : nextBeatTimeRef armed = first) by reflexivity.
    clearbody armed.
    destruct (scheduleNextBeat_beats r now armed Hl Hu ltac:(lra))
      as (m & Hh & Hn & Hout & Hin); [rewrite Hb; exact Hfirst|].
    rewrite Hb in Hn, Hin. rewrite Hh, Ha.
    replace (hatsHeard h + m - hatsHeard h)%nat with m by lia.
    split; [lia|]. split; [exact Hn|]. split; [exact Hin|exact Hout]. }
  clearbody h1. destruct Hstart as (Htimer & Hk & Hnext & Hin & Hout).
  destruct (run_keeps_to_the_beat r first (hatsHeard h) clock Hl Hu Hfirst
              h1 now Htimer Hk Hnext Hin Hclock Hlast)
    as (Hk' & Hnext' & Hin' & Hout').
  assert (Hwin : lookAhead (List.last clock now)
                 <= nextBeatTimeRef (run clock h1)).
  { destruct clock as [|t clock']; [exact Hout|].
    apply Hout'. discriminate. }
  assert (Hplayed : (1 <= hatsHeard (run clock h1) - hatsHeard h)%nat).
  { destruct (hatsHeard (run clock h1) - hatsHeard h)%nat as [|p] eqn:Ep;
      [|lia].
    exfalso. rewrite Hnext' in Hwin. cbn in Hwin. fold first in Hwin.
    pose proof (lookAhead_mono _ _ Hnl). lra. }
  split; [exact Hplayed|]. split; [lia|]. split; [exact Hnext'|].
  split; [exact Hin'|]. rewrite <- Hnext'. exact Hwin.
Qed.

(** *** What the component shows *)

Lemma setTimeout_preRollBeat r h : preRollBeat (setTimeout r h) = preRollBeat h.
Proof. reflexivity. Qed.

Lemma setTimeout_timeSignature r h :
  timeSignature (setTimeout r h) = timeSignature h.
Proof. reflexivity. Qed.

Lemma scheduleNextBeat_normal_frame r now h :
  r_isPreRoll r = false ->
  preRollBeat (scheduleNextBeat r now h) = preRollBeat h /\
  timeSignature (scheduleNextBeat r now h) = timeSignature h.
Proof.
  intros H. unfold scheduleNextBeat.
  rewrite setTimeout_preRollBeat, setTimeout_timeSignature.
  generalize (beatsDue r now h). intros fuel. revert h.
  induction fuel as [|fuel IH]; intros h; cbn [scheduleLoop]; [auto|].
  destruct (Qlt_le_dec _ _); [|auto].
  destruct (IH (emitBeat r h)) as [-> ->].
  rewrite emitBeat_normal by exact H. auto.
Qed.

Lemma run_normal_frame r clock h id :
  r_isPreRoll r = false ->
  timerIdRef h = Some id ->
  timers h = {[ id := r ]} ->
  preRollBeat (run clock h) = preRollBeat h /\
  timeSignature (run clock h) = timeSignature h.
Proof.
  intros H. revert h id.
  induction clock as [|now clock IH]; intros h id Hid Ht; [cbn; auto|].
  destruct (tick_timer r now h id Hid Ht) as (id' & Hid' & Ht').
  change (run (now :: clock) h) with (run clock (tick now h)).
  destruct (IH _ _ Hid' Ht') as [-> ->].
  unfold tick, fire. rewrite Hid, Ht, lookup_singleton_eq.
  match goal with
  | |- context [scheduleNextBeat r now ?h0] =>
      exact (scheduleNextBeat_normal_frame r now h0 H)
  end.
Qed.

(** X12.  On an idle hook (no count-in showing, no timer pending)
    [start(true)] raises the count-in display and nothing ever moves it:
    however long the session runs, the indicator shows "get ready" with
    the number [preRollTotal + 1], one more than the bars' worth of
    beats, and never the beat dots. *)
Theorem countdown_never_starts h now clock :
  isPreRoll h = false ->
  timers h = ∅ ->
  MetronomeControls.indicatorOf (run clock (start (render h) true now h))
  = MetronomeControls.GetReady (timeSignature h * DEFAULT_preRollBars + 1).
Proof.
  intros Hidle He.
  set (r := render h).
  assert (Hr : r_isPreRoll r = false) by exact Hidle.
  destruct (start_timer r true now h He) as (id & Hid & Ht).
  destruct (run_stays_normal r clock _ id Hr Hid Ht) as [Hflag _].
  destruct (run_normal_frame r clock _ id Hr Hid Ht) as [Hbeat Hsig].
  unfold MetronomeControls.indicatorOf, MetronomeControls.beatIndicator.
  rewrite Hflag, Hbeat, Hsig. unfold start.
  match goal with
  | |- context [scheduleNextBeat r now ?h0] =>
      destruct (scheduleNextBeat_stays_normal r now h0 Hr) as [-> _];
      destruct (scheduleNextBeat_normal_frame r now h0 Hr) as [-> ->]
  end.
  cbn. f_equal. lia.
Qed.

Lemma fmap_all_same {A B : Type} (f : A -> B) (x : B) (l : list A) :
  Forall (fun a => f a = x) l -> f <$> l = replicate (length l) x.
Proof.
  induction 1 as [|a l Ha _ IH]; cbn; [reflexivity|].
  rewrite Ha, IH. reflexivity.
Qed.

Lemma beatDots_lit (timeSignature currentBeat : Z) :
  (1 <= currentBeat <= timeSignature)%Z ->
  MetronomeControls.beatDots timeSignature currentBeat
  = replicate (Z.to_nat (currentBeat - 1)) MetronomeControls.DotOff
    ++ (if (currentBeat =? 1)%Z
        then MetronomeControls.DotAccent else MetronomeControls.DotBeat)
    :: replicate (Z.to_nat (timeSignature - currentBeat))
         MetronomeControls.DotOff.
Proof.
  intros Hcb. unfold MetronomeControls.beatDots.
  replace timeSignature
    with ((currentBeat - 1) + (1 + (timeSignature - currentBeat)))%Z at 1
    by lia.
  rewrite seqZ_app by lia.
  rewrite (seqZ_cons _ (1 + _)) by lia.
  rewrite fmap_app, fmap_cons.
  rewrite (fmap_all_same _ MetronomeControls.DotOff (seqZ 0 _)).
  2:{ apply Forall_seqZ. intros i Hi.
      replace (currentBeat =? i + 1)%Z with false
        by (symmetry; apply Z.eqb_neq; lia).
      reflexivity. }
  rewrite (fmap_all_same _ MetronomeControls.DotOff (seqZ _ _)).
  2:{ apply Forall_seqZ. intros i Hi.
      replace (currentBeat =? i + 1)%Z with false
        by (symmetry; apply Z.eqb_neq; lia).
      reflexivity. }
  rewrite !length_seqZ.
  replace (currentBeat =? 0 + (currentBeat - 1) + 1)%Z with true
    by (symmetry; apply Z.eqb_eq; lia).
  replace (0 + (currentBeat - 1) =? 0)%Z with (currentBeat =? 1)%Z
    by (destruct (Z.eqb_spec currentBeat 1);
        [symmetry; apply Z.eqb_eq | symmetry; apply Z.eqb_neq]; lia).
  do 3 f_equal. lia.
Qed.

Lemma beatDots_dark (timeSignature currentBeat : Z) :
  (currentBeat <= 0 \/ timeSignature < currentBeat)%Z ->
  MetronomeControls.beatDots timeSignature currentBeat
  = replicate (Z.to_nat timeSignature) MetronomeControls.DotOff.
Proof.
  intros Hcb. unfold MetronomeControls.beatDots.
  rewrite (fmap_all_same _ MetronomeControls.DotOff).
  - rewrite length_seqZ. reflexivity.
  - apply Forall_seqZ. intros i Hi.
    replace (currentBeat =? i + 1)%Z with false
      by (symmetry; apply Z.eqb_neq; lia).
    reflexivity.
Qed.

(** X13.  The dots follow the hi-hat.  After a beat of normal mode, of
    the [timeSignature] dots exactly the one in place [beatInBar] is
    lit, and it is the gold one exactly when the hi-hat that was just
    played carried the accent; with a current beat outside
    1 .. timeSignature, as before the first beat, no dot is lit. *)
Theorem dots_follow_the_hat r h :
  r_isPreRoll r = false ->
  (0 <= beatCountRef h)%Z ->
  (1 <= r_timeSignature r)%Z ->
  let beatInBar := remZ (beatCountRef h) (r_timeSignature r) in
  let isAccent := (beatInBar =? 0)%Z in
  heard (emitBeat r h) = heard h ++ [PlayHiHat isAccent false] /\
  MetronomeControls.beatDots (r_timeSignature r) (currentBeat (emitBeat r h))
  = replicate (Z.to_nat beatInBar) MetronomeControls.DotOff
    ++ (if isAccent
        then MetronomeControls.DotAccent else MetronomeControls.DotBeat)
    :: replicate (Z.to_nat (r_timeSignature r - beatInBar - 1))
         MetronomeControls.DotOff /\
  (forall currentBeat,
     (currentBeat <= 0 \/ r_timeSignature r < currentBeat)%Z ->
     MetronomeControls.beatDots (r_timeSignature r) currentBeat
     = replicate (Z.to_nat (r_timeSignature r)) MetronomeControls.DotOff).
Proof.
  intros Hmode Hcount Hsig. cbn zeta.
  assert (Hb : (0 <= remZ (beatCountRef h) (r_timeSignature r)
                < r_timeSignature r)%Z)
    by (unfold remZ; apply Z.rem_bound_pos; lia).
  rewrite emitBeat_normal by exact Hmode. cbn [heard currentBeat].
  split; [reflexivity|]. split; [|intros cb; apply beatDots_dark].
  rewrite beatDots_lit by lia.
  replace (remZ (beatCountRef h) (r_timeSignature r) + 1 =? 1)%Z
    with (remZ (beatCountRef h) (r_timeSignature r) =? 0)%Z
    by (destruct (Z.eqb_spec (remZ (beatCountRef h) (r_timeSignature r)) 0);
        [symmetry; apply Z.eqb_eq | symmetry; apply Z.eqb_neq]; lia).
  f_equal; [f_equal; lia|]. do 2 f_equal. lia.
Qed.

End MetronomeMore.

Lemma preRoll_closure_cycles_witness :
  let r := Metronome.mkRender 100 3 true in
  let hn := Nat.iter 7 (Metronome.emitBeat r) (Metronome.mount 100) in
  Metronome.preRollCountRef hn = 1%Z /\
  Metronome.completionsFired hn = 2%nat /\
  Metronome.preRollBeatsHeard hn = 7%nat.
Proof.
  apply (preRoll_closure_cycles (Metronome.mkRender 100 3 true)
           (Metronome.mount 100) 7);
    [reflexivity | vm_compute; discriminate
    | split; vm_compute; [discriminate | reflexivity]].
Defined.

Lemma second_start_orphans_a_timer_witness :
  let r := Metronome.render (Metronome.mount 100) in
  let stopped :=
    Metronome.stop
      (Metronome.start r false 1 (Metronome.start r false 0 (Metronome.mount 100))) in
  Metronome.timers stopped = {[ 1%positive := r ]} /\
  Metronome.isPlaying (Metronome.fire 1 5 stopped) = false /\
  (Beats.hatsHeard stopped < Beats.hatsHeard (Metronome.fire 1 5 stopped))%nat.
Proof.
  intros r stopped.
  destruct (second_start_orphans_a_timer r r false false 0 1
              (Metronome.mount 100) eq_refl)
    as ((_ & _ & Htimers) & Hlater).
  destruct (Hlater 5) as (_ & _ & Hplaying & Hhats & _).
  split; [exact Htimers|]. split; [exact Hplaying|].
  apply Hhats; [vm_compute; discriminate | vm_compute; discriminate
               | vm_compute; reflexivity].
Defined.

Lemma start_plays_the_downbeat_witness :
  let h' :=
    Metronome.start (Metronome.render (Metronome.mount 100)) false 0
      (Metronome.mount 100) in
  Metronome.heard h' = [Metronome.PlayHiHat true false] /\
  Metronome.currentBeat h' = 1%Z.
Proof.
  destruct (start_plays_the_downbeat (Metronome.render (Metronome.mount 100))
              false 0 (Metronome.mount 100))
    as (Hheard & Hbeat & _);
    [reflexivity | vm_compute; discriminate | vm_compute; discriminate
    | vm_compute; discriminate | vm_compute; discriminate
    | vm_compute; discriminate |].
  split; [exact Hheard | exact Hbeat].
Defined.

Lemma session_keeps_to_the_beat_witness :
  let r := Metronome.render (Metronome.mount 100) in
  let session :=
    Metronome.run [0.3; 0.3; 2; 2.9]
      (Metronome.start r false 0 (Metronome.mount 100)) in
  let played := (Beats.hatsHeard session - 0)%nat in
  (1 <= played)%nat /\
  Metronome.nextBeatTimeRef session
  = Beats.beatTime r (double (double 0 + double 0.05)) played.
Proof.
  intros r session played.
  destruct (session_keeps_to_the_beat r false 0 (Metronome.mount 100)
              [0.3; 0.3; 2; 2.9])
    as ((Hplayed & _ & Hnext & _) & _);
    [vm_compute; discriminate | vm_compute; discriminate | reflexivity
    | vm_compute; discriminate | reflexivity | vm_compute; discriminate |].
  split; [exact Hplayed | exact Hnext].
Defined.

Lemma countdown_never_starts_witness :
  MetronomeControls.indicatorOf
    (Metronome.run [1; 2; 3]
       (Metronome.start (Metronome.render (Metronome.mount 100)) true 0
          (Metronome.mount 100)))
  = MetronomeControls.GetReady 5.
Proof.
  apply (countdown_never_starts (Metronome.mount 100) 0 [1; 2; 3]);
    reflexivity.
Defined.

Lemma dots_follow_the_hat_witness :
  let r := Metronome.render (Metronome.mount 100) in
  let h := Nat.iter 5 (Metronome.emitBeat r) (Metronome.mount 100) in
  MetronomeControls.beatDots 4 (Metronome.currentBeat (Metronome.emitBeat r h))
  = [MetronomeControls.DotOff; MetronomeControls.DotBeat;
     MetronomeControls.DotOff; MetronomeControls.DotOff].
Proof.
  intros r h.
  destruct (dots_follow_the_hat r h) as (_ & Hdots & _);
    [reflexivity | vm_compute; discriminate | vm_compute; discriminate |].
  exact Hdots.
Defined.

(** ** More on the playhead animator *)

Section LoopModeMore.

Import LoopMode.

Variable rhythm : RhythmConfig.

Implicit Types (a : Animator).

(** X14.  On a loop of finite positive length, a frame that comes at or
    after the start instant publishes a finite playhead between 0 and
    1, the same in the state and in the ref: the quotient of the exact
    remainder of the elapsed time and the loop duration, rounded.  With
    a loop length, a measure and a beat of 1024 at most it highlights
    the first note of a beat, and the beat is none before the first and
    none after the loop's last. *)
Theorem tick_publishes_progress now a (e d len : Q) :
  elapsedAt now a = Num e -> 0 <= e ->
  getLoopDuration rhythm a = Num d -> 0 < d ->
  loopLengthRef a = Num len -> 0 <= len -> len <= pow2 10 ->
  0 <= beatsPerMeasure rhythm -> beatsPerMeasure rhythm <= pow2 10 ->
  (0 <= tripletsPerBeat rhythm <= 1024)%Z ->
  let a' := tick rhythm (Some now) a in
  exists (p : Q) (beat : Z),
    playhead a' = Num p /\ playheadRef a' = Num p /\
    p = double (rem e d / d) /\ 0 <= p /\ p <= 1 /\
    highlightNoteIndex a' = Num (inject_Z (beat * tripletsPerBeat rhythm)) /\
    (0 <= beat)%Z /\
    inject_Z beat <= double (double (beatsPerMeasure rhythm) * len).
Proof.
  intros He He0 HL Hd Hlen Hlen0 Hlen1 Hb0 Hb1 Ht a'.
  unfold getLoopDuration in HL.
  destruct (rem_bounds e d He0 Hd) as [Hr0 Hr1].
  set (r := Qred (rem e d)).
  assert (Er : r == rem e d) by apply Qred_correct.
  set (p := double (rem e d / d)).
  assert (Ep : double (r / d) = p).
  { apply double_comp. rewrite Er. reflexivity. }
  assert (E1 : double 1 == 1) by (vm_compute; reflexivity).
  assert (E10 : double (pow2 10) == 1024) by (vm_compute; reflexivity).
  assert (E20 : double (pow2 20) == 1048576) by (vm_compute; reflexivity).
  assert (P10 : pow2 10 == 1024) by (vm_compute; reflexivity).
  assert (P20 : pow2 20 == 1024 * 1024) by (vm_compute; reflexivity).
  assert (P30 : pow2 30 == 1048576 * 1024) by (vm_compute; reflexivity).
  pose proof (pow2_1023 10 ltac:(lia)) as Hbig10.
  pose proof (pow2_1023 20 ltac:(lia)) as Hbig20.
  pose proof (pow2_1023 30 ltac:(lia)) as Hbig30.
  assert (Hq0 : 0 <= rem e d / d) by (apply Qle_shift_div_l; lra).
  assert (Hq1 : rem e d / d <= 1) by (apply Qle_shift_div_r; lra).
  assert (Hp0 : 0 <= p) by (apply double_nonneg; exact Hq0).
  assert (Hp1 : p <= 1).
  { apply Qle_trans with (double 1); [|rewrite E1; lra].
    apply double_mono. exact Hq1. }
  set (b := double (beatsPerMeasure rhythm)).
  assert (Hbb0 : 0 <= b) by (apply double_nonneg; exact Hb0).
  assert (Hbb1 : b <= 1024).
  { apply Qle_trans with (double (pow2 10)); [|rewrite E10; lra].
    apply double_mono. exact Hb1. }
  set (x := double (p * b)).
  assert (Hpb0 : 0 <= p * b) by (apply Qmult_le_0_compat; assumption).
  assert (Hpb1 : p * b <= b).
  { apply Qle_trans with (1 * b); [|lra].
    apply Qmult_le_compat_r; assumption. }
  assert (Hx0 : 0 <= x) by (apply double_nonneg; exact Hpb0).
  assert (Hx1 : x <= b).
  { apply Qle_trans with (double b); [apply double_mono; exact Hpb1|].
    unfold b. rewrite double_idem. lra. }
  set (y := double (x * len)).
  assert (Hxl0 : 0 <= x * len) by (apply Qmult_le_0_compat; assumption).
  assert (Hxl1 : x * len <= b * len)
    by (apply Qmult_le_compat_r; assumption).
  assert (Hbl : b * len <= pow2 20).
  { rewrite P20. apply Qle_trans with (1024 * len).
    - apply Qmult_le_compat_r; assumption.
    - rewrite P10 in Hlen1. lra. }
  assert (Hy0 : 0 <= y) by (apply double_nonneg; exact Hxl0).
  assert (Hy1 : y <= double (b * len)) by (apply double_mono; exact Hxl1).
  assert (Hy2 : y <= 1048576).
  { apply Qle_trans with (double (pow2 20)); [|rewrite E20; lra].
    apply double_mono. lra. }
  set (beat := Qfloor y).
  assert (Hbeat0 : (0 <= beat)%Z).
  { change 0%Z with (Qfloor 0). apply Qfloor_resp_le. exact Hy0. }
  assert (Hbeat1 : (beat <= 1048576)%Z).
  { rewrite <- (Qfloor_Z 1048576). apply Qfloor_resp_le. exact Hy2. }
  set (t := tripletsPerBeat rhythm) in *.
  assert (Ht0 : 0 <= inject_Z t).
  { change 0 with (inject_Z 0). rewrite <- Zle_Qle. lia. }
  assert (Ht1 : inject_Z t <= 1024).
  { change 1024 with (inject_Z 1024). rewrite <- Zle_Qle. lia. }
  assert (Hbt : (0 <= beat * t <= 1048576 * 1024)%Z) by nia.
  assert (Hn0 : 0 <= inject_Z (beat * t)).
  { change 0 with (inject_Z 0). rewrite <- Zle_Qle. lia. }
  assert (Hn1 : inject_Z (beat * t) <= 1048576 * 1024).
  { change (1048576 * 1024) with (inject_Z (1048576 * 1024)).
    rewrite <- Zle_Qle. lia. }
  assert (Enote : Number.mul (Num (inject_Z beat)) (ofQ (inject_Z t))
                  = Num (inject_Z (beat * t))).
  { rewrite (ofQ_range (inject_Z t)) by lra.
    rewrite (double_inject_Z t) by lia.
    rewrite mul_Num, <- inject_Z_mult.
    rewrite (ofQ_range (inject_Z (beat * t))) by lra.
    rewrite (double_inject_Z (beat * t)) by lia. reflexivity. }
  exists p, beat.
  unfold a', tick. rewrite HL, He, Hlen.
  rewrite (lt_Num_false e 0 He0).
  rewrite (rem_Num e d Hd). fold r.
  rewrite (div_Num r d Hd).
  rewrite (ofQ_range (r / d)) by (rewrite Er; lra). rewrite Ep.
  rewrite (ofQ_range (beatsPerMeasure rhythm)) by lra. fold b.
  rewrite (mul_Num p b), (ofQ_range (p * b)) by lra. fold x.
  rewrite (mul_Num x len), (ofQ_range (x * len)) by lra. fold y.
  change (Number.floor (Num y)) with (Num (inject_Z beat)).
  fold t. rewrite Enote.
  unfold requestAnimationFrame.
  cbn [playhead playheadRef highlightNoteIndex].
  split; [reflexivity|]. split; [reflexivity|]. split; [reflexivity|].
  split; [exact Hp0|]. split; [exact Hp1|]. split; [reflexivity|].
  split; [exact Hbeat0|].
  apply Qle_trans with y; [apply Qfloor_le|exact Hy1].
Qed.

End LoopModeMore.

Lemma tick_publishes_progress_witness :
  let a := LoopMode.start (Some 0) (LoopMode.mount (Num 120) (Num 1)) in
  let a' := LoopMode.tick Scenario.rhythm (Some 5) a in
  exists (p : Q) (beat : Z),
    LoopMode.playhead a' = Num p /\ LoopMode.playheadRef a' = Num p /\
    p = double (rem 5 2 / 2) /\ 0 <= p /\ p <= 1 /\
    LoopMode.highlightNoteIndex a' = Num (inject_Z (beat * 3)) /\
    (0 <= beat)%Z /\ inject_Z beat <= double (double 4 * 1).
Proof.
  apply (tick_publishes_progress Scenario.rhythm 5
           (LoopMode.start (Some 0) (LoopMode.mount (Num 120) (Num 1)))
           5 2 1);
    [vm_compute; reflexivity | vm_compute; discriminate
    | vm_compute; reflexivity | reflexivity | reflexivity
    | vm_compute; discriminate | vm_compute; discriminate
    | vm_compute; discriminate | vm_compute; discriminate
    | split; vm_compute; discriminate].
Defined.
(** ** The practice statistics *)

Section PracticeStatsFacts.

Import PracticeStats.

Local Open Scope Z_scope.

Implicit Types (s prev : Stats) (t : Timer).

(** X17.  [formatTime] of a duration that is not negative: below one
    hour it shows minutes and seconds that add up to the duration; from
    one hour on it shows hours and minutes, both in range, and drops
    the seconds. *)
Theorem formatTime_parts (seconds : Z) :
  0 <= seconds ->
  match formatTime seconds with
  | MinutesSeconds m s =>
      seconds < 3600 /\ 0 <= m < 60 /\ 0 <= s < 60 /\ seconds = 60 * m + s
  | HoursMinutes h m =>
      3600 <= seconds /\ 1 <= h /\ 0 <= m < 60 /\
      3600 * h + 60 * m <= seconds < 3600 * h + 60 * m + 60
  end.
Proof.
  intros H. unfold formatTime, remZ.
  rewrite !Z.rem_mod_nonneg by lia.
  destruct (0 <? seconds / 3600) eqn:E.
  - apply Z.ltb_lt in E. Z.to_euclidean_division_equations. lia.
  - apply Z.ltb_ge in E. Z.to_euclidean_division_equations. lia.
Qed.

(** X18.  Two sessions committed on the same day come to one session of
    the two durations together, but for the session count: the streak
    moves with the first only. *)
Theorem commitSession_same_day today y1 y2 (seconds1 seconds2 : Z) prev :
  let once := commitSession today y1 (seconds1 + seconds2) prev in
  commitSession today y2 seconds2 (commitSession today y1 seconds1 prev)
  = mkStats (totalSeconds once) (sessions once + 1) (streak once)
            (lastPracticeDate once) (dailyHistory once).
Proof.
  unfold commitSession. cbn.
  rewrite bool_decide_eq_true_2 by reflexivity.
  rewrite lookup_insert_eq, insert_insert_eq. cbn.
  set (n := if bool_decide (lastPracticeDate prev = Some today) then _ else _).
  assert (Hn : ((if n =? 0 then 1 else n) =? 0) = false).
  { destruct (n =? 0) eqn:E; [reflexivity|exact E]. }
  rewrite Hn. f_equal; [lia|]. f_equal. lia.
Qed.

Lemma commitSession_next today yesterdayString seconds prev :
  lastPracticeDate prev = Some yesterdayString ->
  yesterdayString <> today ->
  0 <= streak prev ->
  streak (commitSession today yesterdayString seconds prev) = streak prev + 1.
Proof.
  intros Hl Hne Hs. unfold commitSession. cbn. rewrite Hl.
  rewrite bool_decide_eq_false_2 by congruence.
  rewrite bool_decide_eq_true_2 by reflexivity.
  destruct (streak prev + 1 =? 0) eqn:E; [|reflexivity].
  apply Z.eqb_eq in E. lia.
Qed.

Lemma dayAfterDay_streak days : forall yesterdayString prev,
  lastPracticeDate prev = Some yesterdayString ->
  0 <= streak prev ->
  distinctNeighbours yesterdayString days ->
  streak (dayAfterDay yesterdayString days prev)
  = streak prev + Z.of_nat (length days).
Proof.
  induction days as [|[today seconds] days IH]; intros y prev Hl Hs Hd.
  - cbn. lia.
  - destruct Hd as [Hne Hd]. cbn [dayAfterDay length].
    rewrite IH; [|reflexivity| |exact Hd].
    + rewrite (commitSession_next _ _ _ _ Hl Hne Hs). lia.
    + rewrite (commitSession_next _ _ _ _ Hl Hne Hs). lia.
Qed.

(** X19.  The streak counts consecutive days.  After a first session, a
    run of sessions each committed on a new day whose yesterday is the
    day of the session before raises the streak by one a day; a session
    whose last practice date is neither its today nor its yesterday
    brings the streak back to one. *)
Theorem streak_counts_consecutive_days first yesterdayString seconds days
    today' yesterday' seconds' prev :
  lastPracticeDate prev <> Some first ->
  lastPracticeDate prev <> Some yesterdayString ->
  distinctNeighbours first days ->
  let s := dayAfterDay first days
             (commitSession first yesterdayString seconds prev) in
  streak s = 1 + Z.of_nat (length days) /\
  (lastPracticeDate s <> Some today' ->
   lastPracticeDate s <> Some yesterday' ->
   streak (commitSession today' yesterday' seconds' s) = 1).
Proof.
  intros Hf Hy Hd s. split.
  - unfold s. rewrite dayAfterDay_streak; [|reflexivity| |exact Hd].
    + unfold commitSession. cbn.
      rewrite !bool_decide_eq_false_2 by assumption. reflexivity.
    + unfold commitSession. cbn.
      rewrite !bool_decide_eq_false_2 by assumption. cbn. lia.
  - intros Ht Hy'. unfold commitSession. cbn.
    rewrite !bool_decide_eq_false_2 by assumption. reflexivity.
Qed.

Lemma practised_insert (history : gmap string Z) day seconds :
  practised (<[ day := seconds ]> history)
  = practised history - default 0 (history !! day) + seconds.
Proof.
  unfold practised. destruct (history !! day) as [old|] eqn:E; cbn.
  - rewrite <- insert_delete_eq.
    rewrite map_fold_insert_L; [|intros; lia|apply lookup_delete_eq].
    rewrite (map_fold_delete_L _ _ day old history); [lia|intros; lia|exact E].
  - rewrite map_fold_insert_L; [lia|intros; lia|exact E].
Qed.

Lemma commitSession_consistent today yesterdayString seconds prev :
  consistent prev -> 0 < seconds ->
  consistent (commitSession today yesterdayString seconds prev).
Proof.
  intros (Ht & Hs & Hk & Hp) Hsec. unfold consistent, commitSession. cbn.
  rewrite practised_insert.
  set (n := if bool_decide (lastPracticeDate prev = Some today) then _ else _).
  assert (Hn : 0 <= n <= sessions prev + 1).
  { unfold n. repeat case_bool_decide; lia. }
  repeat split; try lia; try (destruct (n =? 0) eqn:E; lia).
  eexists; reflexivity.
Qed.

Lemma cleanup_stats t :
  stats (cleanup t) = stats t /\ startTimeRef (cleanup t) = startTimeRef t /\
  intervalRef (cleanup t) = intervalRef t /\
  sessionSeconds (cleanup t) = sessionSeconds t.
Proof.
  unfold cleanup. destruct (intervalRef t) eqn:E; cbn; rewrite ?E; auto.
Qed.

Lemma timerEffect_pause_stats now today yesterdayString t :
  stats (timerEffect false now today yesterdayString t)
  = match startTimeRef t with
    | Some start =>
        if start =? 0 then stats t
        else if 0 <? (now - start) / 1000
             then commitSession today yesterdayString
                    ((now - start) / 1000) (stats t)
             else stats t
    | None => stats t
    end.
Proof.
  unfold timerEffect. destruct (startTimeRef t) as [start|].
  - destruct (start =? 0); cbn; destruct (intervalRef t); reflexivity.
  - destruct (intervalRef t); reflexivity.
Qed.

Lemma handle_consistent e t :
  consistent (stats t) -> consistent (stats (handle e t)).
Proof.
  intros H. destruct e as [[|] now today y|id now|]; cbn [handle].
  - cbn. rewrite (proj1 (cleanup_stats t)). exact H.
  - rewrite timerEffect_pause_stats.
    destruct (cleanup_stats t) as (Es & Et & _). rewrite Es, Et.
    destruct (startTimeRef t) as [start|]; [|exact H].
    destruct (start =? 0); [exact H|].
    destruct (0 <? (now - start) / 1000) eqn:E; [|exact H].
    apply commitSession_consistent; [exact H|]. apply Z.ltb_lt. exact E.
  - case_bool_decide; exact H.
  - rewrite (proj1 (cleanup_stats t)). exact H.
Qed.

(** X20.  Whatever happens to the hook, its statistics stay consistent:
    the total is the sum over the days of the history, every session on
    record lasted a second or more, and once there is a session the
    streak is between one and the number of sessions and the last
    practice date is set. *)
Theorem stats_stay_consistent es : forall t,
  consistent (stats t) -> consistent (stats (events es t)).
Proof.
  induction es as [|e es IH]; intros t H; [exact H|].
  cbn [events]. apply IH. apply handle_consistent. exact H.
Qed.

Lemma interval_keeps e t :
  isInterval e = true ->
  stats (handle e t) = stats t /\
  startTimeRef (handle e t) = startTimeRef t /\
  intervalRef (handle e t) = intervalRef t /\
  intervals (handle e t) = intervals t.
Proof.
  destruct e; try discriminate. intros _. cbn [handle].
  case_bool_decide; repeat split; reflexivity.
Qed.

Lemma intervals_keep es : forall t,
  forallb isInterval es = true ->
  stats (events es t) = stats t /\
  startTimeRef (events es t) = startTimeRef t /\
  intervalRef (events es t) = intervalRef t /\
  intervals (events es t) = intervals t.
Proof.
  induction es as [|e es IH]; intros t H; [repeat split; reflexivity|].
  cbn in H. apply andb_prop in H as [He Hes]. cbn [events].
  destruct (IH (handle e t) Hes) as (A & B & C & D).
  destruct (interval_keeps e t He) as (A' & B' & C' & D').
  rewrite A, B, C, D. auto.
Qed.

(** X21.  Playing and then pausing commits the whole seconds between the
    two clock readings, whatever the interval did in between, and
    nothing when less than a second went by (or the clock went back);
    while playing, a running interval shows the whole seconds so far;
    the pause clears the session display, the start time and the
    interval, and a second pause changes nothing. *)
Theorem pause_commits_whole_seconds t start now now' today0 yesterday0
    today yesterdayString today' yesterday' ticks :
  start <> 0 ->
  oneInterval t ->
  forallb isInterval ticks = true ->
  let playing := events ticks (handle (Effect true start today0 yesterday0) t) in
  let paused := handle (Effect false now today yesterdayString) playing in
  stats paused
  = (if 1000 <=? now - start
     then commitSession today yesterdayString ((now - start) / 1000) (stats t)
     else stats t) /\
  (forall id n, id ∈ intervals playing ->
     sessionSeconds (handle (Interval id n) playing) = (n - start) / 1000) /\
  sessionSeconds paused = 0 /\
  startTimeRef paused = None /\
  intervalRef paused = None /\
  intervals paused = ∅ /\
  handle (Effect false now' today' yesterday') paused = paused.
Proof.
  intros Hstart Hone Hticks playing paused.
  set (t1 := handle (Effect true start today0 yesterday0) t) in *.
  assert (H1 : stats t1 = stats t /\ startTimeRef t1 = Some start /\
               intervalRef t1 = Some (nextIntervalId (cleanup t)) /\
               intervals t1 = {[ nextIntervalId (cleanup t) ]}).
  { unfold t1. cbn. rewrite (proj1 (cleanup_stats t)).
    repeat split; try reflexivity.
    unfold cleanup. destruct (intervalRef t) as [id|] eqn:E; cbn.
    - apply set_eq. intros x. rewrite elem_of_union, elem_of_difference.
      split; [intros [Hx|[Hx Hn]]; [exact Hx|]|intros Hx; left; exact Hx].
      exfalso. apply Hn. apply elem_of_singleton.
      specialize (Hone x Hx). congruence.
    - apply set_eq. intros x. rewrite elem_of_union.
      split; [intros [Hx|Hx]; [exact Hx|]|intros Hx; left; exact Hx].
      specialize (Hone x Hx). congruence. }
  destruct H1 as (S1 & T1 & R1 & I1).
  destruct (intervals_keep ticks t1 Hticks) as (S2 & T2 & R2 & I2).
  fold playing in S2, T2, R2, I2.
  rewrite S1 in S2. rewrite T1 in T2. rewrite R1 in R2. rewrite I1 in I2.
  set (id1 := nextIntervalId (cleanup t)) in *.
  assert (Hc : cleanup playing
               = mkTimer (stats t) (sessionSeconds playing) (Some start)
                         (Some id1) ∅ (nextIntervalId playing)).
  { unfold cleanup. rewrite R2. unfold clearInterval.
    rewrite S2, T2, R2, I2. f_equal. apply set_eq. intros x.
    rewrite elem_of_difference. split; [tauto|]. intros Hx.
    exfalso. revert Hx. apply not_elem_of_empty. }
  assert (Hz : (start =? 0) = false) by (apply Z.eqb_neq; exact Hstart).
  assert (Hd : (0 <? (now - start) / 1000) = (1000 <=? now - start)).
  { destruct (1000 <=? now - start) eqn:E.
    - apply Z.leb_le in E. apply Z.ltb_lt.
      Z.to_euclidean_division_equations. lia.
    - apply Z.leb_gt in E. apply Z.ltb_ge.
      Z.to_euclidean_division_equations. lia. }
  assert (Hp : paused
               = mkTimer (if 1000 <=? now - start
                          then commitSession today yesterdayString
                                 ((now - start) / 1000) (stats t)
                          else stats t)
                         0 None None ∅ (nextIntervalId playing)).
  { unfold paused. cbn [handle]. rewrite Hc. unfold timerEffect. cbn.
    rewrite Hz. cbn. rewrite Hd. f_equal. apply set_eq. intros x.
    rewrite elem_of_difference. split; [tauto|]. intros Hx.
    exfalso. revert Hx. apply not_elem_of_empty. }
  split; [rewrite Hp; reflexivity|].
  split.
  { intros id n Hin. cbn [handle].
    rewrite bool_decide_eq_true_2 by exact Hin.
    unfold onInterval. cbn. rewrite T2. reflexivity. }
  rewrite Hp. repeat split; reflexivity.
Qed.

Lemma cleanup_intervals t :
  oneInterval t -> intervals (cleanup t) = ∅.
Proof.
  intros Hone. unfold cleanup. apply set_eq. intros x.
  split; [|intros Hx; exfalso; revert Hx; apply not_elem_of_empty].
  destruct (intervalRef t) as [id|] eqn:E; cbn.
  - rewrite elem_of_difference, elem_of_singleton. intros [Hx Hn].
    specialize (Hone x Hx). congruence.
  - intros Hx. specialize (Hone x Hx). congruence.
Qed.

Lemma timerEffect_pause_intervals now today yesterdayString t :
  intervals t = ∅ ->
  intervals (timerEffect false now today yesterdayString t) = ∅.
Proof.
  intros He. unfold timerEffect.
  assert (Hd : forall id : positive, (∅ : gset positive) ∖ {[ id ]} = ∅).
  { intros id. apply empty_difference_L. }
  destruct (startTimeRef t) as [start|]; [destruct (start =? 0)|];
    cbn; destruct (intervalRef t); cbn; rewrite ?He, ?Hd; reflexivity.
Qed.

Lemma handle_oneInterval e t : oneInterval t -> oneInterval (handle e t).
Proof.
  intros Hone. destruct e as [[|] now today y|id now|]; cbn [handle].
  - unfold timerEffect. intros x. cbn. rewrite (cleanup_intervals t Hone).
    rewrite elem_of_union, elem_of_singleton. intros [->|Hx]; [reflexivity|].
    exfalso. revert Hx. apply not_elem_of_empty.
  - intros x.
    rewrite (timerEffect_pause_intervals _ _ _ _ (cleanup_intervals t Hone)).
    intros Hx. exfalso. revert Hx. apply not_elem_of_empty.
  - case_bool_decide; [|exact Hone]. exact Hone.
  - intros x. rewrite (cleanup_intervals t Hone).
    intros Hx. exfalso. revert Hx. apply not_elem_of_empty.
Qed.

Lemma events_oneInterval es : forall t,
  oneInterval t -> oneInterval (events es t).
Proof.
  induction es as [|e es IH]; intros t Hone; [exact Hone|].
  cbn [events]. apply IH. apply handle_oneInterval. exact Hone.
Qed.

(** X22.  The hook never leaks an interval.  Whatever happens to it, at
    most the interval its ref names is running; a pause or the unmount
    leaves none running, so that no interval fires afterwards. *)
Theorem intervals_never_leak es t :
  oneInterval t ->
  let t' := events es t in
  oneInterval t' /\
  (forall now today yesterdayString id n,
     let paused := handle (Effect false now today yesterdayString) t' in
     intervals paused = ∅ /\ handle (Interval id n) paused = paused) /\
  (forall id n,
     intervals (handle Unmount t') = ∅ /\
     handle (Interval id n) (handle Unmount t') = handle Unmount t').
Proof.
  intros Hone t'.
  pose proof (events_oneInterval es t Hone) as H'. fold t' in H'.
  clearbody t'. split; [exact H'|]. split.
  - intros now today y id n paused.
    assert (He : intervals paused = ∅).
    { unfold paused. cbn [handle].
      apply timerEffect_pause_intervals, cleanup_intervals, H'. }
    split; [exact He|]. cbn [handle]. rewrite He.
    rewrite bool_decide_eq_false_2; [reflexivity|apply not_elem_of_empty].
  - intros id n. cbn [handle]. rewrite (cleanup_intervals t' H').
    split; [reflexivity|].
    rewrite bool_decide_eq_false_2; [reflexivity|apply not_elem_of_empty].
Qed.

End PracticeStatsFacts.

Lemma formatTime_parts_witness :
  match PracticeStats.formatTime 3725 with
  | PracticeStats.MinutesSeconds m s =>
      (3725 < 3600 /\ 0 <= m < 60 /\ 0 <= s < 60 /\ 3725 = 60 * m + s)%Z
  | PracticeStats.HoursMinutes h m =>
      (3600 <= 3725 /\ 1 <= h /\ 0 <= m < 60 /\
       3600 * h + 60 * m <= 3725 < 3600 * h + 60 * m + 60)%Z
  end.
Proof. apply (formatTime_parts 3725). lia. Defined.

Lemma streak_counts_consecutive_days_witness :
  let s :=
    PracticeStats.dayAfterDay "2024-01-01"
      [("2024-01-02"%string, 30%Z); ("2024-01-03"%string, 45%Z)]
      (PracticeStats.commitSession "2024-01-01" "2023-12-31" 60
         PracticeStats.INITIAL_STATS) in
  PracticeStats.streak s = 3%Z.
Proof.
  intros s.
  destruct (streak_counts_consecutive_days "2024-01-01" "2023-12-31" 60
              [("2024-01-02"%string, 30%Z); ("2024-01-03"%string, 45%Z)]
              "2024-01-10" "2024-01-09" 20 PracticeStats.INITIAL_STATS)
    as [Hstreak _];
    [discriminate | discriminate | cbn; repeat split; discriminate |].
  exact Hstreak.
Defined.

Lemma stats_stay_consistent_witness :
  PracticeStats.consistent
    (PracticeStats.stats
       (PracticeStats.events
          [PracticeStats.Effect true 1000 "2024-01-01" "2023-12-31";
           PracticeStats.Interval 1 2000;
           PracticeStats.Effect false 5500 "2024-01-01" "2023-12-31"]
          PracticeStats.mount)).
Proof.
  apply stats_stay_consistent.
  repeat split; try (vm_compute; congruence);
    match goal with
    | H : (0 < _)%Z |- _ => vm_compute in H; discriminate H
    end.
Defined.

Lemma pause_commits_whole_seconds_witness :
  let playing :=
    PracticeStats.events
      [PracticeStats.Interval 1 2000; PracticeStats.Interval 1 3000]
      (PracticeStats.handle
         (PracticeStats.Effect true 1000 "2024-01-01" "2023-12-31")
         PracticeStats.mount) in
  let paused :=
    PracticeStats.handle
      (PracticeStats.Effect false 4500 "2024-01-01" "2023-12-31") playing in
  PracticeStats.stats paused
  = PracticeStats.commitSession "2024-01-01" "2023-12-31" 3
      PracticeStats.INITIAL_STATS /\
  PracticeStats.intervals paused = ∅.
Proof.
  intros playing paused.
  destruct (pause_commits_whole_seconds PracticeStats.mount 1000 4500 9000
              "2024-01-01" "2023-12-31" "2024-01-01" "2023-12-31"
              "2024-01-01" "2023-12-31"
              [PracticeStats.Interval 1 2000; PracticeStats.Interval 1 3000])
    as (Hstats & _ & _ & _ & _ & Hnone & _);
    [lia
    | intros id Hid; exfalso; revert Hid; apply not_elem_of_empty
    | reflexivity |].
  split; [exact Hstats | exact Hnone].
Defined.

Lemma intervals_never_leak_witness :
  let t :=
    PracticeStats.events
      [PracticeStats.Effect true 1000 "2024-01-01" "2023-12-31";
       PracticeStats.Effect true 2000 "2024-01-01" "2023-12-31"]
      PracticeStats.mount in
  PracticeStats.oneInterval t /\
  PracticeStats.intervals (PracticeStats.handle PracticeStats.Unmount t) = ∅.
Proof.
  intros t.
  destruct (intervals_never_leak
              [PracticeStats.Effect true 1000 "2024-01-01" "2023-12-31";
               PracticeStats.Effect true 2000 "2024-01-01" "2023-12-31"]
              PracticeStats.mount)
    as (Hone & _ & Hunmount);
    [intros id Hid; exfalso; revert Hid; apply not_elem_of_empty|].
  split; [exact Hone | exact (proj1 (Hunmount 1%positive 0%Z))].
Defined.

(** ** The service worker *)

Section ServiceWorkerFacts.

Import ServiceWorker.

Implicit Types (caches : CacheStorage) (cache : gmap string Response)
  (r : Response).

Lemma filter_twice {A} (f : A -> bool) (l : list A) :
  List.filter f (List.filter f l) = List.filter f l.
Proof.
  induction l as [|x l IH]; [reflexivity|]. cbn.
  destruct (f x) eqn:E; [cbn; rewrite E, IH; reflexivity|exact IH].
Qed.

Lemma activate_match (u : string) caches r :
  cachesMatch u (activate caches) = Some r ->
  exists n cache,
    In (n, cache) caches /\ isOld n = false /\ cache !! u = Some r.
Proof.
  induction caches as [|[n cache] caches IH]; [discriminate|].
  unfold activate. cbn. destruct (isOld n) eqn:E; cbn.
  - intros H. destruct (IH H) as (n' & c' & Hin & Hold & Hl).
    exists n', c'. auto.
  - destruct (cache !! u) as [r'|] eqn:El.
    + intros [= ->]. exists n, cache. auto.
    + intros H. destruct (IH H) as (n' & c' & Hin & Hold & Hl).
      exists n', c'. auto.
Qed.

(** X23.  Activation deletes the caches of other versions and no other:
    the two caches of this version and the caches of other names stay as
    they are, a second activation finds nothing to delete, and what the
    storage answers afterwards comes from a cache that is not of an old
    version. *)
Theorem activate_drops_old_versions caches :
  activate (activate caches) = activate caches /\
  (forall n cache,
     In (n, cache) (activate caches)
     <-> In (n, cache) caches /\
         (String.prefix "bass-academy-" n = true ->
          n = CACHE_NAME \/ n = RUNTIME_CACHE)) /\
  (forall u r,
     cachesMatch u (activate caches) = Some r ->
     exists n cache,
       In (n, cache) caches /\ isOld n = false /\ cache !! u = Some r).
Proof.
  split; [apply filter_twice|]. split; [|intros u r; apply activate_match].
  intros n cache. unfold activate. rewrite List.filter_In. cbn.
  unfold isOld.
  destruct (String.prefix "bass-academy-" n); cbn;
    repeat case_bool_decide; cbn; intuition congruence.
Qed.

(** X24.  [staleWhileRevalidate] is the one strategy that may give no
    response: it gives none exactly when nothing is cached for the
    request and the fetch fails.  A cached response wins over the
    network, and the storage changes only on an ok response. *)
Theorem staleWhileRevalidate_may_not_answer (u : string)
    (net : option Response) caches :
  let answer := (staleWhileRevalidate u net caches).1 in
  let caches' := (staleWhileRevalidate u net caches).2 in
  (answer = None <-> cachesMatch u caches = None /\ net = None) /\
  (forall r, cachesMatch u caches = Some r -> answer = Some r) /\
  (forall r, cachesMatch u caches = None -> net = Some r -> answer = Some r) /\
  (caches' <> caches -> exists r, net = Some r /\ ok r = true).
Proof.
  unfold staleWhileRevalidate. cbn.
  destruct (cachesMatch u caches) as [c|], net as [r|]; cbn;
    repeat split; try congruence; try (intros [? ?]; congruence).
  - intros H. exists r. split; [reflexivity|].
    destruct (ok r); [reflexivity|contradiction].
  - intros H. exists r. split; [reflexivity|].
    destruct (ok r); [reflexivity|contradiction].
Qed.

Lemma cachePut_match (name u : string) r caches :
  cachesMatch u caches = None ->
  cachesMatch u (cachePut name u r caches) = Some r.
Proof.
  unfold cachePut.
  induction caches as [|[n cache] caches IH]; cbn [cachesMatch withCache].
  - intros _. rewrite lookup_insert_eq. reflexivity.
  - destruct (cache !! u) eqn:E; [discriminate|]. intros H.
    case_bool_decide; cbn [cachesMatch].
    + rewrite lookup_insert_eq. reflexivity.
    + rewrite E. apply IH, H.
Qed.

(** X25.  What [cacheFirst] fetched with an ok response it serves from
    the cache from then on, whatever the network does, and so do the
    other strategies when the network is down; a response that is not
    ok is handed on but not stored. *)
Theorem cacheFirst_serves_from_cache_next (u : string) r caches :
  cachesMatch u caches = None ->
  let caches' := (cacheFirst u (Some r) caches).2 in
  (cacheFirst u (Some r) caches).1 = r /\
  (ok r = false -> caches' = caches) /\
  (ok r = true ->
   forall net,
     cacheFirst u net caches' = (r, caches') /\
     networkFirst u None caches' = (r, caches') /\
     networkFirstWithFallback u None caches' = (r, caches') /\
     staleWhileRevalidate u None caches' = (Some r, caches')).
Proof.
  intros Hnone. unfold cacheFirst at 1 2. rewrite Hnone. cbn.
  split; [reflexivity|]. split; [intros ->; reflexivity|].
  intros Hok net. rewrite Hok.
  pose proof (cachePut_match RUNTIME_CACHE u r caches Hnone) as Hm.
  unfold cacheFirst, networkFirst, networkFirstWithFallback,
    staleWhileRevalidate.
  rewrite Hm. auto.
Qed.

Lemma names_differ : CACHE_NAME <> RUNTIME_CACHE.
Proof. cbv. discriminate. Qed.

Lemma respondWith_precache precached old (e : FetchEvent) cache rest :
  sparesPrecache precached e ->
  cache !! precached = Some old ->
  exists cache' rest',
    (respondWith e ((CACHE_NAME, cache) :: rest)).2
    = (CACHE_NAME, cache') :: rest' /\
    cache' !! precached = Some old.
Proof.
  intros Hs Hl.
  assert (Hrun : forall u r,
            cachePut RUNTIME_CACHE u r ((CACHE_NAME, cache) :: rest)
            = (CACHE_NAME, cache) :: cachePut RUNTIME_CACHE u r rest).
  { intros u r. unfold cachePut. cbn.
    rewrite bool_decide_eq_false_2 by exact names_differ. reflexivity. }
  assert (Hown : forall u r,
            cachePut CACHE_NAME u r ((CACHE_NAME, cache) :: rest)
            = (CACHE_NAME, <[ u := r ]> cache) :: rest).
  { intros u r. unfold cachePut. cbn.
    rewrite bool_decide_eq_true_2 by reflexivity. reflexivity. }
  unfold sparesPrecache in Hs. unfold respondWith.
  destruct (strategy e) eqn:Es.
  - unfold cacheFirst.
    destruct (cachesMatch (url e) _); [cbn [snd]; eauto|].
    destruct (network e) as [r|]; [|cbn [snd]; eauto].
    destruct (ok r); cbn [snd]; [rewrite Hrun|]; eauto.
  - unfold networkFirst.
    destruct (network e) as [r|].
    + destruct (ok r); cbn [snd]; [rewrite Hrun|]; eauto.
    + destruct (cachesMatch (url e) _); cbn [snd]; eauto.
  - unfold networkFirstWithFallback.
    destruct (network e) as [r|].
    + destruct (ok r); cbn [snd]; [rewrite Hown|]; eauto.
      eexists _, _. split; [reflexivity|].
      rewrite lookup_insert_ne; [exact Hl|]. apply Hs. reflexivity.
    + destruct (cachesMatch (url e) _); [cbn [snd]; eauto|].
      destruct (cachesMatch _ _); cbn [snd]; eauto.
  - unfold staleWhileRevalidate. cbn [snd].
    destruct (network e) as [r|]; [|eauto].
    destruct (ok r); [rewrite Hrun|]; eauto.
Qed.

(** X26.  A precached copy is never revalidated.  With the precache the
    first cache of the storage, as after an install on an empty
    storage, whatever is fetched later for a precached URL goes to the
    run-time cache, behind the precache: the storage keeps answering
    with the precached copy, unless the URL itself is navigated to. *)
Theorem precache_shadows_runtime precached old requests : forall cache rest,
  cache !! precached = Some old ->
  Forall (sparesPrecache precached) requests ->
  cachesMatch precached (serve requests ((CACHE_NAME, cache) :: rest))
  = Some old.
Proof.
  induction requests as [|e requests IH]; intros cache rest Hl Hall.
  - cbn. rewrite Hl. reflexivity.
  - apply List.Forall_cons_iff in Hall as [He Hall]. cbn [serve].
    destruct (respondWith_precache precached old e cache rest He Hl)
      as (cache' & rest' & -> & Hl').
    apply IH; assumption.
Qed.

Lemma fetchAll_succeeds fetch urls :
  (forall u, u ∈ urls -> exists r, fetch u = Some r /\ ok r = true) ->
  exists entries, fetchAll fetch urls = Some entries.
Proof.
  induction urls as [|u urls IH]; intros H; [eexists; reflexivity|].
  destruct (H u) as (r & Hr & Hok); [apply elem_of_cons; left; reflexivity|].
  destruct IH as [entries He].
  { intros u' Hu'. apply H. apply elem_of_cons. right. exact Hu'. }
  cbn. rewrite Hr, Hok, He. eexists; reflexivity.
Qed.

Lemma fetchAll_fails fetch urls u :
  u ∈ urls ->
  (forall r, fetch u = Some r -> ok r = false) ->
  fetchAll fetch urls = None.
Proof.
  induction urls as [|u' urls IH]; intros Hin Hbad.
  - apply elem_of_nil in Hin. destruct Hin.
  - cbn. destruct (fetch u') as [r|] eqn:Er; [|reflexivity].
    destruct (ok r) eqn:Eok; [|reflexivity].
    apply elem_of_cons in Hin as [->|Hin].
    + rewrite (Hbad r Er) in Eok. discriminate.
    + rewrite (IH Hin Hbad). reflexivity.
Qed.

Lemma addAll_lookup fetch urls : forall entries cache u,
  fetchAll fetch urls = Some entries ->
  addAll entries cache !! u
  = if bool_decide (u ∈ urls) then fetch u else cache !! u.
Proof.
  induction urls as [|u' urls IH]; intros entries cache u H; cbn in H.
  - injection H as <-. cbn.
    rewrite bool_decide_eq_false_2 by apply not_elem_of_nil. reflexivity.
  - destruct (fetch u') as [r|] eqn:Er; [|discriminate].
    destruct (ok r); [|discriminate].
    destruct (fetchAll fetch urls) as [entries'|] eqn:E; [|discriminate].
    injection H as <-. unfold addAll. cbn [fold_left fst snd].
    fold (addAll entries' (<[u':=r]> cache)).
    rewrite (IH entries' _ u eq_refl).
    destruct (decide (u' = u)) as [->|Hne].
    + rewrite (bool_decide_eq_true_2 (u ∈ u :: urls))
        by (apply elem_of_cons; left; reflexivity).
      case_bool_decide; [reflexivity|].
      rewrite lookup_insert_eq. symmetry. exact Er.
    + rewrite lookup_insert_ne by exact Hne.
      assert (Hiff : u ∈ u' :: urls <-> u ∈ urls).
      { rewrite elem_of_cons. split; [intros [->|H]|]; tauto. }
      repeat case_bool_decide; try reflexivity; tauto.
Qed.

Lemma match_single (u name : string) cache :
  cachesMatch u [(name, cache)] = cache !! u.
Proof. cbn [cachesMatch]. destruct (cache !! u); reflexivity. Qed.

(** X27.  After an install on an empty storage in which every precache
    asset was fetched with an ok response, a navigation while the
    network is down is answered with the asset as it was fetched, when
    it goes to a precached URL, and with the offline page as it was
    fetched, when it goes anywhere else. *)
Theorem install_then_offline (fetch : string -> option Response) (u : string) :
  (forall a, a ∈ PRECACHE_ASSETS ->
     exists r, fetch a = Some r /\ ok r = true) ->
  let caches := install fetch [] in
  Some (networkFirstWithFallback u None caches).1
  = fetch (if bool_decide (u ∈ PRECACHE_ASSETS) then u
           else "/offline.html"%string) /\
  (networkFirstWithFallback u None caches).2 = caches.
Proof.
  intros Hall caches.
  destruct (fetchAll_succeeds fetch PRECACHE_ASSETS Hall) as [entries He].
  assert (Hc : caches = [(CACHE_NAME, addAll entries ∅)]).
  { unfold caches, install. cbn [withCache]. rewrite He. reflexivity. }
  assert (Hoff : "/offline.html"%string ∈ PRECACHE_ASSETS).
  { apply list_elem_of_In. cbn. auto. }
  clearbody caches. subst caches.
  unfold networkFirstWithFallback. rewrite !match_single.
  rewrite !(addAll_lookup fetch PRECACHE_ASSETS entries _ _ He).
  rewrite (bool_decide_eq_true_2 _ Hoff).
  case_bool_decide as Hin.
  - destruct (Hall u Hin) as (r & -> & _). auto.
  - rewrite lookup_empty.
    destruct (Hall _ Hoff) as (r & -> & _). auto.
Qed.

Lemma withCache_same_match (u name : string) caches :
  cachesMatch u (withCache name (fun cache => cache) caches)
  = cachesMatch u caches.
Proof.
  induction caches as [|[n cache] caches IH]; cbn [withCache cachesMatch].
  - rewrite lookup_empty. reflexivity.
  - case_bool_decide; cbn [cachesMatch]; [reflexivity|].
    rewrite IH. reflexivity.
Qed.

(** X28.  The precache is all or nothing.  When one precache asset
    cannot be fetched, or is fetched with a response that is not ok, the
    install stores none of them, the offline page included: the storage
    answers as before, and on an empty storage a navigation while the
    network is down gets the built-in 503 response. *)
Theorem install_all_or_nothing (fetch : string -> option Response)
    (a : string) caches :
  a ∈ PRECACHE_ASSETS ->
  (forall r, fetch a = Some r -> ok r = false) ->
  (forall u, cachesMatch u (install fetch caches) = cachesMatch u caches) /\
  install fetch [] = [(CACHE_NAME, ∅)] /\
  (forall u,
     (networkFirstWithFallback u None (install fetch [])).1 = offline).
Proof.
  intros Hin Hbad.
  pose proof (fetchAll_fails fetch PRECACHE_ASSETS a Hin Hbad) as Hf.
  assert (Hi : forall cs, install fetch cs
                          = withCache CACHE_NAME (fun cache => cache) cs).
  { intros cs. unfold install. rewrite Hf. reflexivity. }
  split; [intros u; rewrite Hi; apply withCache_same_match|].
  split; [rewrite Hi; reflexivity|].
  intros u. rewrite Hi. cbn [withCache].
  unfold networkFirstWithFallback. rewrite !match_single, !lookup_empty.
  reflexivity.
Qed.

End ServiceWorkerFacts.

Lemma cacheFirst_serves_from_cache_next_witness :
  let r := ServiceWorker.mkResponse 200 "OK" "script" in
  let caches' := (ServiceWorker.cacheFirst "/app.js" (Some r) []).2 in
  ServiceWorker.cacheFirst "/app.js" None caches' = (r, caches').
Proof.
  intros r caches'.
  destruct (cacheFirst_serves_from_cache_next "/app.js" r [])
    as (_ & _ & Hnext); [reflexivity|].
  exact (proj1 (Hnext eq_refl None)).
Defined.

Lemma precache_shadows_runtime_witness :
  let old := ServiceWorker.mkResponse 200 "OK" "old" in
  let new := ServiceWorker.mkResponse 200 "OK" "new" in
  ServiceWorker.cachesMatch "/manifest.json"
    (ServiceWorker.serve
       [ServiceWorker.mkFetch ServiceWorker.NetworkFirst
          "/manifest.json" (Some new);
        ServiceWorker.mkFetch ServiceWorker.StaleWhileRevalidate
          "/manifest.json" (Some new)]
       [(ServiceWorker.CACHE_NAME, {[ "/manifest.json"%string := old ]})])
  = Some old.
Proof.
  intros old new.
  apply (precache_shadows_runtime "/manifest.json" old).
  - apply lookup_singleton_eq.
  - repeat (apply List.Forall_cons; [intros H; discriminate H|]).
    apply List.Forall_nil.
Defined.

Lemma install_then_offline_witness :
  let fetch := fun a : string => Some (ServiceWorker.mkResponse 200 "OK" a) in
  let caches := ServiceWorker.install fetch [] in
  (ServiceWorker.networkFirstWithFallback "/lesson/3" None caches).2 = caches.
Proof.
  intros fetch caches.
  destruct (install_then_offline fetch "/lesson/3") as [_ Hsame];
    [intros a _; eexists; split; reflexivity|].
  exact Hsame.
Defined.

Lemma install_all_or_nothing_witness :
  let fetch := fun a : string =>
    if bool_decide (a = "/vite.svg"%string) then None
    else Some (ServiceWorker.mkResponse 200 "OK" a) in
  ServiceWorker.install fetch [] = [(ServiceWorker.CACHE_NAME, ∅)].
Proof.
  intros fetch.
  destruct (install_all_or_nothing fetch "/vite.svg" [])
    as (_ & Hnothing & _).
  - apply list_elem_of_In. cbn. auto 10.
  - intros r H. vm_compute in H. discriminate H.
  - exact Hnothing.
Defined.

